(** * sprite_extractor.py: a shallow embedding and its verified properties

    The development follows the pipeline of [sprite_extractor.py]:
    foreground mask, tile downscale, 8-connected flood fill, filtering,
    sorting, masked cropping, and the command-line entry point.

    Python integers are [Z]; Python lists are [list] with checked,
    wrap-around indexing ([getitem]); exceptions are the [Raise] results
    of a small error monad; [for] loops are folds in that monad and the
    [while] loop of the flood fill is driven by an explicit fuel. *)

From stdpp Require Import base list list_numbers gmap strings pretty sorting.
From Stdlib Require Import ZArith Lia Ascii.

Local Open Scope Z_scope.

(** ** Python runtime: exceptions, indexing, ranges, loops *)

Module Py.

Inductive exn : Set :=
  | IndexError
  | ValueError
  | ZeroDivisionError
  | OSError
  | SystemExit (status : Z)
  | OutOfFuel.

Inductive res (A : Type) : Type :=
  | Ok (a : A)
  | Raise (e : exn).
Global Arguments Ok {A} a.
Global Arguments Raise {A} e.

Global Instance res_ret : MRet res := λ A a, Ok a.
Global Instance res_bind : MBind res := λ A B f m,
  match m with
  | Ok a => f a
  | Raise e => Raise e
  end.

(** [len(l)] *)
Definition len {A} (l : list A) : Z := Z.of_nat (length l).

(** [l[i]]: a negative index counts from the end; anything outside
    [-len(l) .. len(l)-1] raises [IndexError]. *)
Definition norm_index {A} (l : list A) (i : Z) : Z :=
  if i <? 0 then i + len l else i.

Definition getitem {A} (l : list A) (i : Z) : res A :=
  let j := norm_index l i in
  if 0 <=? j then
    match l !! Z.to_nat j with
    | Some a => Ok a
    | None => Raise IndexError
    end
  else Raise IndexError.

(** [l[i] = v] *)
Definition setitem {A} (l : list A) (i : Z) (v : A) : res (list A) :=
  let j := norm_index l i in
  if (0 <=? j) && (j <? len l) then Ok (<[Z.to_nat j := v]> l)
  else Raise IndexError.

(** [g[y][x]] and [g[y][x] = v] on a list of rows. *)
Definition getitem2 {A} (g : list (list A)) (y x : Z) : res A :=
  row ← getitem g y; getitem row x.

Definition setitem2 {A} (g : list (list A)) (y x : Z) (v : A)
  : res (list (list A)) :=
  row ← getitem g y;
  row' ← setitem row x v;
  setitem g y row'.

(** [range(n)], [range(a, b)] and [range(0, n, step)] for [step > 0]. *)
Definition range (n : Z) : list Z := seqZ 0 n.
Definition range2 (a b : Z) : list Z := seqZ a (b - a).
Definition range_step (n step : Z) : list Z :=
  (λ i, i * step) <$> seqZ 0 ((n + step - 1) `div` step).

(** [[v] * n] *)
Definition repeat_list {A} (v : A) (n : Z) : list A := replicate (Z.to_nat n) v.

(** [a // b] *)
Definition floordiv (a b : Z) : res Z :=
  if b =? 0 then Raise ZeroDivisionError else Ok (a `div` b).

(** [for x in xs: s = body(x, s)] *)
Fixpoint for_ {X S} (xs : list X) (body : X → S → res S) (s : S) : res S :=
  match xs with
  | [] => Ok s
  | x :: xs' => s' ← body x s; for_ xs' body s'
  end.

(** [any(gen)] over a generator whose items may raise: evaluation stops
    at the first true item. *)
Fixpoint any_ {X} (xs : list X) (item : X → res bool) : res bool :=
  match xs with
  | [] => Ok false
  | x :: xs' => b ← item x; if b : bool then Ok true else any_ xs' item
  end.

(** [min(l)] and [max(l)]; the empty list raises [ValueError]. *)
Definition min_ (l : list Z) : res Z :=
  match l with
  | [] => Raise ValueError
  | x :: l' => Ok (foldl Z.min x l')
  end.
Definition max_ (l : list Z) : res Z :=
  match l with
  | [] => Raise ValueError
  | x :: l' => Ok (foldl Z.max x l')
  end.

End Py.
Import Py.

(** ** Grids: rectangular lists of rows *)

Abbreviation Mask := (list (list bool)).

(** A [w] by [h] grid: [h] rows, each of length [w]. *)
Definition is_grid {A} (g : list (list A)) (w h : Z) : Prop :=
  len g = h ∧ Forall (λ row, len row = w) g.

(** Total read of a grid at column [x], row [y]; [d] outside of it. *)
Definition grid_get {A} (d : A) (g : list (list A)) (x y : Z) : A :=
  if (0 <=? x) && (0 <=? y) then
    default d (row ← g !! Z.to_nat y; row !! Z.to_nat x)
  else d.

(** Total read of a boolean grid, [false] outside of it. *)
Definition cell (g : Mask) (x y : Z) : bool := grid_get false g x y.

(** ** Downscaler: [downscale_any] *)

Definition block_any (mask : Mask) (y0 y1 x0 x1 : Z) : res bool :=
  any_ (y ← range2 y0 y1; x ← range2 x0 x1; [(y, x)])
       (λ '(y, x), getitem2 mask y x).

Definition downscale_row (mask : Mask) (tile w h sw sy : Z) (small : Mask)
  : res Mask :=
  let y0 := sy * tile in
  let y1 := Z.min ((sy + 1) * tile) h in
  for_ (range sw) (λ sx small,
    let x0 := sx * tile in
    let x1 := Z.min ((sx + 1) * tile) w in
    b ← block_any mask y0 y1 x0 x1;
    setitem2 small sy sx b) small.

Definition downscale_any (mask : Mask) (tile : Z) : res (Mask * Z * Z) :=
  let h := len mask in
  w ← (if h =? 0 then Ok 0 else row0 ← getitem mask 0; Ok (len row0));
  sw ← floordiv (w + tile - 1) tile;
  sh ← floordiv (h + tile - 1) tile;
  let small := (λ _, repeat_list false sw) <$> range sh in
  small ← for_ (range sh) (downscale_row mask tile w h sw) small;
  Ok (small, sw, sh).

(** ** Images

    Pillow is an external library. An image is modelled by what the
    program observes of it: its [size], whether ["A"] is among its bands,
    and the pixel rows of [img.convert("RGBA")]. [img.convert("RGB")]
    keeps the colour channels of those pixels. Pixel access [px[x, y]]
    reads row [y], column [x].

    The band test and the converted alpha are independent observations:
    a palette image with a transparency entry has the single band ["P"],
    and its RGBA conversion still carries alpha 0 on the transparent
    entries. *)

Abbreviation RGB := (Z * Z * Z)%type.
Abbreviation RGBA := (Z * Z * Z * Z)%type.
Abbreviation Cell := (Z * Z)%type.

Record Image : Type := mkImage {
  im_w : Z;
  im_h : Z;
  has_alpha_band : bool;
  im_rgba : list (list RGBA);
}.

Definition wf_image (img : Image) : Prop :=
  0 ≤ im_w img ∧ 0 ≤ im_h img ∧ is_grid (im_rgba img) (im_w img) (im_h img).

Definition rgb_of (p : RGBA) : RGB := let '(r, g, b, _) := p in (r, g, b).
Definition alpha_of (p : RGBA) : Z := let '(_, _, _, a) := p in a.

Definition convert_RGB (img : Image) : list (list RGB) :=
  (λ row : list RGBA, rgb_of <$> row) <$> im_rgba img.

(** ** ForegroundMaskBuilder: [most_common_rgb], [foreground_mask] *)

(** [collections.Counter]: keys in first-insertion order with counts. *)
Fixpoint counter_add (k : RGB) (c : list (RGB * Z)) : list (RGB * Z) :=
  match c with
  | [] => [(k, 1)]
  | (k', n) :: c' =>
      if decide (k' = k) then (k', n + 1) :: c' else (k', n) :: counter_add k c'
  end.

Definition Counter (items : list RGB) : list (RGB * Z) :=
  foldl (λ c k, counter_add k c) [] items.

(** [c.most_common(1)]: the first item of maximal count, if any. *)
Definition most_common_1 (c : list (RGB * Z)) : list (RGB * Z) :=
  match c with
  | [] => []
  | kn :: c' => [foldl (λ best kn', if best.2 <? kn'.2 then kn' else best) kn c']
  end.

Definition sample_step (w h : Z) : Z := if w * h <=? 2000000 then 1 else 2.

Definition sample_coords (w h : Z) : list (Z * Z) :=
  let step := sample_step w h in
  y ← range_step h step; x ← range_step w step; [(x, y)].

Definition most_common_rgb (img : Image) : res RGB :=
  let px := convert_RGB img in
  let '(w, h) := (im_w img, im_h img) in
  items ← mapM (λ '(x, y), getitem2 px y x) (sample_coords w h);
  let c := Counter items in
  match most_common_1 c with
  | (k, _) :: _ => Ok k
  | [] => Ok (0, 0, 0)
  end.

Definition foreground_mask (img : Image) : res Mask :=
  let '(w, h) := (im_w img, im_h img) in
  if has_alpha_band img then
    let px := im_rgba img in
    mapM (λ y, mapM (λ x, p ← getitem2 px y x; Ok (0 <? alpha_of p))
                    (range w)) (range h)
  else
    bg ← most_common_rgb img;
    let px := convert_RGB img in
    mapM (λ y, mapM (λ x, p ← getitem2 px y x; Ok (bool_decide (p ≠ bg)))
                    (range w)) (range h).

(** ** ComponentFinder: [flood_components_8] *)

Definition nbrs : list (Z * Z) :=
  dy ← [-1; 0; 1]; dx ← [-1; 0; 1];
  if negb ((dx =? 0) && (dy =? 0)) then [(dx, dy)] else [].

(** One iteration of [for dx, dy in nbrs] on the state [(vis, q)]. *)
Definition visit_nbr (small : Mask) (sw sh cx cy : Z) (d : Z * Z)
    (st : Mask * list Cell) : res (Mask * list Cell) :=
  let '(dx, dy) := d in
  let '(vis, q) := st in
  let nx := cx + dx in
  let ny := cy + dy in
  if (0 <=? nx) && (nx <? sw) && (0 <=? ny) && (ny <? sh) then
    occ ← getitem2 small ny nx;
    if occ : bool then
      seen ← getitem2 vis ny nx;
      if seen : bool then Ok (vis, q)
      else vis' ← setitem2 vis ny nx true; Ok (vis', q ++ [(nx, ny)])
    else Ok (vis, q)
  else Ok (vis, q).

(** [while q: ...]; every iteration spends one unit of [fuel]. *)
Fixpoint bfs (fuel : nat) (small : Mask) (sw sh : Z)
    (vis : Mask) (q cells : list Cell) : res (Mask * list Cell) :=
  match q with
  | [] => Ok (vis, cells)
  | (cx, cy) :: q' =>
      match fuel with
      | O => Raise OutOfFuel
      | S fuel' =>
          st ← for_ nbrs (visit_nbr small sw sh cx cy) (vis, q');
          bfs fuel' small sw sh st.1 st.2 (cells ++ [(cx, cy)])
      end
  end.

(** The body of [for x in range(sw)] on the state [(vis, comps)]. *)
Definition scan_cell (fuel : nat) (small : Mask) (sw sh y x : Z)
    (st : Mask * list (list Cell)) : res (Mask * list (list Cell)) :=
  let '(vis, comps) := st in
  occ ← getitem2 small y x;
  skip ← (if negb occ then Ok true else getitem2 vis y x);
  if skip : bool then Ok (vis, comps)
  else
    vis ← setitem2 vis y x true;
    r ← bfs fuel small sw sh vis [(x, y)] [];
    Ok (r.1, comps ++ [r.2]).

Definition flood_components_8 (fuel : nat) (small : Mask)
  : res (list (list Cell)) :=
  let sh := len small in
  sw ← (if sh =? 0 then Ok 0 else row0 ← getitem small 0; Ok (len row0));
  let vis := (λ _, repeat_list false sw) <$> range sh in
  st ← for_ (range sh) (λ y st,
          for_ (range sw) (scan_cell fuel small sw sh y) st) (vis, []);
  Ok st.2.

(** ** ComponentSorter: [sort_components] *)

(** [sorted(l, key=k)]: the keys are computed first, left to right; the
    sort is stable and compares keys with [<] only. The built-in is
    modelled by a stable insertion sort on the decorated list. *)
Section sorted.
Context {A K : Type} (ltb : K → K → bool).

Fixpoint insert_by_key (x : K * A) (l : list (K * A)) : list (K * A) :=
  match l with
  | [] => [x]
  | y :: l' => if ltb y.1 x.1 then y :: insert_by_key x l' else x :: y :: l'
  end.

Definition sort_decorated (l : list (K * A)) : list (K * A) :=
  foldr insert_by_key [] l.

Definition sorted_ (key : A → res K) (l : list A) : res (list A) :=
  ks ← mapM key l;
  Ok ((sort_decorated (zip ks l)).*2).
End sorted.

(** [<] on 4-tuples of integers (lexicographic). *)
Definition tuple4_ltb (a b : Z * Z * Z * Z) : bool :=
  let '(a1, a2, a3, a4) := a in
  let '(b1, b2, b3, b4) := b in
  if a1 =? b1 then
    if a2 =? b2 then
      if a3 =? b3 then a4 <? b4 else a3 <? b3
    else a2 <? b2
  else a1 <? b1.

Definition bbox_key (cells : list Cell) : res (Z * Z * Z * Z) :=
  let xs := cells.*1 in
  let ys := cells.*2 in
  miny ← min_ ys; minx ← min_ xs; maxy ← max_ ys; maxx ← max_ xs;
  Ok (miny, minx, maxy, maxx).

Definition size_key (cells : list Cell) : Z := - len cells.

Definition sort_components (comps : list (list Cell)) (mode : string)
  : res (list (list Cell)) :=
  if String.eqb mode "none" then Ok comps
  else if String.eqb mode "topleft" then sorted_ tuple4_ltb bbox_key comps
  else if String.eqb mode "size" then
    sorted_ Z.ltb (λ c, Ok (size_key c)) comps
  else Raise ValueError.

(** ** SpriteCropper: [apply_component_mask] *)

(** Total read of the RGBA rows; transparent black outside the image,
    which is what [Image.crop] pads with. *)
Definition pixel_at (rows : list (list RGBA)) (x y : Z) : RGBA :=
  grid_get (0, 0, 0, 0) rows x y.

(** [rgba.crop((x0, y0, x1, y1))]: an independent copy of the region. *)
Definition crop (rgba : Image) (box : Z * Z * Z * Z) : res Image :=
  let '(x0, y0, x1, y1) := box in
  if (x1 <? x0) || (y1 <? y0) then Raise ValueError
  else Ok {|
    im_w := x1 - x0;
    im_h := y1 - y0;
    has_alpha_band := has_alpha_band rgba;
    im_rgba := (λ py, (λ px, pixel_at (im_rgba rgba) (x0 + px) (y0 + py))
                        <$> range (x1 - x0)) <$> range (y1 - y0) |}.

(** The body of [for px in range(cw)] on the crop's pixel rows [cp]. *)
Definition mask_pixel (row_m : list bool) (cell_set : gset Cell)
    (tile x0 sy py px : Z) (cp : list (list RGBA)) : res (list (list RGBA)) :=
  let gx := x0 + px in
  sx ← floordiv gx tile;
  erase ← (if bool_decide ((sx, sy) ∉ cell_set) then Ok true
           else m ← getitem row_m gx; Ok (negb m));
  if erase : bool then
    p ← getitem2 cp py px;
    let '(r, g, b, _a) := p in
    setitem2 cp py px (r, g, b, 0)
  else Ok cp.

Definition apply_component_mask (rgba : Image) (full_mask : Mask)
    (cell_set : gset Cell) (tile : Z) (crop_box : Z * Z * Z * Z) : res Image :=
  let '(x0, y0, x1, y1) := crop_box in
  crop ← crop rgba (x0, y0, x1, y1);
  let '(cw, ch) := (im_w crop, im_h crop) in
  cp ← for_ (range ch) (λ py cp,
          let gy := y0 + py in
          sy ← floordiv gy tile;
          row_m ← getitem full_mask gy;
          for_ (range cw) (mask_pixel row_m cell_set tile x0 sy py) cp)
        (im_rgba crop);
  Ok {| im_w := cw; im_h := ch;
        has_alpha_band := has_alpha_band crop; im_rgba := cp |}.

(** ** The pipeline: [extract_sprites] and [main] *)

Record SpriteRecord : Type := mkSpriteRecord {
  sr_id : Z;
  sr_name : string;
  sr_x : Z;
  sr_y : Z;
  sr_w : Z;
  sr_h : Z;
  sr_mask_x : Z;
  sr_mask_y : Z;
  sr_mask_w : Z;
  sr_mask_h : Z;
  sr_image : string;
}.

Record AtlasMeta : Type := mkAtlasMeta {
  meta_source : string;
  meta_image_w : Z;
  meta_image_h : Z;
  meta_tile : Z;
  meta_mask_w : Z;
  meta_mask_h : Z;
  meta_count : Z;
}.

Record Atlas : Type := mkAtlas {
  atlas_meta : AtlasMeta;
  atlas_sprites : list SpriteRecord;
}.

(** The outside world: the file system and [os.path]. *)
Record Env : Type := mkEnv {
  makedirs_ok : string → bool;
  image_file : string → option Image;
  writable : string → bool;
  path_join : string → string → string;
  path_basename : string → string;
  path_splitext : string → string * string;
}.

(** What a run does to the outside world, in order. *)
Inductive event : Type :=
  | EvMakedirs (dir : string)
  | EvOpenImage (path : string)
  | EvSaveImage (path : string) (im : Image)
  | EvWriteJson (path : string) (atlas : Atlas)
  | EvPrint (line : string).

(** Computations that may raise and that append to the trace of events. *)
Definition IO (A : Type) : Type := list event → res A * list event.

Global Instance io_ret : MRet IO := λ A a tr, (Ok a, tr).
Global Instance io_bind : MBind IO := λ A B f m tr,
  match m tr with
  | (Ok a, tr') => f a tr'
  | (Raise e, tr') => (Raise e, tr')
  end.

Definition lift {A} (r : res A) : IO A := λ tr, (r, tr).
Definition emit (e : event) : IO () := λ tr, (Ok (), tr ++ [e]).

Fixpoint for_io {X S} (xs : list X) (body : X → S → IO S) (s : S) : IO S :=
  match xs with
  | [] => mret s
  | x :: xs' => s' ← body x s; for_io xs' body s'
  end.

Definition os_makedirs (env : Env) (dir : string) : IO () :=
  _ ← emit (EvMakedirs dir);
  if makedirs_ok env dir then mret () else lift (Raise OSError).

Definition Image_open (env : Env) (path : string) : IO Image :=
  _ ← emit (EvOpenImage path);
  match image_file env path with
  | Some img => mret img
  | None => lift (Raise OSError)
  end.

Definition Image_save (env : Env) (im : Image) (path : string) : IO () :=
  _ ← emit (EvSaveImage path im);
  if writable env path then mret () else lift (Raise OSError).

Definition json_dump_to (env : Env) (path : string) (atlas : Atlas) : IO () :=
  _ ← emit (EvWriteJson path atlas);
  if writable env path then mret () else lift (Raise OSError).

Definition print (line : string) : IO () := emit (EvPrint line).

Definition convert_RGBA (img : Image) : Image :=
  {| im_w := im_w img; im_h := im_h img;
     has_alpha_band := true; im_rgba := im_rgba img |}.

Definition send_to_vlm (env : Env) (image_path : string) : string :=
  (path_splitext env (path_basename env image_path)).1.

(** [f"{n}"] and [f"sprite_{sid:04d}.png"] (for [sid >= 0], which is
    all that [enumerate] produces) *)
Definition str_of_int (n : Z) : string := pretty n.
Definition sprite_filename (sid : Z) : string :=
  let digits := str_of_int sid in
  let pad := String.concat "" (replicate (4 - String.length digits)%nat "0"%string) in
  ("sprite_" +:+ pad +:+ digits +:+ ".png")%string.

(** Stages 1 to 5 (the lines from [foreground_mask] to [sort_components]). *)
Definition find_components (fuel : nat) (img : Image) (tile : Z)
    (sort_mode : string) (min_cells : Z)
  : res (Mask * Z * Z * list (list Cell)) :=
  m ← foreground_mask img;
  ds ← downscale_any m tile;
  let '(small, sw, sh) := ds in
  comps ← flood_components_8 fuel small;
  let comps := filter (λ c, min_cells ≤ len c) comps in
  comps ← sort_components comps sort_mode;
  Ok (m, sw, sh, comps).

(** The coarse bounding box [(sx0, sy0, sx1, sy1)] of a component and
    the pixel-space crop box derived from it. *)
Definition coarse_bbox (cells : list Cell) : res (Z * Z * Z * Z) :=
  let xs := cells.*1 in
  let ys := cells.*2 in
  sx0 ← min_ xs; sy0 ← min_ ys; mx ← max_ xs; my ← max_ ys;
  Ok (sx0, sy0, mx + 1, my + 1).

Definition crop_box_of (bbox : Z * Z * Z * Z) (tile w h : Z) : Z * Z * Z * Z :=
  let '(sx0, sy0, sx1, sy1) := bbox in
  (sx0 * tile, sy0 * tile, Z.min (sx1 * tile) w, Z.min (sy1 * tile) h).

(** The body of [for sid, cells in enumerate(comps)]. *)
Definition extract_one (env : Env) (out_dir : string) (rgba : Image)
    (m : Mask) (tile w h : Z) (label : bool) (item : Z * list Cell)
    (sprites : list SpriteRecord) : IO (list SpriteRecord) :=
  let '(sid, cells) := item in
  let cell_set : gset Cell := list_to_set cells in
  bbox ← lift (coarse_bbox cells);
  let '(sx0, sy0, sx1, sy1) := bbox in
  let '(x0, y0, x1, y1) := crop_box_of bbox tile w h in
  crop ← lift (apply_component_mask rgba m cell_set tile (x0, y0, x1, y1));
  let out_img := sprite_filename sid in
  let out_path := path_join env out_dir out_img in
  _ ← Image_save env crop out_path;
  let name := if label then send_to_vlm env out_path else out_img in
  mret (sprites ++ [ {|
    sr_id := sid; sr_name := name;
    sr_x := x0; sr_y := y0; sr_w := x1 - x0; sr_h := y1 - y0;
    sr_mask_x := sx0; sr_mask_y := sy0;
    sr_mask_w := sx1 - sx0; sr_mask_h := sy1 - sy0;
    sr_image := out_img |} ]).

Definition enumerate {A} (l : list A) : list (Z * A) := zip (range (len l)) l.

Definition extract_sprites (env : Env) (fuel : nat) (in_path out_dir : string)
    (tile : Z) (sort_mode : string) (min_cells : Z) (label : bool)
  : IO (Atlas * list SpriteRecord) :=
  _ ← os_makedirs env out_dir;
  img ← Image_open env in_path;
  let rgba := convert_RGBA img in
  let '(w, h) := (im_w rgba, im_h rgba) in
  found ← lift (find_components fuel img tile sort_mode min_cells);
  let '(m, sw, sh, comps) := found in
  sprites ← for_io (enumerate comps)
               (extract_one env out_dir rgba m tile w h label) [];
  let atlas := {|
    atlas_meta := {|
      meta_source := path_basename env in_path;
      meta_image_w := w; meta_image_h := h; meta_tile := tile;
      meta_mask_w := sw; meta_mask_h := sh;
      meta_count := len sprites |};
    atlas_sprites := sprites |} in
  mret (atlas, sprites).

(** The values of the command-line options as typed by the user, after
    [argparse]'s [type=int] conversions. *)
Record Args : Type := mkArgs {
  arg_input : string;
  arg_out : string;
  arg_tile : Z;
  arg_atlas : string;
  arg_sort : string;
  arg_min_cells : Z;
  arg_no_label : bool;
}.

(** [build_argparser]: of what the parser declares, only the [choices]
    of [--sort] restrict the values; [parse_args] rejects any other
    value of [--sort] and exits with status 2, as [argparse] does. *)
Definition sort_choices : list string := ["none"; "topleft"; "size"]%string.

Record ArgumentParser : Type := mkArgumentParser {
  parser_sort_choices : list string;
}.

Definition build_argparser : ArgumentParser :=
  {| parser_sort_choices := sort_choices |}.

Definition parse_args (p : ArgumentParser) (argv : Args) : IO Args :=
  if bool_decide (arg_sort argv ∈ parser_sort_choices p) then mret argv
  else lift (Raise (SystemExit 2)).

(** [raise SystemExit("...")] with a message exits with status 1. *)
Definition main (env : Env) (fuel : nat) (argv : Args) : IO Z :=
  args ← parse_args build_argparser argv;
  if arg_tile args <=? 0 then lift (Raise (SystemExit 1))
  else if arg_min_cells args <=? 0 then lift (Raise (SystemExit 1))
  else
    r ← extract_sprites env fuel (arg_input args) (arg_out args)
          (arg_tile args) (arg_sort args) (arg_min_cells args)
          (negb (arg_no_label args));
    let '(atlas, sprites) := r in
    let atlas_path := path_join env (arg_out args) (arg_atlas args) in
    _ ← json_dump_to env atlas_path atlas;
    _ ← print ("sprites: " +:+ str_of_int (len sprites));
    _ ← print ("wrote:   " +:+ atlas_path);
    mret 0.

(** The exit status of the process running [raise SystemExit(main())]:
    the returned value, the status of a [SystemExit], or 1 for any other
    uncaught exception. *)
Definition exit_status (r : res Z) : Z :=
  match r with
  | Ok n => n
  | Raise (SystemExit n) => n
  | Raise _ => 1
  end.

(** ** Specification vocabulary *)

(** [n] is the ceiling of [a / t]. *)
Definition is_ceil_div (n a t : Z) : Prop := (n - 1) * t < a ≤ n * t.

(** The edge-clipped block of pixels under the coarse cell [(sx, sy)]. *)
Definition in_block (tile w h sx sy x y : Z) : Prop :=
  sx * tile ≤ x < Z.min ((sx + 1) * tile) w ∧
  sy * tile ≤ y < Z.min ((sy + 1) * tile) h.

(** The value [block_any] computes for the coarse cell [(sx, sy)] when
    no read fails. *)
Definition block_value (mask : Mask) (tile w h sx sy : Z) : bool :=
  existsb (λ '(y, x), cell mask x y)
    (y ← range2 (sy * tile) (Z.min ((sy + 1) * tile) h);
     x ← range2 (sx * tile) (Z.min ((sx + 1) * tile) w); [(y, x)]).

(** The value of a boolean grid at a cell [(x, y)]. *)
Definition at_ (g : Mask) (c : Cell) : bool := cell g c.1 c.2.

(** A cell of the coarse grid that holds [True]. *)
Definition occupied (small : Mask) (c : Cell) : Prop := at_ small c = true.

(** Chebyshev distance 1: the eight neighbours, diagonals included. *)
Definition adjacent (c c' : Cell) : Prop :=
  Z.max (Z.abs (c'.1 - c.1)) (Z.abs (c'.2 - c.2)) = 1.

(** Row-major order on cells: [y] ascending, then [x] ascending. *)
Definition rm_lt (c c' : Cell) : Prop :=
  c.2 < c'.2 ∨ (c.2 = c'.2 ∧ c.1 < c'.1).
Definition rm_le (c c' : Cell) : Prop := c = c' ∨ rm_lt c c'.

(** A set of cells that contains every occupied neighbour of its members. *)
Definition closed (small : Mask) (K : list Cell) : Prop :=
  ∀ c c', c ∈ K → adjacent c c' → occupied small c' → c' ∈ K.

(** One step of 8-connectivity inside the occupied cells, and the cells
    reachable from [c] by such steps. *)
Definition link (small : Mask) (c c' : Cell) : Prop :=
  adjacent c c' ∧ occupied small c'.
Definition reachable (small : Mask) (c c' : Cell) : Prop := rtc (link small) c c'.

(** [s] is the top-most, then left-most cell of [K]. *)
Definition is_seed (K : list Cell) (s : Cell) : Prop :=
  s ∈ K ∧ ∀ c, c ∈ K → rm_le s c.

(** Every component starts with its seed, and the seeds of the
    components increase strictly along the list. *)
Definition seeds_increasing (comps : list (list Cell)) : Prop :=
  ∀ (i j : nat) Ki Kj, comps !! i = Some Ki → comps !! j = Some Kj →
    (i < j)%nat →
    ∃ si sj, head Ki = Some si ∧ head Kj = Some sj ∧ rm_lt si sj.

(** Lexicographic [<=] on 4-tuples of integers. *)
Definition tuple4_le (a b : Z * Z * Z * Z) : Prop :=
  let '(a1, a2, a3, a4) := a in
  let '(b1, b2, b3, b4) := b in
  a1 < b1 ∨ (a1 = b1 ∧ (a2 < b2 ∨ (a2 = b2 ∧ (a3 < b3 ∨ (a3 = b3 ∧ a4 ≤ b4))))).

(** [m] is the least (greatest) element of [l]. *)
Definition is_min (m : Z) (l : list Z) : Prop := m ∈ l ∧ ∀ x, x ∈ l → m ≤ x.
Definition is_max (m : Z) (l : list Z) : Prop := m ∈ l ∧ ∀ x, x ∈ l → x ≤ m.

(** The colour of the pixel [(x, y)] of an image, and how often a colour
    occurs in a list of samples. *)
Definition rgb_at (img : Image) (x y : Z) : RGB :=
  rgb_of (pixel_at (im_rgba img) x y).
Definition freq (c : RGB) (samples : list RGB) : Z :=
  len (filter (λ c', c' = c) samples).

(** The colours sampled by [most_common_rgb], in sampling order. *)
Definition samples_of (img : Image) : list RGB :=
  (λ '(x, y), rgb_at img x y) <$> sample_coords (im_w img) (im_h img).

(** [keys] lists the distinct elements of [items] in the order in which
    they are first encountered: whatever precedes the first occurrence
    of a key is among the keys before it. *)
Definition first_seen_order (items keys : list RGB) : Prop :=
  ∀ ks1 b ks2, keys = ks1 ++ b :: ks2 →
    ∃ pre post, items = pre ++ b :: post ∧ b ∉ pre ∧ ∀ x, x ∈ pre → x ∈ ks1.

(** What a [Counter] built from [items] holds. *)
Definition counter_of (items : list RGB) (c : list (RGB * Z)) : Prop :=
  NoDup c.*1 ∧
  (∀ k n, (k, n) ∈ c → n = freq k items) ∧
  (∀ k, k ∈ items ↔ k ∈ c.*1) ∧
  first_seen_order items c.*1.

(** The crop pixel [(px, py)] of the box starting at [(x0, y0)] is kept
    when its coarse cell is in the component and the full-resolution
    mask is true at its global position. *)
Definition kept (full_mask : Mask) (cell_set : gset Cell)
    (tile x0 y0 px py : Z) : Prop :=
  ((x0 + px) `div` tile, (y0 + py) `div` tile) ∈ cell_set ∧
  cell full_mask (x0 + px) (y0 + py) = true.

Global Instance kept_dec full_mask cell_set tile x0 y0 px py :
  Decision (kept full_mask cell_set tile x0 y0 px py).
Proof. unfold kept. apply _. Defined.

(** A pixel with its alpha set to 0 and its colour untouched. *)
Definition erased (p : RGBA) : RGBA := let '(r, g, b, _) := p in (r, g, b, 0).

(** What [apply_component_mask] leaves at the crop pixel [(px, py)]. *)
Definition masked_pixel (rgba : Image) (full_mask : Mask)
    (cell_set : gset Cell) (tile x0 y0 px py : Z) : RGBA :=
  let src := pixel_at (im_rgba rgba) (x0 + px) (y0 + py) in
  if decide (kept full_mask cell_set tile x0 y0 px py) then src else erased src.

(** Events that write a sprite image. *)
Definition is_save (e : event) : Prop := ∃ path im, e = EvSaveImage path im.

(** An environment in which the sheet [img] is found at [in_path] and
    every directory creation and file write succeeds. *)
Definition cooperative (env : Env) (in_path out_dir : string) (img : Image)
  : Prop :=
  image_file env in_path = Some img ∧ wf_image img ∧
  makedirs_ok env out_dir = true ∧ ∀ path, writable env path = true.

(** The descriptor record [r] and the save event [saved] are those of
    the component [K] at position [i] of the sorted list: identifier and
    file name, coarse box, pixel box inside the sheet, and the saved
    image being the masked crop of that box. *)
Definition sprite_entry (env : Env) (out_dir : string) (img : Image)
    (m : Mask) (tile : Z) (label : bool) (i : nat) (K : list Cell)
    (r : SpriteRecord) (saved : event) : Prop :=
  let file := sprite_filename (Z.of_nat i) in
  let path := path_join env out_dir file in
  sr_id r = Z.of_nat i ∧ sr_image r = file ∧
  sr_name r = (if label then send_to_vlm env path else file) ∧
  coarse_bbox K = Ok (sr_mask_x r, sr_mask_y r,
                      sr_mask_x r + sr_mask_w r, sr_mask_y r + sr_mask_h r) ∧
  sr_x r = sr_mask_x r * tile ∧ sr_y r = sr_mask_y r * tile ∧
  sr_x r + sr_w r = Z.min ((sr_mask_x r + sr_mask_w r) * tile) (im_w img) ∧
  sr_y r + sr_h r = Z.min ((sr_mask_y r + sr_mask_h r) * tile) (im_h img) ∧
  (0 ≤ sr_x r ∧ 0 < sr_w r ∧ sr_x r + sr_w r ≤ im_w img) ∧
  (0 ≤ sr_y r ∧ 0 < sr_h r ∧ sr_y r + sr_h r ≤ im_h img) ∧
  ∃ out, saved = EvSaveImage path out ∧
    apply_component_mask (convert_RGBA img) m (list_to_set K) tile
      (sr_x r, sr_y r, sr_x r + sr_w r, sr_y r + sr_h r) = Ok out ∧
    im_w out = sr_w r ∧ im_h out = sr_h r.

(** Removal of leading zeros, keeping the last character: the inverse
    of the zero padding of [sprite_filename]. *)
Fixpoint lstrip0 (s : string) : string :=
  match s with
  | String c t =>
      if Ascii.eqb c "0"%char then
        match t with
        | EmptyString => s
        | String _ _ => lstrip0 t
        end
      else s
  | EmptyString => s
  end.

(** ** Invariants of the flood fill *)

(** The state of one breadth-first traversal started from [seed] when
    the visited grid was [V0]: [L] lists the cells reached so far (the
    cells already dequeued, then the queue), and the cells satisfying
    [P] have all their occupied neighbours marked. *)
Definition bfs_inv (small : Mask) (sw sh : Z) (V0 : Mask) (seed : Cell)
    (vis : Mask) (L : list Cell) (P : Cell → Prop) : Prop :=
  is_grid vis sw sh ∧
  NoDup L ∧
  (∃ rest, L = seed :: rest) ∧
  (∀ c, at_ vis c = true ↔ at_ V0 c = true ∨ c ∈ L) ∧
  (∀ c, c ∈ L → occupied small c ∧ at_ V0 c = false) ∧
  (∀ c, c ∈ L → reachable small seed c) ∧
  (∀ c c', P c → adjacent c c' → occupied small c' → at_ vis c' = true).

(** What holds of a finished component, discovered before position [p]. *)
Definition component_ok (small : Mask) (p : Cell) (K : list Cell) : Prop :=
  closed small K ∧
  ∃ seed rest, K = seed :: rest ∧ rm_lt seed p ∧
    (∀ c, c ∈ K → rm_le seed c) ∧ (∀ c, c ∈ K → reachable small seed c).

(** The state of the row-major scan when it is about to look at [p]. *)
Definition flood_inv (small : Mask) (sw sh : Z) (p : Cell)
    (st : Mask * list (list Cell)) : Prop :=
  is_grid st.1 sw sh ∧
  NoDup (concat st.2) ∧
  (∀ c, at_ st.1 c = true ↔ c ∈ concat st.2) ∧
  (∀ c, c ∈ concat st.2 → occupied small c) ∧
  (∀ c, rm_lt c p → occupied small c → at_ st.1 c = true) ∧
  (∀ K, K ∈ st.2 → component_ok small p K) ∧
  seeds_increasing st.2.

(** ** Concrete inputs *)

(** Scenario A: the mask of a 4x4 sheet whose only foreground pixels are
    [(0, 0)] and [(3, 3)], and its coarse grid for [tile = 2]. *)
Definition scenario_A_mask : Mask :=
  [[true; false; false; false];
   [false; false; false; false];
   [false; false; false; false];
   [false; false; false; true]].
Definition scenario_A_grid : Mask := [[true; false]; [false; true]].

(** Scenario A as an RGBA sheet, and an environment that serves it. *)
Definition scenario_A_sheet : Image :=
  {| im_w := 4; im_h := 4; has_alpha_band := true;
     im_rgba :=
       [[(10, 20, 30, 255); (0, 0, 0, 0); (0, 0, 0, 0); (0, 0, 0, 0)];
        [(0, 0, 0, 0); (0, 0, 0, 0); (0, 0, 0, 0); (0, 0, 0, 0)];
        [(0, 0, 0, 0); (0, 0, 0, 0); (0, 0, 0, 0); (0, 0, 0, 0)];
        [(0, 0, 0, 0); (0, 0, 0, 0); (0, 0, 0, 0); (10, 20, 30, 255)]] |}.
Definition env_scenario_A : Env :=
  {| makedirs_ok := λ _, true;
     image_file := λ _, Some scenario_A_sheet;
     writable := λ _, true;
     path_join := λ a b, (a +:+ "/" +:+ b)%string;
     path_basename := λ p, p;
     path_splitext := λ p, (p, ""%string) |}.

(** A palette sheet with a transparency entry: no ["A"] band, yet its
    RGBA conversion has a pixel of alpha 0 whose colour is not the
    background colour. *)
Definition palette_sheet : Image :=
  {| im_w := 3; im_h := 1; has_alpha_band := false;
     im_rgba := [[(255, 255, 255, 255); (255, 255, 255, 255); (200, 0, 0, 0)]] |}.

(** An environment with no readable file, and a valid command line. *)
Definition env_no_input : Env :=
  {| makedirs_ok := λ _, true;
     image_file := λ _, None;
     writable := λ _, true;
     path_join := λ a b, (a +:+ "/" +:+ b)%string;
     path_basename := λ p, p;
     path_splitext := λ p, (p, ""%string) |}.
Definition default_args : Args :=
  {| arg_input := "sheet.png"; arg_out := "out"; arg_tile := 2;
     arg_atlas := "atlas.json"; arg_sort := "topleft"; arg_min_cells := 1;
     arg_no_label := false |}.

(** Command lines with [--sort bogus] and with [--tile 0]. *)
Definition bogus_sort_args : Args :=
  {| arg_input := "sheet.png"; arg_out := "out"; arg_tile := 2;
     arg_atlas := "atlas.json"; arg_sort := "bogus"; arg_min_cells := 1;
     arg_no_label := false |}.
Definition zero_tile_args : Args :=
  {| arg_input := "sheet.png"; arg_out := "out"; arg_tile := 0;
     arg_atlas := "atlas.json"; arg_sort := "topleft"; arg_min_cells := 1;
     arg_no_label := false |}.

(** The default command line with a threshold above the 16 pixels of the
    Scenario A sheet. *)
Definition high_threshold_args : Args :=
  {| arg_input := "sheet.png"; arg_out := "out"; arg_tile := 2;
     arg_atlas := "atlas.json"; arg_sort := "topleft"; arg_min_cells := 17;
     arg_no_label := false |}.

(** Four components in discovery order, for the sorter. *)
Definition sorter_input : list (list Cell) :=
  [[(0, 0)]; [(3, 0); (4, 0)]; [(6, 0)]; [(1, 2); (1, 3)]].

(** * Lemmas and theorems *)

(** Closed goals about concrete grids and images. *)
Ltac concrete_grid := split; [reflexivity | by repeat constructor].
Ltac concrete_image :=
  split; [by vm_compute | split; [by vm_compute | concrete_grid]].
Ltac concrete_cooperative :=
  split; [reflexivity | split; [concrete_image | by split]].

(** ** Reasoning principles for the runtime *)

Section runtime_facts.
Context {A : Type}.
Implicit Types (l : list A) (g : list (list A)).

Lemma getitem_ok l i a :
  0 ≤ i → l !! Z.to_nat i = Some a → getitem l i = Ok a.
Proof.
  intros Hi Hl. unfold getitem, norm_index.
  destruct (Z.ltb_spec i 0); [lia|].
  destruct (Z.leb_spec 0 i); [|lia]. by rewrite Hl.
Qed.

Lemma getitem_in_range l i :
  0 ≤ i < len l → ∃ a, getitem l i = Ok a ∧ l !! Z.to_nat i = Some a.
Proof.
  intros Hi. unfold len in Hi.
  destruct (lookup_lt_is_Some_2 l (Z.to_nat i)) as [a Ha]; [lia|].
  exists a. split; [apply getitem_ok; [lia|done]|done].
Qed.

Lemma setitem_ok l i v :
  0 ≤ i < len l → setitem l i v = Ok (<[Z.to_nat i := v]> l).
Proof.
  intros Hi. unfold setitem, norm_index.
  destruct (Z.ltb_spec i 0); [lia|].
  destruct (Z.leb_spec 0 i); [|lia].
  destruct (Z.ltb_spec i (len l)); [done|lia].
Qed.

Lemma for_invariant {X S} (I : list X → S → Prop)
    (body : X → S → res S) (xs : list X) (s0 : S) :
  I [] s0 →
  (∀ done x rest s, xs = done ++ x :: rest → I done s →
     ∃ s', body x s = Ok s' ∧ I (done ++ [x]) s') →
  ∃ s', for_ xs body s0 = Ok s' ∧ I xs s'.
Proof.
  intros H0 Hstep.
  cut (∀ rest done s, xs = done ++ rest → I done s →
         ∃ s', for_ rest body s = Ok s' ∧ I xs s').
  { intros Hc. apply (Hc xs [] s0); done. }
  induction rest as [|x rest IH]; intros done s Hxs HI; simpl.
  - exists s. rewrite app_nil_r in Hxs. by subst.
  - destruct (Hstep done x rest s Hxs HI) as (s' & -> & HI'). simpl.
    apply (IH (done ++ [x])); [|done]. by rewrite <- app_assoc.
Qed.

Lemma any_ok {X} (item : X → res bool) (f : X → bool) (xs : list X) :
  (∀ x, x ∈ xs → item x = Ok (f x)) → any_ xs item = Ok (existsb f xs).
Proof.
  induction xs as [|x xs IH]; intros Hall; simpl; [done|].
  rewrite (Hall x) by left. simpl.
  destruct (f x); [done|]. apply IH. intros y Hy. apply Hall. by right.
Qed.
End runtime_facts.

Section grid_facts.
Implicit Types (g : Mask).

Lemma is_grid_nonneg {A} (g : list (list A)) w h :
  is_grid g w h → 0 ≤ h ∧ (0 < h → 0 ≤ w).
Proof.
  intros [Hh Hrows]. unfold len in *. split; [lia|]. intros Hpos.
  destruct g as [|r g]; simpl in *; [lia|].
  apply Forall_cons in Hrows as [Hr _]. lia.
Qed.

Lemma grid_row {A} (g : list (list A)) w h y :
  is_grid g w h → 0 ≤ y < h →
  ∃ row, g !! Z.to_nat y = Some row ∧ len row = w.
Proof.
  intros [Hh Hrows] Hy. unfold len in Hh.
  destruct (lookup_lt_is_Some_2 g (Z.to_nat y)) as [row Hrow]; [lia|].
  exists row. split; [done|].
  by apply (Forall_lookup_1 _ _ _ _ Hrows Hrow).
Qed.

Lemma getitem2_get {A} (d : A) (g : list (list A)) w h x y :
  is_grid g w h → 0 ≤ x < w → 0 ≤ y < h →
  getitem2 g y x = Ok (grid_get d g x y).
Proof.
  intros Hg Hx Hy. destruct (grid_row g w h y Hg Hy) as (row & Hrow & Hlen).
  unfold getitem2. rewrite (getitem_ok g y row) by (done || lia). simpl.
  destruct (getitem_in_range row x) as (b & Hb & Hl); [lia|].
  rewrite Hb. f_equal. unfold grid_get.
  destruct (Z.leb_spec 0 x); [|lia]. destruct (Z.leb_spec 0 y); [|lia].
  simpl. rewrite Hrow. simpl. by rewrite Hl.
Qed.

Lemma grid_get_in_grid {A} (d : A) (g : list (list A)) w h x y :
  is_grid g w h → grid_get d g x y ≠ d → 0 ≤ x < w ∧ 0 ≤ y < h.
Proof.
  intros [Hh Hrows]. unfold grid_get.
  destruct (Z.leb_spec 0 x); [|done]. destruct (Z.leb_spec 0 y); [|done].
  simpl. destruct (g !! Z.to_nat y) as [row|] eqn:Hrow; [|done]. simpl.
  destruct (row !! Z.to_nat x) as [b|] eqn:Hb; [|done]. intros _.
  apply lookup_lt_Some in Hrow as Hy.
  apply lookup_lt_Some in Hb as Hx.
  pose proof (Forall_lookup_1 _ _ _ _ Hrows Hrow) as Hlen. simpl in Hlen.
  unfold len in *. lia.
Qed.

Lemma setitem2_get {A} (d : A) (g : list (list A)) w h x y v :
  is_grid g w h → 0 ≤ x < w → 0 ≤ y < h →
  ∃ g' : list (list A), setitem2 g y x v = Ok g' ∧ is_grid g' w h ∧
    ∀ x' y', grid_get d g' x' y' =
      if decide (x' = x ∧ y' = y) then v else grid_get d g x' y'.
Proof.
  intros Hg Hx Hy. destruct (grid_row g w h y Hg Hy) as (row & Hrow & Hlen).
  destruct Hg as [Hh Hrows].
  exists (<[Z.to_nat y := <[Z.to_nat x := v]> row]> g).
  unfold setitem2. rewrite (getitem_ok g y row) by (done || lia). simpl.
  rewrite setitem_ok by lia. simpl. rewrite setitem_ok by lia.
  split; [done|]. split.
  { split; [unfold len; by rewrite length_insert|].
    apply Forall_insert; [done|]. unfold len. rewrite length_insert.
    apply Hlen. }
  intros x' y'. unfold grid_get.
  destruct (Z.leb_spec 0 x'), (Z.leb_spec 0 y'); simpl;
    try (case_decide; [lia|done]).
  destruct (decide (y' = y)) as [->|Hne].
  - rewrite list_lookup_insert_eq by (unfold len in Hh; lia). rewrite Hrow.
    simpl. destruct (decide (x' = x)) as [->|Hnx].
    + rewrite list_lookup_insert_eq by (unfold len in Hlen; lia).
      by rewrite decide_True.
    + rewrite list_lookup_insert_ne by lia. by rewrite decide_False by lia.
  - rewrite list_lookup_insert_ne by lia. by rewrite decide_False by lia.
Qed.

(** Grids built by a nested comprehension over [range]. *)
Lemma is_grid_tabulate {A} (f : Z → Z → A) w h :
  0 ≤ h → (0 < h → 0 ≤ w) →
  is_grid ((λ y, (λ x, f x y) <$> range w) <$> range h) w h.
Proof.
  intros Hh Hw. split.
  - unfold len, range. rewrite length_fmap, length_seqZ. lia.
  - apply Forall_fmap, Forall_forall. intros y Hy. simpl.
    unfold range in Hy. apply elem_of_seqZ in Hy.
    unfold len, range. rewrite length_fmap, length_seqZ. lia.
Qed.

Lemma grid_get_tabulate {A} (d : A) (f : Z → Z → A) w h x y :
  0 ≤ x < w → 0 ≤ y < h →
  grid_get d ((λ y, (λ x, f x y) <$> range w) <$> range h) x y = f x y.
Proof.
  intros Hx Hy. unfold grid_get.
  destruct (Z.leb_spec 0 x); [|lia]. destruct (Z.leb_spec 0 y); [|lia].
  simpl. unfold range. rewrite list_lookup_fmap.
  rewrite lookup_seqZ_lt by lia. simpl. rewrite list_lookup_fmap.
  rewrite lookup_seqZ_lt by lia. simpl. f_equal; lia.
Qed.

Lemma getitem2_cell g w h x y :
  is_grid g w h → 0 ≤ x < w → 0 ≤ y < h →
  getitem2 g y x = Ok (cell g x y).
Proof. apply getitem2_get. Qed.

Lemma cell_true_in_grid g w h x y :
  is_grid g w h → cell g x y = true → 0 ≤ x < w ∧ 0 ≤ y < h.
Proof.
  intros Hg Hc. apply (grid_get_in_grid false g); [done|].
  unfold cell in Hc. by rewrite Hc.
Qed.

Lemma setitem2_grid g w h x y v :
  is_grid g w h → 0 ≤ x < w → 0 ≤ y < h →
  ∃ g', setitem2 g y x v = Ok g' ∧ is_grid g' w h ∧
    ∀ x' y', cell g' x' y' =
      if decide (x' = x ∧ y' = y) then v else cell g x' y'.
Proof. apply setitem2_get. Qed.

Lemma is_grid_blank (v : bool) sw sh :
  0 ≤ sh → (0 < sh → 0 ≤ sw) →
  is_grid ((λ _, repeat_list v sw) <$> range sh) sw sh.
Proof.
  intros Hsh Hsw. split.
  - unfold len, range. rewrite length_fmap, length_seqZ. lia.
  - apply Forall_fmap, Forall_forall. intros y Hy. simpl.
    unfold range in Hy. apply elem_of_seqZ in Hy.
    unfold len, repeat_list. rewrite length_replicate. lia.
Qed.

Lemma cell_blank (v : bool) sw sh x y :
  0 ≤ x < sw → 0 ≤ y < sh →
  cell ((λ _, repeat_list v sw) <$> range sh) x y = v.
Proof.
  intros Hx Hy. unfold cell, grid_get.
  destruct (Z.leb_spec 0 x); [|lia]. destruct (Z.leb_spec 0 y); [|lia].
  simpl. unfold range. rewrite list_lookup_fmap.
  rewrite lookup_seqZ_lt by lia. simpl. unfold repeat_list.
  rewrite lookup_replicate_2 by lia. done.
Qed.
End grid_facts.

(** ** Downscaler *)

Section downscale_facts.
Variables (mask : Mask) (w h tile : Z).
Hypothesis mask_grid : is_grid mask w h.
Hypothesis tile_pos : 1 ≤ tile.

Local Notation block := (block_value mask tile w h).

Lemma block_true sx sy :
  block sx sy = true ↔
  ∃ x y, in_block tile w h sx sy x y ∧ cell mask x y = true.
Proof.
  unfold block_value, in_block. rewrite existsb_exists. split.
  - intros ([y x] & Hin & Hc). exists x, y.
    apply list_elem_of_In, list_elem_of_bind in Hin as (y' & Hin & Hy).
    apply list_elem_of_bind in Hin as (x' & Hin & Hx).
    apply list_elem_of_singleton in Hin. simplify_eq.
    unfold range2 in *. apply elem_of_seqZ in Hx, Hy. split; [lia|done].
  - intros (x & y & [Hx Hy] & Hc). exists (y, x). split; [|done].
    apply list_elem_of_In, list_elem_of_bind. exists y. split.
    + apply list_elem_of_bind. exists x. split; [by left|].
      unfold range2. apply elem_of_seqZ. lia.
    + unfold range2. apply elem_of_seqZ. lia.
Qed.

Lemma block_any_ok sx sy :
  0 ≤ sx → 0 ≤ sy →
  block_any mask (sy * tile) (Z.min ((sy + 1) * tile) h)
    (sx * tile) (Z.min ((sx + 1) * tile) w) = Ok (block sx sy).
Proof.
  intros Hsx Hsy. unfold block_any, block_value. apply any_ok.
  intros [y x] Hin.
  apply list_elem_of_bind in Hin as (y' & Hin & Hy).
  apply list_elem_of_bind in Hin as (x' & Hin & Hx).
  apply list_elem_of_singleton in Hin. simplify_eq.
  unfold range2 in *. apply elem_of_seqZ in Hx, Hy.
  apply (getitem2_cell _ w h); [done|nia|nia].
Qed.

Lemma downscale_row_ok sw sh sy small :
  is_grid small sw sh → 0 ≤ sy < sh →
  ∃ small', downscale_row mask tile w h sw sy small = Ok small' ∧
    is_grid small' sw sh ∧
    (∀ sx, 0 ≤ sx < sw → cell small' sx sy = block sx sy) ∧
    (∀ x y, y ≠ sy → cell small' x y = cell small x y).
Proof.
  intros Hsmall Hsy. unfold downscale_row.
  destruct (for_invariant
    (λ done s, is_grid s sw sh ∧
       (∀ sx, sx ∈ done → cell s sx sy = block sx sy) ∧
       (∀ x y, y ≠ sy → cell s x y = cell small x y))
    (λ sx small0,
       b ← block_any mask (sy * tile) (Z.min ((sy + 1) * tile) h)
             (sx * tile) (Z.min ((sx + 1) * tile) w);
       setitem2 small0 sy sx b) (range sw) small)
    as (small' & Hrun & Hg & Hrow & Hother).
  - split; [done|]. split; [|done]. intros sx Hin. by apply elem_of_nil in Hin.
  - intros done sx rest s Hsplit (Hg & Hrow & Hother).
    assert (sx ∈ range sw) as Hsx by (rewrite Hsplit; apply elem_of_app; right; left).
    unfold range in Hsx. apply elem_of_seqZ in Hsx.
    rewrite block_any_ok by lia. simpl.
    destruct (setitem2_grid s sw sh sx sy (block sx sy) Hg)
      as (s' & -> & Hg' & Hcell); [lia|lia|].
    exists s'. split; [done|]. split; [done|]. split.
    + intros sx' Hin. rewrite Hcell. case_decide as Hd.
      * destruct Hd as [-> _]. done.
      * apply elem_of_app in Hin as [Hin|Hin]; [by apply Hrow|].
        apply list_elem_of_singleton in Hin. subst. lia.
    + intros x y Hy. rewrite Hcell. rewrite decide_False by lia.
      by apply Hother.
  - exists small'. split; [done|]. split; [done|]. split; [|done].
    intros sx Hsx. apply Hrow. unfold range. apply elem_of_seqZ. lia.
Qed.

Lemma downscale_loop_ok sw sh small :
  is_grid small sw sh →
  ∃ small', for_ (range sh) (downscale_row mask tile w h sw) small = Ok small' ∧
    is_grid small' sw sh ∧
    ∀ sx sy, 0 ≤ sx < sw → 0 ≤ sy < sh → cell small' sx sy = block sx sy.
Proof.
  intros Hsmall.
  destruct (for_invariant
    (λ done s, is_grid s sw sh ∧
       ∀ sx sy, 0 ≤ sx < sw → sy ∈ done → cell s sx sy = block sx sy)
    (downscale_row mask tile w h sw) (range sh) small)
    as (small' & Hrun & Hg & Hcells).
  - split; [done|]. intros sx sy _ Hin. by apply elem_of_nil in Hin.
  - intros done sy rest s Hsplit (Hg & Hcells).
    assert (sy ∈ range sh) as Hsy by (rewrite Hsplit; apply elem_of_app; right; left).
    assert (sy ∉ done) as Hfresh.
    { pose proof (NoDup_seqZ 0 sh) as Hnd. fold (range sh) in Hnd.
      rewrite Hsplit in Hnd. apply NoDup_app in Hnd as (_ & Hnd & _).
      intros Hin. apply (Hnd sy Hin). by left. }
    unfold range in Hsy. apply elem_of_seqZ in Hsy.
    destruct (downscale_row_ok sw sh sy s Hg)
      as (s' & -> & Hg' & Hrow & Hother); [lia|].
    exists s'. split; [done|]. split; [done|].
    intros sx sy' Hsx Hin. apply elem_of_app in Hin as [Hin|Hin].
    + rewrite Hother by (intros ->; done). by apply Hcells.
    + apply list_elem_of_singleton in Hin. subst. by apply Hrow.
  - exists small'. split; [done|]. split; [done|].
    intros sx sy Hsx Hsy. apply Hcells; [done|].
    unfold range. apply elem_of_seqZ. lia.
Qed.
End downscale_facts.

Lemma ceil_div_spec (a t : Z) : 1 ≤ t → is_ceil_div ((a + t - 1) `div` t) a t.
Proof.
  intros Ht. unfold is_ceil_div.
  pose proof (Z.div_mod (a + t - 1) t) as Hdm.
  pose proof (Z.mod_pos_bound (a + t - 1) t). nia.
Qed.

Lemma is_ceil_div_nonneg (n a t : Z) : 1 ≤ t → 0 ≤ a → is_ceil_div n a t → 0 ≤ n.
Proof. unfold is_ceil_div. nia. Qed.

(** [downscale_any] returns, with the dimensions and the cells of the
    coarse grid. *)
Lemma downscale_any_ok (mask : Mask) (w h tile : Z) :
  is_grid mask w h → (h = 0 → w = 0) → 1 ≤ tile →
  ∃ small sw sh,
    downscale_any mask tile = Ok (small, sw, sh) ∧
    is_ceil_div sw w tile ∧ is_ceil_div sh h tile ∧
    is_grid small sw sh ∧
    ∀ sx sy, 0 ≤ sx < sw → 0 ≤ sy < sh →
      (cell small sx sy = true ↔
         ∃ x y, in_block tile w h sx sy x y ∧ cell mask x y = true).
Proof.
  intros Hmask Hw Htile.
  pose proof (is_grid_nonneg _ _ _ Hmask) as [Hh0 Hw0].
  assert (0 ≤ w) as Hwnn by (destruct (decide (h = 0)); lia).
  set (sw := (w + tile - 1) `div` tile). set (sh := (h + tile - 1) `div` tile).
  pose proof (ceil_div_spec w tile Htile) as Hsw. fold sw in Hsw.
  pose proof (ceil_div_spec h tile Htile) as Hsh. fold sh in Hsh.
  pose proof (is_ceil_div_nonneg _ _ _ Htile Hwnn Hsw) as Hsw0.
  pose proof (is_ceil_div_nonneg _ _ _ Htile Hh0 Hsh) as Hsh0.
  destruct (downscale_loop_ok mask w h tile Hmask Htile sw sh
              ((λ _, repeat_list false sw) <$> range sh))
    as (small & Hrun & Hgrid & Hcells); [by apply is_grid_blank|].
  exists small, sw, sh. split.
  { unfold downscale_any. destruct Hmask as [Hlen Hrows]. rewrite Hlen.
    assert ((if h =? 0 then Ok 0 else row0 ← getitem mask 0; Ok (len row0))
            = Ok w) as ->.
    { destruct (Z.eqb_spec h 0) as [Hz|Hnz]; [by rewrite Hw|].
      destruct (grid_row mask w h 0) as (row0 & Hrow0 & Hl0); [done|lia|].
      rewrite (getitem_ok mask 0 row0) by done. simpl. by rewrite Hl0. }
    simpl. unfold floordiv. destruct (Z.eqb_spec tile 0); [lia|]. simpl.
    fold sw sh. by rewrite Hrun. }
  split; [done|]. split; [done|]. split; [done|].
  intros sx sy Hsx Hsy. rewrite (Hcells sx sy) by done. apply block_true.
Qed.

(** C4. For a rectangular mask of width [w] and height [h] (the width of
    an empty mask being 0, as the code reads it) and a tile size
    [tile >= 1], [downscale_any] returns a grid of exactly
    [sw = ceil(w/tile)] columns and [sh = ceil(h/tile)] rows; the cell
    [(sx, sy)] is true iff some pixel of its edge-clipped block is true
    in the mask, and false iff the whole block is false. *)
Theorem downscale_any_spec (mask : Mask) (w h tile : Z) :
  is_grid mask w h → (h = 0 → w = 0) → 1 ≤ tile →
  ∃ small sw sh,
    downscale_any mask tile = Ok (small, sw, sh) ∧
    is_ceil_div sw w tile ∧ is_ceil_div sh h tile ∧
    is_grid small sw sh ∧
    ∀ sx sy, 0 ≤ sx < sw → 0 ≤ sy < sh →
      (getitem2 small sy sx = Ok true ↔
         ∃ x y, in_block tile w h sx sy x y ∧ getitem2 mask y x = Ok true) ∧
      (getitem2 small sy sx = Ok false ↔
         ∀ x y, in_block tile w h sx sy x y → getitem2 mask y x = Ok false).
Proof.
  intros Hmask Hw Htile.
  destruct (downscale_any_ok mask w h tile Hmask Hw Htile)
    as (small & sw & sh & Hrun & Hsw & Hsh & Hgrid & Hcells).
  exists small, sw, sh. repeat (split; [done|]).
  intros sx sy Hsx Hsy.
  rewrite (getitem2_cell small sw sh) by done.
  assert (∀ x y, in_block tile w h sx sy x y →
            getitem2 mask y x = Ok (cell mask x y)) as Hread.
  { intros x y [Hx Hy]. apply (getitem2_cell mask w h); [done|nia|nia]. }
  specialize (Hcells sx sy Hsx Hsy). split.
  - split.
    + intros Hb. assert (cell small sx sy = true) as Hb' by congruence.
      apply Hcells in Hb' as (x & y & Hin & Hc).
      exists x, y. split; [done|]. rewrite (Hread x y Hin). by rewrite Hc.
    + intros (x & y & Hin & Hget). f_equal. apply Hcells.
      exists x, y. split; [done|]. rewrite (Hread x y Hin) in Hget. congruence.
  - split.
    + intros Hb x y Hin. rewrite (Hread x y Hin). f_equal.
      destruct (cell mask x y) eqn:Hc; [|done].
      assert (cell small sx sy = true) as Hb' by (apply Hcells; eauto).
      congruence.
    + intros Hall. f_equal. apply not_true_is_false. intros Hb.
      apply Hcells in Hb as (x & y & Hin & Hc).
      specialize (Hall x y Hin). rewrite (Hread x y Hin) in Hall. congruence.
Qed.

(** ** Loops over ranges *)

Lemma for_app {X S} (body : X → S → res S) (xs ys : list X) (s : S) :
  for_ (xs ++ ys) body s = (s' ← for_ xs body s; for_ ys body s').
Proof.
  revert s. induction xs as [|x xs IH]; intros s; simpl; [done|].
  destruct (body x s) as [s'|e]; simpl; [apply IH|done].
Qed.

Lemma for_range_invariant {St} (I : Z → St → Prop)
    (body : Z → St → res St) (n : Z) (s0 : St) :
  0 ≤ n → I 0 s0 →
  (∀ i s, 0 ≤ i < n → I i s → ∃ s', body i s = Ok s' ∧ I (i + 1) s') →
  ∃ s', for_ (range n) body s0 = Ok s' ∧ I n s'.
Proof.
  intros Hn H0 Hstep.
  cut (∀ k : nat, Z.of_nat k ≤ n →
         ∃ s', for_ (range (Z.of_nat k)) body s0 = Ok s' ∧ I (Z.of_nat k) s').
  { intros Hc. specialize (Hc (Z.to_nat n)). rewrite Z2Nat.id in Hc by done.
    apply Hc. lia. }
  induction k as [|k IH]; intros Hk.
  - exists s0. split; [done|]. apply H0.
  - destruct IH as (s & Hrun & HI); [lia|].
    destruct (Hstep (Z.of_nat k) s) as (s' & Hbody & HI'); [lia|done|].
    exists s'. unfold range in *. rewrite seqZ_S, for_app, Hrun. simpl.
    rewrite Z.add_0_l, Hbody. simpl. split; [done|].
    by replace (Z.of_nat (S k)) with (Z.of_nat k + 1) by lia.
Qed.

(** ** ComponentFinder *)

Lemma nbrs_eq :
  nbrs = [(-1, -1); (0, -1); (1, -1); (-1, 0); (1, 0); (-1, 1); (0, 1); (1, 1)].
Proof. reflexivity. Qed.

Lemma adjacent_nbrs (c c' : Cell) :
  adjacent c c' ↔ ∃ d, d ∈ nbrs ∧ c' = (c.1 + d.1, c.2 + d.2).
Proof.
  destruct c as [x y], c' as [x' y']. unfold adjacent. simpl. split.
  - intros Hd. exists (x' - x, y' - y). split.
    + assert (x' - x = -1 ∨ x' - x = 0 ∨ x' - x = 1) as Hx by lia.
      assert (y' - y = -1 ∨ y' - y = 0 ∨ y' - y = 1) as Hy by lia.
      rewrite nbrs_eq.
      destruct Hx as [Hx|[Hx|Hx]], Hy as [Hy|[Hy|Hy]]; rewrite Hx, Hy;
        try (rewrite Hx, Hy in Hd; simpl in Hd; lia);
        repeat (first [by left | right]).
    + simpl. f_equal; lia.
  - intros ([dx dy] & Hin & Heq). simpl in Heq. simplify_eq.
    rewrite nbrs_eq in Hin.
    repeat (apply elem_of_cons in Hin as [Hin|Hin]; [simplify_eq; lia|]).
    by apply elem_of_nil in Hin.
Qed.

Lemma adjacent_sym (c c' : Cell) : adjacent c c' → adjacent c' c.
Proof. unfold adjacent. lia. Qed.

Lemma occupied_in_grid small sw sh c :
  is_grid small sw sh → occupied small c → 0 ≤ c.1 < sw ∧ 0 ≤ c.2 < sh.
Proof. intros Hg Hc. by apply (cell_true_in_grid small). Qed.

Lemma elem_of_concat {A} (x : A) (ls : list (list A)) :
  x ∈ concat ls ↔ ∃ l, x ∈ l ∧ l ∈ ls.
Proof.
  rewrite list_elem_of_In, in_concat. split.
  - intros (l & Hl & Hx). exists l. by rewrite !list_elem_of_In.
  - intros (l & Hx & Hl). exists l. by rewrite <- !list_elem_of_In.
Qed.

Lemma length_bind_const {A B} (f : A → list B) (n : nat) (l : list A) :
  (∀ x, length (f x) = n) → length (l ≫= f) = (length l * n)%nat.
Proof.
  intros Hf. induction l as [|x l IH]; [done|].
  rewrite bind_cons, length_app, IH, Hf. simpl. lia.
Qed.

Section flood_facts.
Variables (small : Mask) (sw sh : Z).
Hypothesis small_grid : is_grid small sw sh.

Lemma mark_visited (vis : Mask) (c : Cell) :
  is_grid vis sw sh → 0 ≤ c.1 < sw → 0 ≤ c.2 < sh →
  ∃ vis', setitem2 vis c.2 c.1 true = Ok vis' ∧ is_grid vis' sw sh ∧
    ∀ c0, at_ vis' c0 = if decide (c0 = c) then true else at_ vis c0.
Proof.
  intros Hvis Hx Hy.
  destruct (setitem2_grid vis sw sh c.1 c.2 true Hvis Hx Hy)
    as (vis' & Hset & Hg & Hcell).
  exists vis'. split; [done|]. split; [done|].
  intros [x0 y0]. unfold at_. rewrite Hcell. destruct c as [x y]. simpl.
  repeat case_decide; naive_solver.
Qed.

(** One neighbour: either it is a fresh occupied cell, which is marked
    and enqueued, or nothing changes. *)
Lemma visit_nbr_spec (cx cy : Z) (d : Z * Z) (vis : Mask) (q : list Cell) :
  is_grid vis sw sh →
  let c' := (cx + d.1, cy + d.2) in
  ∃ vis' q', visit_nbr small sw sh cx cy d (vis, q) = Ok (vis', q') ∧
    is_grid vis' sw sh ∧
    ((occupied small c' ∧ at_ vis c' = false ∧ q' = q ++ [c'] ∧
      ∀ c, at_ vis' c = if decide (c = c') then true else at_ vis c) ∨
     ((¬ occupied small c' ∨ at_ vis c' = true) ∧ vis' = vis ∧ q' = q)).
Proof.
  intros Hvis c'. destruct d as [dx dy]. unfold visit_nbr. simpl in *.
  destruct (Z.leb_spec 0 (cx + dx)), (Z.ltb_spec (cx + dx) sw),
    (Z.leb_spec 0 (cy + dy)), (Z.ltb_spec (cy + dy) sh); simpl;
    try (exists vis, q; split; [done|]; split; [done|]; right;
         split; [|done]; left; intros Hocc;
         apply (occupied_in_grid _ sw sh) in Hocc; [simpl in Hocc; lia|done]).
  rewrite (getitem2_cell small sw sh) by done. simpl.
  destruct (cell small (cx + dx) (cy + dy)) eqn:Hocc.
  - rewrite (getitem2_cell vis sw sh) by done. simpl.
    destruct (cell vis (cx + dx) (cy + dy)) eqn:Hseen.
    + exists vis, q. split; [done|]. split; [done|]. right.
      split; [|done]. by right.
    + destruct (mark_visited vis c' Hvis) as (vis' & Hset & Hg & Hat);
        [simpl; lia..|].
      simpl in Hset. rewrite Hset. simpl.
      exists vis', (q ++ [c']). split; [done|]. split; [done|]. left. done.
  - exists vis, q. split; [done|]. split; [done|]. right.
    split; [|done]. left. unfold occupied, at_. simpl. by rewrite Hocc.
Qed.

Lemma bfs_inv_visit V0 seed vis cells cur q d P :
  d ∈ nbrs →
  bfs_inv small sw sh V0 seed vis (cells ++ cur :: q) P →
  ∃ vis' q', visit_nbr small sw sh cur.1 cur.2 d (vis, q) = Ok (vis', q') ∧
    bfs_inv small sw sh V0 seed vis' (cells ++ cur :: q') P ∧
    (∀ c, at_ vis c = true → at_ vis' c = true) ∧
    (occupied small (cur.1 + d.1, cur.2 + d.2) →
     at_ vis' (cur.1 + d.1, cur.2 + d.2) = true).
Proof.
  intros Hnbr Hinv.
  pose proof Hinv as (Hg & Hnd & (rest & Hseed) & Hvis & Hocc & Hreach & Hcl).
  destruct (visit_nbr_spec cur.1 cur.2 d vis q Hg)
    as (vis' & q' & Hrun & Hg' & Hcase).
  exists vis', q'. split; [done|].
  destruct Hcase as [(Hoc & Hun & -> & Hat)|(Hskip & -> & ->)].
  - set (c' := (cur.1 + d.1, cur.2 + d.2)) in *.
    assert (c' ∉ cells ++ cur :: q) as Hfresh.
    { intros Hin. assert (at_ vis c' = true) by (apply Hvis; by right).
      congruence. }
    replace (cells ++ cur :: q ++ [c']) with ((cells ++ cur :: q) ++ [c'])
      by (by rewrite <- app_assoc).
    split; [|split].
    + split; [done|]. split.
      { apply NoDup_app. split; [done|]. split.
        - intros c Hc Hc'. apply list_elem_of_singleton in Hc'. by subst.
        - apply NoDup_singleton. }
      split. { exists (rest ++ [c']). by rewrite Hseed. }
      split.
      { intros c. rewrite Hat, elem_of_app, list_elem_of_singleton.
        case_decide as Hd.
        - subst. naive_solver.
        - rewrite Hvis. naive_solver. }
      split.
      { intros c Hc. apply elem_of_app in Hc as [Hc|Hc]; [by apply Hocc|].
        apply list_elem_of_singleton in Hc. subst. split; [done|].
        destruct (at_ V0 c') eqn:HV0; [|done].
        assert (at_ vis c' = true) by (apply Hvis; by left). congruence. }
      split.
      { intros c Hc. apply elem_of_app in Hc as [Hc|Hc]; [by apply Hreach|].
        apply list_elem_of_singleton in Hc. subst.
        apply rtc_r with cur.
        - apply Hreach, elem_of_app. right. by left.
        - split; [|done]. apply adjacent_nbrs. by exists d. }
      intros c c0 HP Hadj Hoc0. rewrite Hat. case_decide; [done|].
      by apply (Hcl c).
    + intros c Hc. rewrite Hat. by case_decide.
    + intros _. rewrite Hat. by rewrite decide_True.
  - split; [done|]. split; [done|].
    intros Hoc. destruct Hskip; done.
Qed.

(** The whole [for dx, dy in nbrs] loop for the dequeued cell [cur]. *)
Lemma bfs_inv_nbrs V0 seed vis cells cur q :
  bfs_inv small sw sh V0 seed vis (cells ++ cur :: q) (λ c, c ∈ cells) →
  ∃ vis' q', for_ nbrs (visit_nbr small sw sh cur.1 cur.2) (vis, q)
               = Ok (vis', q') ∧
    bfs_inv small sw sh V0 seed vis' ((cells ++ [cur]) ++ q') (λ c, c ∈ cells ++ [cur]).
Proof.
  intros Hinv.
  destruct (for_invariant
    (λ done (st : Mask * list Cell),
       bfs_inv small sw sh V0 seed st.1 (cells ++ cur :: st.2) (λ c, c ∈ cells) ∧
       ∀ d, d ∈ done → occupied small (cur.1 + d.1, cur.2 + d.2) →
            at_ st.1 (cur.1 + d.1, cur.2 + d.2) = true)
    (visit_nbr small sw sh cur.1 cur.2) nbrs (vis, q))
    as ([vis' q'] & Hrun & Hinv' & Hdone).
  - split; [done|]. intros d Hd. by apply elem_of_nil in Hd.
  - intros done d rest [vis0 q0] Hsplit [Hinv0 Hdone0]. simpl in *.
    assert (d ∈ nbrs) as Hdin by (rewrite Hsplit; apply elem_of_app; right; left).
    destruct (bfs_inv_visit V0 seed vis0 cells cur q0 d _ Hdin Hinv0)
      as (vis1 & q1 & Hrun & Hinv1 & Hmono & Hd).
    exists (vis1, q1). split; [done|]. split; [done|]. simpl.
    intros d' Hd' Hoc. apply elem_of_app in Hd' as [Hd'|Hd'].
    + apply Hmono. by apply Hdone0.
    + apply list_elem_of_singleton in Hd'. subst. by apply Hd.
  - exists vis', q'. split; [done|]. simpl in *.
    destruct Hinv' as (Hg & Hnd & Hseed & Hvis & Hocc & Hreach & Hcl).
    rewrite <- app_assoc. simpl. repeat (split; [done|]).
    intros c c' Hc Hadj Hoc. apply elem_of_app in Hc as [Hc|Hc].
    + by apply (Hcl c).
    + apply list_elem_of_singleton in Hc. subst.
      apply adjacent_nbrs in Hadj as (d & Hd & ->). by apply Hdone.
Qed.

(** Pigeonhole: a duplicate-free list of grid cells is no longer than
    the grid is large. *)
Lemma grid_cells_bound (L : list Cell) :
  NoDup L → (∀ c, c ∈ L → 0 ≤ c.1 < sw ∧ 0 ≤ c.2 < sh) →
  len L ≤ sw * sh.
Proof.
  intros Hnd Hin.
  set (all := y ← seqZ 0 sh; x ← seqZ 0 sw; [(x, y)]).
  assert (length all = (Z.to_nat sh * Z.to_nat sw)%nat) as Hlen.
  { unfold all.
    rewrite (length_bind_const _ (Z.to_nat sw)), length_seqZ; [done|].
    intros y. rewrite (length_bind_const _ 1%nat), length_seqZ; [lia|done]. }
  assert (L ⊆+ all) as Hsub.
  { apply NoDup_submseteq; [done|]. intros [x y] Hc.
    destruct (Hin _ Hc) as [Hx Hy]. simpl in *.
    apply list_elem_of_bind. exists y. split; [|apply elem_of_seqZ; lia].
    apply list_elem_of_bind. exists x. split; [by left|].
    apply elem_of_seqZ; lia. }
  apply submseteq_length in Hsub. unfold len. rewrite Hlen in Hsub.
  destruct L as [|c L']; simpl in *.
  - pose proof (is_grid_nonneg _ _ _ small_grid) as [Hh Hw].
    destruct (decide (sh = 0)) as [->|]; [lia|]. assert (0 ≤ sw) by lia. nia.
  - destruct (Hin c) as [Hx Hy]; [by left|].
    rewrite <- (Z2Nat.id sw), <- (Z2Nat.id sh) by lia. nia.
Qed.

(** The [while q] loop: with enough fuel it terminates, and the
    invariant then holds with an empty queue. *)
Lemma bfs_ok V0 seed (fuel : nat) :
  ∀ vis q cells,
    bfs_inv small sw sh V0 seed vis (cells ++ q) (λ c, c ∈ cells) →
    sw * sh ≤ Z.of_nat fuel + len cells →
    ∃ vis' cells', bfs fuel small sw sh vis q cells = Ok (vis', cells') ∧
      bfs_inv small sw sh V0 seed vis' cells' (λ c, c ∈ cells').
Proof.
  induction fuel as [|fuel IH]; intros vis q cells Hinv Hfuel.
  - destruct q as [|cur q].
    + exists vis, cells. rewrite app_nil_r in Hinv. done.
    + exfalso. destruct Hinv as (_ & Hnd & _ & _ & Hocc & _ & _).
      pose proof (grid_cells_bound _ Hnd) as Hb. unfold len in *.
      rewrite length_app in Hb. simpl in Hb.
      assert (∀ c, c ∈ cells ++ cur :: q → 0 ≤ c.1 < sw ∧ 0 ≤ c.2 < sh).
      { intros c Hc. apply (occupied_in_grid small); [done|].
        by apply Hocc. }
      specialize (Hb H). lia.
  - destruct q as [|cur q].
    + exists vis, cells. rewrite app_nil_r in Hinv. done.
    + destruct (bfs_inv_nbrs V0 seed vis cells cur q Hinv)
        as (vis' & q' & Hrun & Hinv').
      destruct (IH vis' q' (cells ++ [cur]) Hinv')
        as (vis'' & cells' & Hbfs & Hfinal).
      { unfold len in *. rewrite length_app. simpl. lia. }
      exists vis'', cells'. split; [|done].
      destruct cur as [cx cy]. simpl in *. rewrite Hrun. simpl. done.
Qed.

Lemma component_ok_mono p p' K :
  (∀ c, rm_lt c p → rm_lt c p') → component_ok small p K → component_ok small p' K.
Proof.
  intros Hmono (Hcl & seed & rest & -> & Hlt & Hmin & Hreach).
  split; [done|]. exists seed, rest. eauto.
Qed.

Lemma rm_lt_next (c : Cell) x y :
  rm_lt c (x + 1, y) ↔ rm_lt c (x, y) ∨ c = (x, y).
Proof.
  destruct c as [cx cy]. unfold rm_lt. simpl. split.
  - intros [?|[? ?]]; [left; lia|].
    destruct (decide (cx = x)); [right; f_equal; lia|left; lia].
  - intros [?|?]; [lia|]. simplify_eq. lia.
Qed.

Lemma flood_inv_skip x y st :
  flood_inv small sw sh (x, y) st →
  (occupied small (x, y) → at_ st.1 (x, y) = true) →
  flood_inv small sw sh (x + 1, y) st.
Proof.
  intros (Hg & Hnd & Hvis & Hocc & Hscan & Hok & Hseeds) Hhere.
  repeat (split; [done|]). split; [|split; [|done]].
  - intros c Hc Hoc. apply rm_lt_next in Hc as [Hc| ->]; eauto.
  - intros K HK. apply (component_ok_mono (x, y)); [|by apply Hok].
    intros c Hc. apply rm_lt_next. by left.
Qed.

Lemma seeds_increasing_snoc comps K p seed rest :
  seeds_increasing comps →
  (∀ K', K' ∈ comps → component_ok small p K') →
  K = seed :: rest → (seed = p ∨ rm_lt p seed) →
  seeds_increasing (comps ++ [K]).
Proof.
  intros Hinc Hok -> Hseed i j Ki Kj Hi Hj Hij.
  destruct (decide (j < length comps)%nat) as [Hlt|Hge].
  - rewrite lookup_app_l in Hi, Hj by lia. by apply (Hinc i j).
  - assert (j = length comps) as ->.
    { apply lookup_lt_Some in Hj. rewrite length_app in Hj. simpl in Hj. lia. }
    rewrite lookup_app_l in Hi by lia.
    rewrite lookup_app_r, Nat.sub_diag in Hj by lia. simpl in Hj.
    simplify_eq.
    destruct (Hok Ki) as (_ & si & resti & -> & Hlt & _).
    { by apply list_elem_of_lookup_2 in Hi. }
    exists si, seed. split; [done|]. split; [done|].
    destruct Hseed as [->|Hp]; [done|].
    destruct si, p, seed. unfold rm_lt in *. simpl in *. lia.
Qed.

(** One cell of the scan. *)
Lemma scan_cell_ok (fuel : nat) x y st :
  sw * sh ≤ Z.of_nat fuel → 0 ≤ x < sw → 0 ≤ y < sh →
  flood_inv small sw sh (x, y) st →
  ∃ st', scan_cell fuel small sw sh y x st = Ok st' ∧ flood_inv small sw sh (x + 1, y) st'.
Proof.
  intros Hfuel Hx Hy Hinv. destruct st as [vis comps].
  pose proof Hinv as (Hg & Hnd & Hvis & Hocc & Hscan & Hok & Hseeds).
  simpl in *. unfold scan_cell.
  rewrite (getitem2_cell small sw sh) by done. simpl.
  destruct (cell small x y) eqn:Hsmall; simpl.
  2:{ exists (vis, comps). split; [done|]. apply flood_inv_skip; [done|].
      unfold occupied, at_. simpl. congruence. }
  rewrite (getitem2_cell vis sw sh) by done. simpl.
  destruct (cell vis x y) eqn:Hseen.
  { exists (vis, comps). split; [done|]. by apply flood_inv_skip. }
  destruct (mark_visited vis (x, y) Hg) as (vis1 & Hset & Hg1 & Hat1);
    [done..|].
  simpl in Hset. rewrite Hset. simpl.
  destruct (bfs_ok vis (x, y) fuel vis1 [(x, y)] []) as (vis2 & cells & Hbfs & Hfin).
  { split; [done|]. split; [apply NoDup_singleton|].
    split; [by exists []|]. split.
    { intros c. rewrite Hat1. simpl. rewrite list_elem_of_singleton.
      case_decide; naive_solver. }
    split.
    { intros c Hc. apply list_elem_of_singleton in Hc. subst. done. }
    split.
    { intros c Hc. apply list_elem_of_singleton in Hc. subst. apply rtc_refl. }
    intros c c' Hc. by apply elem_of_nil in Hc. }
  { unfold len. simpl. lia. }
  rewrite Hbfs. simpl. exists (vis2, comps ++ [cells]). split; [done|].
  destruct Hfin as (Hg2 & Hnd2 & (rest & ->) & Hvis2 & Hocc2 & Hreach2 & Hcl2).
  assert (∀ c, c ∈ (x, y) :: rest → c ∉ concat comps) as Hdisj.
  { intros c Hc Hold. apply Hvis in Hold.
    destruct (Hocc2 c Hc) as [_ HV0]. congruence. }
  assert (∀ c, c ∈ (x, y) :: rest → rm_le (x, y) c) as Hmin.
  { intros c Hc. destruct (Hocc2 c Hc) as [Hoc HV0].
    destruct (decide (rm_lt c (x, y))) as [Hlt|Hnlt].
    - rewrite (Hscan c Hlt Hoc) in HV0. done.
    - destruct c as [cx cy]. unfold rm_le, rm_lt in *. simpl in *.
      destruct (decide (cx = x ∧ cy = y)) as [[-> ->]|]; [by left|right; lia]. }
  unfold flood_inv. cbn [fst snd].
  rewrite concat_app. simpl concat. rewrite app_nil_r.
  split; [done|]. split.
  { apply NoDup_app. split; [done|]. split; [|done].
    intros c Hold Hnew. by apply (Hdisj c). }
  split.
  { intros c. rewrite Hvis2, elem_of_app, Hvis. done. }
  split.
  { intros c Hc. apply elem_of_app in Hc as [Hc|Hc]; [by apply Hocc|].
    by apply Hocc2. }
  split.
  { intros c Hc Hoc. apply Hvis2. apply rm_lt_next in Hc as [Hc| ->].
    - left. by apply Hscan.
    - right. by left. }
  split.
  - intros K HK. apply elem_of_app in HK as [HK|HK].
    + apply (component_ok_mono (x, y)); [|by apply Hok].
      intros c Hc. apply rm_lt_next. by left.
    + apply list_elem_of_singleton in HK. subst. split.
      * intros c c' Hc Hadj Hoc'.
        assert (at_ vis2 c' = true) as Hv by (by apply (Hcl2 c)).
        apply Hvis2 in Hv as [Hold|Hnew]; [|done]. exfalso.
        apply Hvis, elem_of_concat in Hold as (K' & HcK' & HK').
        destruct (Hok K' HK') as (Hclosed & _).
        assert (c ∈ K') as HcK.
        { apply (Hclosed c' c); [done|by apply adjacent_sym|].
          by apply Hocc2. }
        apply (Hdisj c Hc). apply elem_of_concat. eauto.
      * exists (x, y), rest. split; [done|]. split; [|done].
        apply rm_lt_next. by right.
  - eapply seeds_increasing_snoc; [done|exact Hok|done|by left].
Qed.

Lemma at_blank_false (c : Cell) :
  at_ ((λ _, repeat_list false sw) <$> range sh) c = false.
Proof.
  pose proof (is_grid_nonneg _ _ _ small_grid) as [Hh Hw].
  destruct (at_ _ c) eqn:Hc; [|done].
  apply (cell_true_in_grid _ sw sh) in Hc as Hin; [|by apply is_grid_blank].
  unfold at_ in Hc. rewrite cell_blank in Hc by lia. done.
Qed.

(** The two nested [for] loops of the scan. *)
Lemma flood_scan_ok (fuel : nat) :
  sw * sh ≤ Z.of_nat fuel →
  ∃ st, for_ (range sh) (λ y st,
          for_ (range sw) (scan_cell fuel small sw sh y) st)
          ((λ _, repeat_list false sw) <$> range sh, []) = Ok st ∧
    flood_inv small sw sh (0, sh) st.
Proof.
  intros Hfuel. pose proof (is_grid_nonneg _ _ _ small_grid) as [Hh Hw].
  apply (for_range_invariant (λ y st, flood_inv small sw sh (0, y) st)); [done|..].
  - split; [by apply is_grid_blank|]. simpl.
    split; [apply NoDup_nil_2|]. split.
    { intros c. rewrite at_blank_false. split; [done|].
      intros Hc. by apply elem_of_nil in Hc. }
    split. { intros c Hc. by apply elem_of_nil in Hc. }
    split.
    { intros [cx cy] [Hc|[_ Hc]] Hoc; simpl in *;
        apply (occupied_in_grid small sw sh) in Hoc; simpl in *;
        done || lia. }
    split. { intros K HK. by apply elem_of_nil in HK. }
    intros i j Ki Kj Hi. done.
  - intros y st Hy Hinv.
    destruct (for_range_invariant (λ x st, flood_inv small sw sh (x, y) st)
                (scan_cell fuel small sw sh y) sw st)
      as (st' & Hrun & Hinv'); [lia|done|..].
    { intros x st0 Hx Hinv0. by apply scan_cell_ok. }
    exists st'. split; [done|].
    destruct Hinv' as (Hg & Hnd & Hvis & Hocc & Hscan & Hok & Hseeds).
    repeat (split; [done|]). split; [|split; [|done]].
    + intros [cx cy] Hc Hoc. apply Hscan; [|done].
      apply (occupied_in_grid small sw sh) in Hoc; [|done].
      unfold rm_lt in *. simpl in *. lia.
    + intros K HK. apply (component_ok_mono (sw, y)); [|by apply Hok].
      intros [cx cy]. unfold rm_lt. simpl. lia.
Qed.
End flood_facts.

(** The facts about [flood_components_8] from which the claims follow:
    with fuel for every cell of the grid it returns; its components are
    pairwise disjoint, duplicate-free and cover exactly the occupied
    cells; each is closed under occupied neighbours, starts with its
    row-major least cell and is connected to it; and the first cells
    increase along the result. *)
Lemma flood_components_8_ok (small : Mask) (sw sh : Z) (fuel : nat) :
  is_grid small sw sh → sw * sh ≤ Z.of_nat fuel →
  ∃ comps, flood_components_8 fuel small = Ok comps ∧
    NoDup (concat comps) ∧
    (∀ c, c ∈ concat comps ↔ occupied small c) ∧
    (∀ K, K ∈ comps → component_ok small (0, sh) K) ∧
    seeds_increasing comps.
Proof.
  intros Hg Hfuel.
  set (sw' := if sh =? 0 then 0 else sw).
  assert (is_grid small sw' sh) as Hg'.
  { unfold sw'. destruct (Z.eqb_spec sh 0) as [->|]; [|done].
    destruct Hg as [Hlen _]. destruct small; [|done]. split; [done|].
    apply Forall_nil_2. }
  assert (sw' * sh ≤ Z.of_nat fuel) as Hfuel'.
  { unfold sw'. destruct (Z.eqb_spec sh 0); [lia|done]. }
  destruct (flood_scan_ok small sw' sh Hg' fuel Hfuel')
    as ([vis comps] & Hrun & Hinv).
  exists comps. split.
  { unfold flood_components_8. destruct Hg as [Hlen Hrows]. rewrite Hlen.
    assert ((if sh =? 0 then Ok 0 else row0 ← getitem small 0; Ok (len row0))
            = Ok sw') as ->.
    { unfold sw'. destruct (Z.eqb_spec sh 0) as [Hz|Hnz]; [done|].
      destruct (grid_row small sw sh 0) as (row0 & Hrow0 & Hl0);
        [done|unfold len in Hlen; lia|].
      rewrite (getitem_ok small 0 row0) by done. simpl. by rewrite Hl0. }
    simpl. by rewrite Hrun. }
  destruct Hinv as (_ & Hnd & Hvis & Hocc & Hscan & Hok & Hseeds).
  simpl in *. split; [done|]. split; [|done].
  intros c. split; [apply Hocc|]. intros Hoc. apply Hvis, Hscan; [|done].
  apply (occupied_in_grid small sw' sh) in Hoc; [|done].
  destruct c. unfold rm_lt. simpl in *. lia.
Qed.

Lemma NoDup_concat_inv {A} (ls : list (list A)) :
  NoDup (concat ls) →
  (∀ l, l ∈ ls → NoDup l) ∧
  (∀ (i j : nat) li lj x, ls !! i = Some li → ls !! j = Some lj →
     x ∈ li → x ∈ lj → i = j).
Proof.
  induction ls as [|l ls IH]; simpl; intros Hnd.
  - split; [intros l Hl; by apply elem_of_nil in Hl|done].
  - apply NoDup_app in Hnd as (Hl & Hdisj & Hrest).
    destruct (IH Hrest) as [IH1 IH2]. split.
    + intros l' Hl'. apply elem_of_cons in Hl' as [->|Hl']; eauto.
    + intros i j li lj x Hi Hj Hxi Hxj.
      destruct i as [|i], j as [|j]; simpl in *; simplify_eq; [done|..].
      * exfalso. apply (Hdisj x Hxi). apply elem_of_concat.
        exists lj. split; [done|]. by apply list_elem_of_lookup_2 in Hj.
      * exfalso. apply (Hdisj x Hxj). apply elem_of_concat.
        exists li. split; [done|]. by apply list_elem_of_lookup_2 in Hi.
      * f_equal. by apply (IH2 i j li lj x).
Qed.

(** C2. On every rectangular coarse grid, with fuel for each of its
    cells, [flood_components_8] returns a list of components that
    partitions the occupied cells: every occupied cell lies in exactly
    one component, the union of the components is the set of occupied
    cells, no component holds an unoccupied cell, and no cell occurs
    twice in a component. *)
Theorem flood_components_8_partition (small : Mask) (sw sh : Z) (fuel : nat) :
  is_grid small sw sh → sw * sh ≤ Z.of_nat fuel →
  ∃ comps, flood_components_8 fuel small = Ok comps ∧
    (∀ c, occupied small c →
       ∃ (i : nat) K, comps !! i = Some K ∧ c ∈ K ∧
         ∀ (j : nat) K', comps !! j = Some K' → c ∈ K' → j = i) ∧
    (∀ c, c ∈ concat comps ↔ occupied small c) ∧
    (∀ K c, K ∈ comps → c ∈ K → occupied small c) ∧
    (∀ K, K ∈ comps → NoDup K).
Proof.
  intros Hg Hfuel.
  destruct (flood_components_8_ok small sw sh fuel Hg Hfuel)
    as (comps & Hrun & Hnd & Hcover & _ & _).
  destruct (NoDup_concat_inv comps Hnd) as [Hnd1 Hnd2].
  exists comps. split; [done|]. split; [|split; [done|split; [|done]]].
  - intros c Hoc. apply Hcover, elem_of_concat in Hoc as (K & HcK & HK).
    apply list_elem_of_lookup in HK as [i Hi].
    exists i, K. split; [done|]. split; [done|].
    intros j K' Hj HcK'. by apply (Hnd2 j i K' K c).
  - intros K c HK Hc. apply Hcover, elem_of_concat. eauto.
Qed.

(** C3. Two occupied cells at Chebyshev distance 1, diagonals included,
    are always placed in the same component; and on Scenario A (a 4x4
    sheet with foreground pixels (0,0) and (3,3) only, tile 2) the coarse
    grid is 2x2 with cells (0,0) and (1,1) occupied, and exactly one
    component, holding both, is returned. *)
Theorem flood_components_8_adjacent (small : Mask) (sw sh : Z) (fuel : nat) :
  is_grid small sw sh → sw * sh ≤ Z.of_nat fuel →
  (∃ comps, flood_components_8 fuel small = Ok comps ∧
     ∀ c c', occupied small c → occupied small c' → adjacent c c' →
       ∃ K, K ∈ comps ∧ c ∈ K ∧ c' ∈ K) ∧
  (downscale_any scenario_A_mask 2 = Ok (scenario_A_grid, 2, 2) ∧
   (∀ c, occupied scenario_A_grid c ↔ c = (0, 0) ∨ c = (1, 1)) ∧
   ∀ fuel' : nat, (4 ≤ fuel')%nat →
     flood_components_8 fuel' scenario_A_grid = Ok [[(0, 0); (1, 1)]]).
Proof.
  intros Hg Hfuel. split.
  - destruct (flood_components_8_ok small sw sh fuel Hg Hfuel)
      as (comps & Hrun & _ & Hcover & Hok & _).
    exists comps. split; [done|]. intros c c' Hoc Hoc' Hadj.
    apply Hcover, elem_of_concat in Hoc as (K & HcK & HK).
    exists K. split; [done|]. split; [done|].
    destruct (Hok K HK) as [Hclosed _]. by apply (Hclosed c c').
  - split; [reflexivity|]. split.
    + intros [x y]. split.
      * intros Hoc.
        apply (occupied_in_grid scenario_A_grid 2 2) in Hoc as Hin;
          [|split; [done|by repeat constructor]].
        simpl in Hin.
        assert (x = 0 ∨ x = 1) as [-> | ->] by lia;
          assert (y = 0 ∨ y = 1) as [-> | ->] by lia;
          first [by left | by right | by vm_compute in Hoc].
      * intros [?|?]; simplify_eq; reflexivity.
    + intros fuel' Hf. do 4 (destruct fuel' as [|fuel']; [lia|]). reflexivity.
Qed.

Lemma rm_lt_irrefl (c : Cell) : ¬ rm_lt c c.
Proof. unfold rm_lt. lia. Qed.

Lemma rm_lt_asym (c c' : Cell) : rm_lt c c' → ¬ rm_lt c' c.
Proof. unfold rm_lt. lia. Qed.

Lemma is_seed_unique (K : list Cell) (s s' : Cell) :
  is_seed K s → is_seed K s' → s = s'.
Proof.
  intros [Hin Hmin] [Hin' Hmin'].
  destruct (Hmin s' Hin') as [?|Hlt]; [done|].
  destruct (Hmin' s Hin) as [?|Hlt']; [done|].
  by destruct (rm_lt_asym _ _ Hlt).
Qed.

Lemma reachable_occupied (small : Mask) (c c' : Cell) :
  occupied small c → reachable small c c' → occupied small c'.
Proof.
  intros Hoc Hreach. induction Hreach as [|a b c' [_ Hb] _ IH]; [done|].
  by apply IH.
Qed.

(** Scenario B: the same sheet with tile 1; the two pixels are not
    adjacent and give two one-cell components, in scan order. *)
Lemma flood_components_8_scenario_B :
  downscale_any scenario_A_mask 1 = Ok (scenario_A_mask, 4, 4) ∧
  flood_components_8 16 scenario_A_mask = Ok [[(0, 0)]; [(3, 3)]].
Proof. split; reflexivity. Qed.

(** C6. The components are appended in the row-major order of their
    seeds: every component starts with its seed, which is its top-most,
    then left-most cell, and one component comes before another in the
    result exactly when its seed is row-major before the other's. An
    isolated occupied cell yields the one-cell component made of it. *)
Theorem flood_components_8_discovery_order
    (small : Mask) (sw sh : Z) (fuel : nat) :
  is_grid small sw sh → sw * sh ≤ Z.of_nat fuel →
  ∃ comps, flood_components_8 fuel small = Ok comps ∧
    (∀ K, K ∈ comps → ∃ s, head K = Some s ∧ is_seed K s) ∧
    (∀ (i j : nat) Ki Kj si sj,
       comps !! i = Some Ki → comps !! j = Some Kj →
       is_seed Ki si → is_seed Kj sj →
       ((i < j)%nat ↔ rm_lt si sj)) ∧
    (∀ c, occupied small c →
       (∀ c', adjacent c c' → ¬ occupied small c') → [c] ∈ comps).
Proof.
  intros Hg Hfuel.
  destruct (flood_components_8_ok small sw sh fuel Hg Hfuel)
    as (comps & Hrun & Hnd & Hcover & Hok & Hseeds).
  assert (∀ K, K ∈ comps → ∃ s, head K = Some s ∧ is_seed K s) as Hhead.
  { intros K HK. destruct (Hok K HK) as (_ & s & rest & -> & _ & Hmin & _).
    exists s. split; [done|]. split; [by left|done]. }
  assert (∀ (i j : nat) Ki Kj si sj,
            comps !! i = Some Ki → comps !! j = Some Kj →
            is_seed Ki si → is_seed Kj sj → (i < j)%nat → rm_lt si sj) as Hlt.
  { intros i j Ki Kj si sj Hi Hj Hsi Hsj Hij.
    destruct (Hseeds i j Ki Kj Hi Hj Hij) as (si' & sj' & Hhi & Hhj & Hlt).
    destruct (Hhead Ki) as (s1 & Hh1 & Hs1);
      [by apply list_elem_of_lookup_2 in Hi|].
    destruct (Hhead Kj) as (s2 & Hh2 & Hs2);
      [by apply list_elem_of_lookup_2 in Hj|].
    rewrite (is_seed_unique Ki si s1), (is_seed_unique Kj sj s2) by done.
    rewrite Hh1 in Hhi. rewrite Hh2 in Hhj. by simplify_eq. }
  exists comps. split; [done|]. split; [done|]. split.
  - intros i j Ki Kj si sj Hi Hj Hsi Hsj. split; [by apply (Hlt i j Ki Kj)|].
    intros Hrm. destruct (lt_eq_lt_dec i j) as [[?| ->]|Hji]; [done|..].
    + simplify_eq. rewrite (is_seed_unique Ki si sj) in Hrm by done.
      by destruct (rm_lt_irrefl sj).
    + destruct (rm_lt_asym _ _ Hrm). by apply (Hlt j i Kj Ki).
  - intros c Hoc Hiso.
    apply Hcover, elem_of_concat in Hoc as Hin. destruct Hin as (K & HcK & HK).
    destruct (NoDup_concat_inv comps Hnd) as [Hnd1 _].
    destruct (Hok K HK) as (_ & s & rest & -> & _ & _ & Hreach).
    assert (s = c) as ->.
    { destruct (decide (s = c)) as [|Hne]; [done|]. exfalso.
      pose proof (Hreach c HcK) as Hr.
      apply rtc_inv_r in Hr as [?|(b & Hsb & [Hadj _])]; [done|].
      apply (Hiso b); [by apply adjacent_sym|].
      apply (reachable_occupied small s); [|done].
      apply Hcover, elem_of_concat. exists (s :: rest). split; [by left|done]. }
    assert (∀ c', c' ∈ rest → c' = c) as Hall.
    { intros c' Hc'. assert (reachable small c c') as Hr.
      { apply Hreach. by right. }
      apply rtc_inv in Hr as [?|(b & [Hadj Hb] & _)]; [done|].
      by destruct (Hiso b). }
    specialize (Hnd1 _ HK). apply NoDup_cons in Hnd1 as [Hnotin _].
    destruct rest as [|c' rest]; [done|]. exfalso. apply Hnotin.
    rewrite <- (Hall c') at 1 by left. by left.
Qed.

(** ** ComponentSorter *)

Lemma mapM_ok {A B} (f : A → res B) (g : A → B) (l : list A) :
  (∀ a, a ∈ l → f a = Ok (g a)) → mapM f l = Ok (g <$> l).
Proof.
  induction l as [|a l IH]; intros Hf; [done|].
  simpl. rewrite (Hf a) by left. simpl.
  rewrite IH; [done|]. intros b Hb. apply Hf. by right.
Qed.

Section sort_facts.
Context {A K : Type} `{EqDecision K} (ltb : K → K → bool).
Hypothesis ltb_asym : ∀ a b, ltb a b = true → ltb b a = false.
Hypothesis leb_trans :
  ∀ a b c, ltb b a = false → ltb c b = false → ltb c a = false.

Implicit Types (x : K * A) (l : list (K * A)).

Lemma insert_by_key_perm x l : insert_by_key ltb x l ≡ₚ x :: l.
Proof.
  induction l as [|y l IH]; simpl; [done|].
  destruct (ltb y.1 x.1); [|done]. rewrite IH. apply perm_swap.
Qed.

Lemma insert_by_key_sorted x l :
  StronglySorted (λ e e', ltb e'.1 e.1 = false) l →
  StronglySorted (λ e e', ltb e'.1 e.1 = false) (insert_by_key ltb x l).
Proof.
  induction 1 as [|y l Hl IH Hy]; simpl.
  - repeat constructor.
  - destruct (ltb y.1 x.1) eqn:Hyx.
    + constructor; [done|]. rewrite insert_by_key_perm.
      constructor; [by apply ltb_asym|done].
    + constructor; [by constructor|]. constructor; [done|].
      eapply Forall_impl; [exact Hy|]. intros z Hz. simpl in *.
      by apply (leb_trans _ y.1).
Qed.

(** Stability: an element never moves past one with an equal key. *)
Lemma insert_by_key_filter (k : K) x l :
  filter (λ e, e.1 = k) (insert_by_key ltb x l) = filter (λ e, e.1 = k) (x :: l).
Proof.
  induction l as [|y l IH]; simpl; [done|].
  destruct (ltb y.1 x.1) eqn:Hyx; [|done].
  rewrite (filter_cons _ y), IH, !(filter_cons _ x), !(filter_cons _ y).
  repeat case_decide; try done.
  assert (ltb y.1 y.1 = false) as Hirr.
  { destruct (ltb y.1 y.1) eqn:Hyy; [|done].
    pose proof (ltb_asym _ _ Hyy). congruence. }
  congruence.
Qed.

Lemma sort_decorated_perm l : sort_decorated ltb l ≡ₚ l.
Proof.
  induction l as [|x l IH]; simpl; [done|].
  by rewrite insert_by_key_perm, IH.
Qed.

Lemma sort_decorated_sorted l :
  StronglySorted (λ e e', ltb e'.1 e.1 = false) (sort_decorated ltb l).
Proof.
  induction l as [|x l IH]; simpl; [constructor|].
  by apply insert_by_key_sorted.
Qed.

Lemma sort_decorated_filter (k : K) l :
  filter (λ e, e.1 = k) (sort_decorated ltb l) = filter (λ e, e.1 = k) l.
Proof.
  induction l as [|x l IH]; simpl; [done|].
  by rewrite insert_by_key_filter, !(filter_cons _ x), IH.
Qed.

Lemma filter_decorated (kf : A → K) (k : K) l :
  Forall (λ e, e.1 = kf e.2) l →
  filter (λ a, kf a = k) l.*2 = (filter (λ e, e.1 = k) l).*2.
Proof.
  induction 1 as [|x l Hx _ IH]; [done|].
  rewrite fmap_cons, !filter_cons, IH, Hx.
  by case_decide.
Qed.

Lemma sorted_decorated_snd (kf : A → K) l :
  Forall (λ e, e.1 = kf e.2) l →
  StronglySorted (λ e e', ltb e'.1 e.1 = false) l →
  StronglySorted (λ a b, ltb (kf b) (kf a) = false) l.*2.
Proof.
  intros Hdec Hs. induction Hs as [|e l Hs IH He]; simpl; [constructor|].
  apply Forall_cons in Hdec as [Hek Hdec].
  constructor; [by apply IH|].
  apply Forall_fmap, Forall_forall. intros e' He'.
  rewrite Forall_forall in He, Hdec. simpl.
  rewrite <- Hek, <- (Hdec e' He'). by apply He.
Qed.

(** [sorted(l, key=...)] for a key that does not raise on [l]: the
    result is a permutation of [l], ascending in the key, and elements
    with equal keys keep their relative order. *)
Lemma sorted_spec (key : A → res K) (kf : A → K) (l : list A) :
  (∀ a, a ∈ l → key a = Ok (kf a)) →
  ∃ out, sorted_ ltb key l = Ok out ∧
    out ≡ₚ l ∧
    StronglySorted (λ a b, ltb (kf b) (kf a) = false) out ∧
    ∀ k, filter (λ a, kf a = k) out = filter (λ a, kf a = k) l.
Proof.
  intros Hkey. unfold sorted_. rewrite (mapM_ok key kf) by done. simpl.
  set (dec := zip (kf <$> l) l).
  assert (dec.*2 = l) as Hsnd.
  { unfold dec. apply snd_zip. by rewrite length_fmap. }
  assert (Forall (λ e, e.1 = kf e.2) dec) as Hdec.
  { unfold dec. clear. induction l as [|a l IH]; simpl; by constructor. }
  assert (Forall (λ e, e.1 = kf e.2) (sort_decorated ltb dec)) as Hdec'.
  { by rewrite sort_decorated_perm. }
  eexists. split; [done|]. split; [|split].
  - by rewrite sort_decorated_perm, Hsnd.
  - apply sorted_decorated_snd; [done|apply sort_decorated_sorted].
  - intros k. rewrite (filter_decorated kf) by done.
    rewrite sort_decorated_filter, <- (filter_decorated kf) by done.
    by rewrite Hsnd.
Qed.
End sort_facts.

Lemma StronglySorted_mono {A} (R1 R2 : A → A → Prop) (l : list A) :
  (∀ x y, R1 x y → R2 x y) → StronglySorted R1 l → StronglySorted R2 l.
Proof.
  intros HR. induction 1 as [|x l Hs IH Hx]; constructor; [done|].
  eapply Forall_impl; [exact Hx|]. intros y. apply HR.
Qed.

Lemma min_spec (l : list Z) : l ≠ [] → ∃ m, min_ l = Ok m ∧ is_min m l.
Proof.
  destruct l as [|x l]; [done|]. intros _. simpl. eexists. split; [done|].
  revert x. induction l as [|y l IH]; intros x; simpl.
  - split; [by left|]. intros z Hz. apply list_elem_of_singleton in Hz. lia.
  - destruct (IH (Z.min x y)) as [Hin Hle]. split.
    + apply elem_of_cons in Hin as [Hin|Hin]; [|by do 2 right].
      rewrite Hin. destruct (Z.min_spec x y) as [[_ ->]|[_ ->]];
        [by left|right; by left].
    + intros z Hz. assert (foldl Z.min (Z.min x y) l ≤ Z.min x y) by (apply Hle; by left).
      apply elem_of_cons in Hz as [->|Hz]; [lia|].
      apply elem_of_cons in Hz as [->|Hz]; [lia|]. apply Hle. by right.
Qed.

Lemma max_spec (l : list Z) : l ≠ [] → ∃ m, max_ l = Ok m ∧ is_max m l.
Proof.
  destruct l as [|x l]; [done|]. intros _. simpl. eexists. split; [done|].
  revert x. induction l as [|y l IH]; intros x; simpl.
  - split; [by left|]. intros z Hz. apply list_elem_of_singleton in Hz. lia.
  - destruct (IH (Z.max x y)) as [Hin Hle]. split.
    + apply elem_of_cons in Hin as [Hin|Hin]; [|by do 2 right].
      rewrite Hin. destruct (Z.max_spec x y) as [[_ ->]|[_ ->]];
        [right; by left|by left].
    + intros z Hz. assert (Z.max x y ≤ foldl Z.max (Z.max x y) l) by (apply Hle; by left).
      apply elem_of_cons in Hz as [->|Hz]; [lia|].
      apply elem_of_cons in Hz as [->|Hz]; [lia|]. apply Hle. by right.
Qed.

Lemma bbox_key_spec (K : list Cell) :
  K ≠ [] →
  ∃ miny minx maxy maxx, bbox_key K = Ok (miny, minx, maxy, maxx) ∧
    is_min miny K.*2 ∧ is_min minx K.*1 ∧ is_max maxy K.*2 ∧ is_max maxx K.*1.
Proof.
  intros HK. unfold bbox_key.
  assert (K.*1 ≠ []) as H1 by (by destruct K).
  assert (K.*2 ≠ []) as H2 by (by destruct K).
  destruct (min_spec _ H2) as (miny & -> & ?), (min_spec _ H1) as (minx & -> & ?),
    (max_spec _ H2) as (maxy & -> & ?), (max_spec _ H1) as (maxx & -> & ?).
  simpl. by exists miny, minx, maxy, maxx.
Qed.

Lemma tuple4_ltb_le (a b : Z * Z * Z * Z) :
  tuple4_ltb b a = false ↔ tuple4_le a b.
Proof.
  destruct a as [[[a1 a2] a3] a4], b as [[[b1 b2] b3] b4].
  unfold tuple4_ltb, tuple4_le.
  destruct (Z.eqb_spec b1 a1), (Z.eqb_spec b2 a2), (Z.eqb_spec b3 a3);
    rewrite Z.ltb_ge; lia.
Qed.

Lemma tuple4_ltb_lt (a b : Z * Z * Z * Z) :
  tuple4_ltb a b = true ↔ tuple4_le a b ∧ a ≠ b.
Proof.
  destruct a as [[[a1 a2] a3] a4], b as [[[b1 b2] b3] b4].
  unfold tuple4_ltb, tuple4_le.
  destruct (Z.eqb_spec a1 b1), (Z.eqb_spec a2 b2), (Z.eqb_spec a3 b3);
    rewrite Z.ltb_lt; (split; [intros ?; split; [lia|intros [= ]; lia]|]);
    intros [? Hne]; try lia.
  destruct (decide (a4 = b4)); [|lia]. subst. done.
Qed.

Lemma sort_topleft_ok (comps : list (list Cell)) :
  Forall (λ K, K ≠ []) comps →
  ∃ out, sort_components comps "topleft" = Ok out ∧ out ≡ₚ comps ∧
    StronglySorted (λ K K', ∃ k k',
      bbox_key K = Ok k ∧ bbox_key K' = Ok k' ∧ tuple4_le k k') out ∧
    ∀ K, K ∈ out → ∃ miny minx maxy maxx,
      bbox_key K = Ok (miny, minx, maxy, maxx) ∧
      is_min miny K.*2 ∧ is_min minx K.*1 ∧
      is_max maxy K.*2 ∧ is_max maxx K.*1.
Proof.
  intros Hne.
  set (kf := λ K, match bbox_key K with Ok k => k | Raise _ => (0, 0, 0, 0) end).
  assert (∀ a b, tuple4_ltb a b = true → tuple4_ltb b a = false) as Hasym.
  { intros a b Hab. apply tuple4_ltb_lt in Hab as [Hle Hneq].
    apply not_true_is_false. intros Hba.
    apply tuple4_ltb_lt in Hba as [Hle' _].
    destruct a as [[[a1 a2] a3] a4], b as [[[b1 b2] b3] b4].
    unfold tuple4_le in *. apply Hneq. repeat f_equal; lia. }
  assert (∀ a b c, tuple4_ltb b a = false → tuple4_ltb c b = false →
            tuple4_ltb c a = false) as Htrans.
  { intros a b c. rewrite !tuple4_ltb_le.
    destruct a as [[[a1 a2] a3] a4], b as [[[b1 b2] b3] b4],
      c as [[[c1 c2] c3] c4]. unfold tuple4_le. lia. }
  assert (∀ K, K ∈ comps → bbox_key K = Ok (kf K)) as Hkey.
  { intros K HK. rewrite Forall_forall in Hne.
    destruct (bbox_key_spec K (Hne K HK)) as (? & ? & ? & ? & HKey & _).
    unfold kf. by rewrite HKey. }
  destruct (sorted_spec tuple4_ltb Hasym Htrans bbox_key kf comps Hkey)
    as (out & Hrun & Hperm & Hsorted & _).
  assert (∀ K, K ∈ out → K ≠ []) as Hne'.
  { intros K HK. rewrite Forall_forall in Hne. apply Hne. by rewrite <- Hperm. }
  exists out. split; [done|]. split; [done|]. split.
  + assert (Forall (λ K, K ≠ []) out) as Hall by (by apply Forall_forall).
    clear Hperm Hrun Hne'. induction Hsorted as [|K out Hs IH HK]; [constructor|].
    apply Forall_cons in Hall as [HKne Hall].
    constructor; [by apply IH|].
    rewrite Forall_forall in HK, Hall. apply Forall_forall. intros K' HK'.
    destruct (bbox_key_spec K HKne) as (? & ? & ? & ? & Hk & _).
    destruct (bbox_key_spec K' (Hall K' HK')) as (? & ? & ? & ? & Hk' & _).
    eexists _, _. split; [done|]. split; [done|].
    specialize (HK K' HK'). apply tuple4_ltb_le in HK.
    unfold kf in HK. by rewrite Hk, Hk' in HK.
  + intros K HK. by apply bbox_key_spec, Hne'.
Qed.

Lemma sort_size_ok (comps : list (list Cell)) :
  ∃ out, sort_components comps "size" = Ok out ∧ out ≡ₚ comps ∧
    StronglySorted (λ K K', len K' ≤ len K) out ∧
    ∀ n, filter (λ K, len K = n) out = filter (λ K, len K = n) comps.
Proof.
  assert (∀ a b, (a <? b) = true → (b <? a) = false) as Hasym.
  { intros a b. rewrite Z.ltb_lt, Z.ltb_ge. lia. }
  assert (∀ a b c, (b <? a) = false → (c <? b) = false → (c <? a) = false)
    as Htrans.
  { intros a b c. rewrite !Z.ltb_ge. lia. }
  destruct (sorted_spec Z.ltb Hasym Htrans (λ c : list Cell, Ok (size_key c))
              size_key comps) as (out & Hrun & Hperm & Hsorted & Hstable);
    [done|].
  exists out. split; [done|]. split; [done|]. split.
  + eapply StronglySorted_mono; [|exact Hsorted].
    intros K K'. rewrite Z.ltb_ge. unfold size_key. lia.
  + intros n. trans (filter (λ K, size_key K = - n) out).
    { apply list_filter_iff. intros K. unfold size_key. lia. }
    rewrite Hstable. apply list_filter_iff. intros K. unfold size_key. lia.
Qed.

(** Whatever the (valid) mode, the sorter returns a rearrangement of
    its input. *)
Lemma sort_components_perm (comps : list (list Cell)) (mode : string) :
  Forall (λ K, K ≠ []) comps → mode ∈ sort_choices →
  ∃ out, sort_components comps mode = Ok out ∧ out ≡ₚ comps.
Proof.
  intros Hne Hmode. unfold sort_choices in Hmode.
  apply elem_of_cons in Hmode as [->|Hmode]; [by exists comps|].
  apply elem_of_cons in Hmode as [->|Hmode].
  { destruct (sort_topleft_ok comps Hne) as (out & ? & ? & _). by exists out. }
  apply list_elem_of_singleton in Hmode as ->.
  destruct (sort_size_ok comps) as (out & ? & ? & _). by exists out.
Qed.

(** C5. On surviving (hence non-empty) components: mode [none] returns
    the input order; mode [topleft] returns a permutation whose
    [(min_y, min_x, max_y, max_x)] keys are non-decreasing
    lexicographically; mode [size] returns a permutation whose cell
    counts are non-increasing, and components of equal cell count keep
    their relative order. *)
Theorem sort_components_spec (comps : list (list Cell)) :
  Forall (λ K, K ≠ []) comps →
  sort_components comps "none" = Ok comps ∧
  (∃ out, sort_components comps "topleft" = Ok out ∧ out ≡ₚ comps ∧
     StronglySorted (λ K K', ∃ k k',
       bbox_key K = Ok k ∧ bbox_key K' = Ok k' ∧ tuple4_le k k') out ∧
     ∀ K, K ∈ out → ∃ miny minx maxy maxx,
       bbox_key K = Ok (miny, minx, maxy, maxx) ∧
       is_min miny K.*2 ∧ is_min minx K.*1 ∧
       is_max maxy K.*2 ∧ is_max maxx K.*1) ∧
  (∃ out, sort_components comps "size" = Ok out ∧ out ≡ₚ comps ∧
     StronglySorted (λ K K', len K' ≤ len K) out ∧
     ∀ n, filter (λ K, len K = n) out = filter (λ K, len K = n) comps).
Proof.
  intros Hne. split; [done|]. split.
  - by apply sort_topleft_ok.
  - apply sort_size_ok.
Qed.

(** ** ForegroundMaskBuilder *)

Lemma mapM_tabulate {A} (f : Z → Z → res A) (g : Z → Z → A) (w h : Z) :
  (∀ x y, 0 ≤ x < w → 0 ≤ y < h → f x y = Ok (g x y)) →
  mapM (λ y, mapM (λ x, f x y) (range w)) (range h)
    = Ok ((λ y, (λ x, g x y) <$> range w) <$> range h).
Proof.
  intros Hf. apply mapM_ok. intros y Hy. apply mapM_ok. intros x Hx.
  unfold range in *. apply elem_of_seqZ in Hx, Hy. apply Hf; lia.
Qed.

Lemma is_grid_fmap {A B} (f : A → B) (g : list (list A)) w h :
  is_grid g w h → is_grid ((λ row : list A, f <$> row) <$> g) w h.
Proof.
  intros [Hh Hrows]. split.
  - unfold len in *. by rewrite length_fmap.
  - apply Forall_fmap. eapply Forall_impl; [exact Hrows|].
    intros row Hrow. simpl. unfold len in *. by rewrite length_fmap.
Qed.

Lemma grid_get_fmap {A B} (f : A → B) (d : A) (d' : B) (g : list (list A))
    w h x y :
  is_grid g w h → 0 ≤ x < w → 0 ≤ y < h →
  grid_get d' ((λ row : list A, f <$> row) <$> g) x y = f (grid_get d g x y).
Proof.
  intros Hg Hx Hy. destruct (grid_row g w h y Hg Hy) as (row & Hrow & Hlen).
  destruct (lookup_lt_is_Some_2 row (Z.to_nat x)) as [a Ha];
    [unfold len in Hlen; lia|].
  unfold grid_get. destruct (Z.leb_spec 0 x); [|lia].
  destruct (Z.leb_spec 0 y); [|lia]. simpl.
  rewrite list_lookup_fmap, Hrow. simpl. rewrite list_lookup_fmap, Ha. done.
Qed.

Lemma getitem2_convert_RGB (img : Image) x y :
  wf_image img → 0 ≤ x < im_w img → 0 ≤ y < im_h img →
  getitem2 (convert_RGB img) y x = Ok (rgb_at img x y).
Proof.
  intros (_ & _ & Hg) Hx Hy.
  rewrite (getitem2_get (0, 0, 0) _ (im_w img) (im_h img));
    [|by apply is_grid_fmap|done..].
  f_equal. unfold convert_RGB, rgb_at, pixel_at.
  by rewrite (grid_get_fmap rgb_of (0, 0, 0, 0) _ _ (im_w img) (im_h img)).
Qed.

Lemma elem_of_range_step (n step v : Z) :
  0 < step → v ∈ range_step n step ↔ 0 ≤ v < n ∧ v `mod` step = 0.
Proof.
  intros Hstep. unfold range_step. rewrite list_elem_of_fmap.
  pose proof (Z.div_mod (n + step - 1) step) as Hn.
  pose proof (Z.mod_pos_bound (n + step - 1) step) as Hnb. split.
  - intros (i & -> & Hi). apply elem_of_seqZ in Hi.
    split; [nia|]. by apply Z_mod_mult.
  - intros [Hv Hmod]. exists (v `div` step).
    pose proof (Z.div_mod v step) as Hdm. split; [lia|].
    apply elem_of_seqZ. split; [apply Z.div_pos; lia|]. nia.
Qed.

Lemma sample_step_pos (w h : Z) : sample_step w h = 1 ∨ sample_step w h = 2.
Proof. unfold sample_step. destruct (w * h <=? 2000000); auto. Qed.

Lemma elem_of_sample_coords (w h x y : Z) :
  (x, y) ∈ sample_coords w h ↔
  0 ≤ x < w ∧ 0 ≤ y < h ∧ x `mod` sample_step w h = 0 ∧ y `mod` sample_step w h = 0.
Proof.
  assert (0 < sample_step w h) as Hpos by (destruct (sample_step_pos w h); lia).
  unfold sample_coords. rewrite list_elem_of_bind. split.
  - intros (y' & Hin & Hy). apply list_elem_of_bind in Hin as (x' & Hin & Hx).
    apply list_elem_of_singleton in Hin. simplify_eq.
    apply elem_of_range_step in Hx, Hy; naive_solver.
  - intros (Hx & Hy & Hmx & Hmy). exists y. split.
    + apply list_elem_of_bind. exists x. split; [by left|].
      by apply elem_of_range_step.
    + by apply elem_of_range_step.
Qed.

Lemma freq_snoc (c k : RGB) (l : list RGB) :
  freq c (l ++ [k]) = freq c l + (if decide (k = c) then 1 else 0).
Proof.
  unfold freq, len. rewrite filter_app, length_app, filter_cons. simpl.
  case_decide; simpl; lia.
Qed.

Lemma freq_nonneg (c : RGB) (l : list RGB) : 0 ≤ freq c l.
Proof. unfold freq, len. lia. Qed.

Lemma freq_not_in (c : RGB) (l : list RGB) : c ∉ l → freq c l = 0.
Proof.
  intros Hc. unfold freq, len.
  induction l as [|x l IH]; [done|]. apply not_elem_of_cons in Hc as [Hne Hc].
  rewrite filter_cons_False by done. by apply IH.
Qed.

Lemma counter_add_fresh (k : RGB) (c : list (RGB * Z)) :
  k ∉ c.*1 → counter_add k c = c ++ [(k, 1)].
Proof.
  induction c as [|[k' n] c IH]; simpl; intros Hk; [done|].
  apply not_elem_of_cons in Hk as [Hne Hk].
  rewrite decide_False by done. by rewrite IH.
Qed.

Lemma counter_add_seen (k : RGB) (c : list (RGB * Z)) :
  k ∈ c.*1 →
  ∃ c1 n c2, c = c1 ++ (k, n) :: c2 ∧ k ∉ c1.*1 ∧
    counter_add k c = c1 ++ (k, n + 1) :: c2.
Proof.
  induction c as [|[k' n] c IH]; simpl; intros Hk.
  - by apply elem_of_nil in Hk.
  - destruct (decide (k' = k)) as [->|Hne].
    + exists [], n, c. split; [done|]. split; [|done]. apply not_elem_of_nil.
    + apply elem_of_cons in Hk as [?|Hk]; [done|].
      destruct (IH Hk) as (c1 & m & c2 & -> & Hfresh & ->).
      exists ((k', n) :: c1), m, c2. split; [done|]. split; [|done].
      simpl. apply not_elem_of_cons. done.
Qed.

Lemma counter_of_snoc (items : list RGB) (k : RGB) (c : list (RGB * Z)) :
  counter_of items c → counter_of (items ++ [k]) (counter_add k c).
Proof.
  intros (Hnd & Hcount & Hkeys & Horder).
  destruct (decide (k ∈ c.*1)) as [Hin|Hnotin].
  - destruct (counter_add_seen k c Hin) as (c1 & n & c2 & -> & Hfresh & ->).
    unfold counter_of. rewrite !fmap_app, !fmap_cons in *. simpl in *.
    split; [done|]. split; [|split].
    + intros k' n' Hin'. rewrite freq_snoc.
      apply elem_of_app in Hin' as [Hin'|Hin'].
      * rewrite decide_False.
        { rewrite Z.add_0_r. apply Hcount, elem_of_app. by left. }
        intros ->. apply Hfresh. apply list_elem_of_fmap. by exists (k', n').
      * apply elem_of_cons in Hin' as [Heq|Hin'].
        { simplify_eq. rewrite decide_True by done. f_equal.
          apply Hcount, elem_of_app. right. by left. }
        rewrite decide_False.
        { rewrite Z.add_0_r. apply Hcount, elem_of_app. right. by right. }
        intros ->. apply NoDup_app in Hnd as (_ & _ & Hnd).
        apply NoDup_cons in Hnd as [Hnd _]. apply Hnd.
        apply list_elem_of_fmap. by exists (k', n').
    + intros k'. rewrite elem_of_app, list_elem_of_singleton, Hkeys.
      split; [|by left]. intros [?| ->]; [done|].
      apply elem_of_app. right. by left.
    + intros ks1 b ks2 Heq.
      destruct (Horder ks1 b ks2 Heq) as (pre & post & -> & Hb & Hpre).
      exists pre, (post ++ [k]). by rewrite <- app_assoc.
  - rewrite counter_add_fresh by done.
    assert (k ∉ items) as Hnew by (by rewrite Hkeys).
    unfold counter_of. rewrite fmap_app. simpl. split; [|split; [|split]].
    + apply NoDup_app. split; [done|]. split; [|apply NoDup_singleton].
      intros x Hx Hx'. apply list_elem_of_singleton in Hx'. by subst.
    + intros k' n' Hin'. rewrite freq_snoc.
      apply elem_of_app in Hin' as [Hin'|Hin'].
      * rewrite decide_False.
        { rewrite Z.add_0_r. by apply Hcount. }
        intros ->. apply Hnotin. apply list_elem_of_fmap. by exists (k', n').
      * apply list_elem_of_singleton in Hin'. simplify_eq.
        rewrite decide_True by done. by rewrite freq_not_in.
    + intros k'. rewrite !elem_of_app, !list_elem_of_singleton, Hkeys. done.
    + intros ks1 b ks2 Heq.
      destruct ks2 as [|b' ks2 _] using rev_ind.
      * apply app_inj_tail in Heq as [Hks Hb]. subst ks1 b.
        exists items, []. split; [done|]. split; [done|].
        intros x Hx. by apply Hkeys.
      * rewrite app_comm_cons, app_assoc in Heq.
        apply app_inj_tail in Heq as [Heq Hb']. subst b'.
        destruct (Horder ks1 b ks2 Heq) as (pre & post & -> & Hb & Hpre).
        exists pre, (post ++ [k]). by rewrite <- app_assoc.
Qed.

Lemma Counter_spec (items : list RGB) : counter_of items (Counter items).
Proof.
  unfold Counter. induction items as [|k items IH] using rev_ind.
  - simpl. split; [apply NoDup_nil_2|]. split.
    { intros k n Hin. by apply elem_of_nil in Hin. }
    split; [done|]. intros ks1 b ks2 Heq. by destruct ks1.
  - rewrite foldl_app. simpl. by apply counter_of_snoc.
Qed.

(** [max(items, key=count)] keeps the first item of maximal count. *)
Lemma first_max_fold (l : list (RGB * Z)) :
  ∀ c1 best mid,
    (∀ e, e ∈ c1 → e.2 < best.2) → (∀ e, e ∈ mid → e.2 ≤ best.2) →
    ∃ c1' c2',
      c1 ++ best :: mid ++ l
        = c1' ++ foldl (λ b e, if b.2 <? e.2 then e else b) best l :: c2' ∧
      (∀ e, e ∈ c1' → e.2 < (foldl (λ b e, if b.2 <? e.2 then e else b) best l).2) ∧
      (∀ e, e ∈ c2' → e.2 ≤ (foldl (λ b e, if b.2 <? e.2 then e else b) best l).2).
Proof.
  induction l as [|e l IH]; intros c1 best mid Hc1 Hmid; simpl.
  - exists c1, mid. by rewrite app_nil_r.
  - destruct (Z.ltb_spec best.2 e.2) as [Hlt|Hge].
    + destruct (IH (c1 ++ best :: mid) e []) as (c1' & c2' & Heq & H1 & H2).
      { intros e' He'. apply elem_of_app in He' as [He'|He'].
        - specialize (Hc1 e' He'). lia.
        - apply elem_of_cons in He' as [->|He']; [done|].
          specialize (Hmid e' He'). lia. }
      { intros e' He'. by apply elem_of_nil in He'. }
      exists c1', c2'. split; [|done]. rewrite <- Heq. by rewrite <- app_assoc.
    + destruct (IH c1 best (mid ++ [e])) as (c1' & c2' & Heq & H1 & H2);
        [done| |].
      { intros e' He'. apply elem_of_app in He' as [He'|He']; [by apply Hmid|].
        apply list_elem_of_singleton in He'. by subst. }
      exists c1', c2'. split; [|done]. rewrite <- Heq. by rewrite <- app_assoc.
Qed.

Lemma most_common_1_spec (c : list (RGB * Z)) :
  match most_common_1 c with
  | [] => c = []
  | r :: _ => ∃ c1 c2, c = c1 ++ r :: c2 ∧
      (∀ e, e ∈ c1 → e.2 < r.2) ∧ (∀ e, e ∈ c2 → e.2 ≤ r.2)
  end.
Proof.
  destruct c as [|kn c]; simpl; [done|].
  destruct (first_max_fold c [] kn []) as (c1 & c2 & Heq & H1 & H2).
  - intros e He. by apply elem_of_nil in He.
  - intros e He. by apply elem_of_nil in He.
  - exists c1, c2. done.
Qed.

(** The colour selected from a list of samples: of maximal frequency,
    and first encountered among the colours of that frequency. *)
Lemma most_common_samples (samples : list RGB) :
  match most_common_1 (Counter samples) with
  | [] => samples = []
  | (bg, _) :: _ =>
      (∀ c, freq c samples ≤ freq bg samples) ∧
      ∃ pre post, samples = pre ++ bg :: post ∧ bg ∉ pre ∧
        ∀ c, c ∈ pre → freq c samples < freq bg samples
  end.
Proof.
  pose proof (Counter_spec samples) as (Hnd & Hcount & Hkeys & Horder).
  pose proof (most_common_1_spec (Counter samples)) as Hmax.
  destruct (most_common_1 (Counter samples)) as [|[bg n] ?].
  - destruct samples as [|k samples]; [done|].
    assert (k ∈ (Counter (k :: samples)).*1) as Hk by (apply Hkeys; by left).
    rewrite Hmax in Hk. by apply elem_of_nil in Hk.
  - destruct Hmax as (c1 & c2 & Heq & Hlt & Hle). simpl in *.
    assert (n = freq bg samples) as Hn.
    { apply Hcount. rewrite Heq. apply elem_of_app. right. by left. }
    split.
    + intros c. destruct (decide (c ∈ samples)) as [Hin|Hnotin].
      * apply Hkeys, list_elem_of_fmap in Hin as ([c' m] & -> & Hin). simpl.
        rewrite <- (Hcount c' m Hin), <- Hn. rewrite Heq in Hin.
        apply elem_of_app in Hin as [Hin|Hin].
        { specialize (Hlt _ Hin). simpl in Hlt. lia. }
        apply elem_of_cons in Hin as [Hin|Hin]; [by simplify_eq|].
        by specialize (Hle _ Hin).
      * rewrite (freq_not_in c) by done. apply freq_nonneg.
    + destruct (Horder c1.*1 bg c2.*1) as (pre & post & Hsplit & Hfresh & Hpre).
      { rewrite Heq. by rewrite fmap_app. }
      exists pre, post. split; [done|]. split; [done|].
      intros c Hc. apply Hpre, list_elem_of_fmap in Hc as ([c' m] & -> & Hin).
      simpl. rewrite <- Hn.
      rewrite <- (Hcount c' m); [by specialize (Hlt _ Hin)|].
      rewrite Heq. apply elem_of_app. by left.
Qed.

Lemma seqZ_sorted (m n : Z) : StronglySorted Z.lt (seqZ m n).
Proof.
  remember (Z.to_nat n) as k eqn:Hk. revert m n Hk.
  induction k as [|k IH]; intros m n Hk.
  - rewrite seqZ_nil by lia. constructor.
  - rewrite seqZ_cons by lia. constructor; [apply IH; lia|].
    apply Forall_seqZ. lia.
Qed.

Lemma sample_coords_sorted (w h : Z) : StronglySorted rm_lt (sample_coords w h).
Proof.
  assert (0 < sample_step w h) as Hpos by (destruct (sample_step_pos w h); lia).
  assert (∀ n, StronglySorted Z.lt (range_step n (sample_step w h))) as Hsorted.
  { intros n. unfold range_step.
    apply (StronglySorted_fmap _ Z.lt); [|apply seqZ_sorted]. intros; nia. }
  unfold sample_coords.
  generalize (Hsorted w). generalize (Hsorted h).
  generalize (range_step w (sample_step w h)) (range_step h (sample_step w h)).
  intros xs ys Hys Hxs. induction Hys as [|y ys Hys IH Hy].
  - constructor.
  - rewrite bind_cons. apply StronglySorted_app_2; [| |done].
    + intros [x1 y1] [x2 y2] H1 H2.
      apply list_elem_of_bind in H1 as (x & H1 & _).
      apply list_elem_of_singleton in H1.
      apply list_elem_of_bind in H2 as (y' & H2 & Hy').
      apply list_elem_of_bind in H2 as (x' & H2 & _).
      apply list_elem_of_singleton in H2. simplify_eq.
      rewrite Forall_forall in Hy. left. simpl. by apply Hy.
    + clear -Hxs. induction Hxs as [|x xs Hxs IH Hx]; [constructor|].
      rewrite bind_cons. simpl. constructor; [done|].
      apply Forall_forall. intros [x' y'] Hin.
      apply list_elem_of_bind in Hin as (x'' & Hin & Hx'').
      apply list_elem_of_singleton in Hin. simplify_eq.
      rewrite Forall_forall in Hx. right. simpl. split; [done|]. by apply Hx.
Qed.

Lemma most_common_rgb_ok (img : Image) :
  wf_image img →
  most_common_rgb img =
    Ok (match most_common_1 (Counter (samples_of img)) with
        | (k, _) :: _ => k
        | [] => (0, 0, 0)
        end).
Proof.
  intros Hwf. unfold most_common_rgb.
  rewrite (mapM_ok _ (λ '(x, y), rgb_at img x y)).
  - simpl. fold (samples_of img).
    by destruct (most_common_1 (Counter (samples_of img))) as [|[k n] ?].
  - intros [x y] Hin. apply elem_of_sample_coords in Hin as (Hx & Hy & _).
    by apply getitem2_convert_RGB.
Qed.

Lemma foreground_mask_ok (img : Image) :
  wf_image img →
  ∃ m bg, most_common_rgb img = Ok bg ∧ foreground_mask img = Ok m ∧
    is_grid m (im_w img) (im_h img) ∧
    ∀ x y, 0 ≤ x < im_w img → 0 ≤ y < im_h img →
      cell m x y =
        if has_alpha_band img then 0 <? alpha_of (pixel_at (im_rgba img) x y)
        else bool_decide (rgb_at img x y ≠ bg).
Proof.
  intros Hwf. pose proof Hwf as (Hw & Hh & Hg).
  rewrite (most_common_rgb_ok img Hwf).
  set (bg := match most_common_1 (Counter (samples_of img)) with
             | (k, _) :: _ => k
             | [] => (0, 0, 0)
             end).
  unfold foreground_mask. rewrite (most_common_rgb_ok img Hwf). fold bg.
  destruct (has_alpha_band img); simpl.
  - rewrite (mapM_tabulate _ (λ x y, 0 <? alpha_of (pixel_at (im_rgba img) x y))).
    + eexists _, bg. split; [done|]. split; [done|].
      split; [by apply is_grid_tabulate|].
      intros x y Hx Hy. unfold cell. by rewrite grid_get_tabulate.
    + intros x y Hx Hy.
      by rewrite (getitem2_get (0, 0, 0, 0) _ (im_w img) (im_h img)).
  - rewrite (mapM_tabulate _ (λ x y, bool_decide (rgb_at img x y ≠ bg))).
    + eexists _, bg. split; [done|]. split; [done|].
      split; [by apply is_grid_tabulate|].
      intros x y Hx Hy. unfold cell. by rewrite grid_get_tabulate.
    + intros x y Hx Hy. by rewrite getitem2_convert_RGB.
Qed.

(** C9. For an image without an alpha band: every pixel is sampled, in
    row-major order, when [w * h <= 2,000,000], and the pixels with even
    [x] and even [y] otherwise; the reference colour has maximal
    frequency among the samples and every colour sampled before its
    first occurrence is strictly less frequent (with no sample at all
    it is black); and a pixel is foreground iff its RGB value differs
    from the reference colour. *)
Theorem foreground_mask_no_alpha (img : Image) :
  wf_image img → has_alpha_band img = false →
  (∀ x y, (x, y) ∈ sample_coords (im_w img) (im_h img) ↔
     0 ≤ x < im_w img ∧ 0 ≤ y < im_h img ∧
     (im_w img * im_h img ≤ 2000000 ∨ (x `mod` 2 = 0 ∧ y `mod` 2 = 0))) ∧
  StronglySorted rm_lt (sample_coords (im_w img) (im_h img)) ∧
  ∃ bg mask,
    most_common_rgb img = Ok bg ∧
    (samples_of img = [] → bg = (0, 0, 0)) ∧
    (∀ c, freq c (samples_of img) ≤ freq bg (samples_of img)) ∧
    (samples_of img ≠ [] →
       ∃ pre post, samples_of img = pre ++ bg :: post ∧ bg ∉ pre ∧
         ∀ c, c ∈ pre → freq c (samples_of img) < freq bg (samples_of img)) ∧
    foreground_mask img = Ok mask ∧
    is_grid mask (im_w img) (im_h img) ∧
    ∀ x y, 0 ≤ x < im_w img → 0 ≤ y < im_h img →
      getitem2 mask y x = Ok (bool_decide (rgb_at img x y ≠ bg)).
Proof.
  intros Hwf Hmode. split; [|split; [apply sample_coords_sorted|]].
  { intros x y. rewrite elem_of_sample_coords. unfold sample_step.
    destruct (Z.leb_spec (im_w img * im_h img) 2000000).
    - rewrite !Z.mod_1_r. naive_solver.
    - split; [naive_solver|]. intros (? & ? & [?|[? ?]]); [lia|done]. }
  destruct (foreground_mask_ok img Hwf) as (m & bg & Hbg & Hm & Hg & Hcell).
  exists bg, m. split; [done|].
  rewrite (most_common_rgb_ok img Hwf) in Hbg.
  pose proof (most_common_samples (samples_of img)) as Hmc.
  destruct (most_common_1 (Counter (samples_of img))) as [|[bg' n] ?].
  - rewrite Hmc. simplify_eq. split; [done|]. split; [done|]. split; [done|].
    split; [done|]. split; [done|]. intros x y Hx Hy.
    rewrite (getitem2_cell m _ _ x y Hg Hx Hy), Hcell, Hmode by done. done.
  - destruct Hmc as [Hmax Hfirst]. simplify_eq.
    split. { intros Hnil. destruct Hfirst as (pre & post & Heq & _).
             rewrite Hnil in Heq. by destruct pre. }
    split; [done|]. split; [done|]. split; [done|]. split; [done|].
    intros x y Hx Hy.
    rewrite (getitem2_cell m _ _ x y Hg Hx Hy), Hcell, Hmode by done. done.
Qed.

(** ** SpriteCropper *)

Section mask_facts.
Variables (rgba : Image) (full_mask : Mask) (cell_set : gset Cell).
Variables (tile w h x0 y0 x1 y1 : Z).
Hypothesis mask_grid : is_grid full_mask w h.
Hypothesis tile_nonzero : tile ≠ 0.
Hypothesis box_x : 0 ≤ x0 ≤ x1 ∧ x1 ≤ w.
Hypothesis box_y : 0 ≤ y0 ≤ y1 ∧ y1 ≤ h.

Local Notation cw := (x1 - x0).
Local Notation ch := (y1 - y0).
Local Notation src := (λ px py : Z, pixel_at (im_rgba rgba) (x0 + px) (y0 + py)).
Local Notation final := (masked_pixel rgba full_mask cell_set tile x0 y0).

Lemma mask_row_read (py : Z) :
  0 ≤ py < ch →
  ∃ row_m, getitem full_mask (y0 + py) = Ok row_m ∧
    ∀ px, 0 ≤ px < cw →
      getitem row_m (x0 + px) = Ok (cell full_mask (x0 + px) (y0 + py)).
Proof.
  intros Hpy. unfold ch, cw in *.
  destruct (grid_row full_mask w h (y0 + py) mask_grid) as (row & Hrow & Hlen);
    [lia|].
  exists row. split; [apply getitem_ok; [lia|done]|].
  intros px Hpx.
  pose proof (getitem2_cell full_mask w h (x0 + px) (y0 + py) mask_grid) as Hget.
  unfold getitem2 in Hget. rewrite (getitem_ok _ _ row) in Hget by (lia || done).
  apply Hget; lia.
Qed.

(** One pixel of the masking loop. *)
Lemma mask_pixel_ok (row_m : list bool) (py px : Z) (cp : list (list RGBA)) :
  0 ≤ py < ch → 0 ≤ px < cw →
  getitem row_m (x0 + px) = Ok (cell full_mask (x0 + px) (y0 + py)) →
  is_grid cp cw ch →
  pixel_at cp px py = src px py →
  ∃ cp', mask_pixel row_m cell_set tile x0 ((y0 + py) `div` tile) py px cp
           = Ok cp' ∧
    is_grid cp' cw ch ∧
    ∀ px' py', pixel_at cp' px' py' =
      if decide (px' = px ∧ py' = py) then final px py else pixel_at cp px' py'.
Proof.
  intros Hpy Hpx Hrow Hg Hsrc. unfold mask_pixel, floordiv.
  destruct (Z.eqb_spec tile 0); [done|]. simpl.
  assert (∀ cp', cp' = cp →
    ∀ px' py', pixel_at cp' px' py' =
      if decide (px' = px ∧ py' = py) then src px py else pixel_at cp px' py')
    as Hsame.
  { intros cp' -> px' py'. case_decide as Hd; [|done]. by destruct Hd as [-> ->]. }
  destruct (setitem2_get (0, 0, 0, 0) cp cw ch px py (erased (src px py)) Hg)
    as (cp' & Hset & Hg' & Hget'); [done..|].
  assert (getitem2 cp py px ≫= (λ p, let '(r, g, b, _) := p in
            setitem2 cp py px (r, g, b, 0)) = Ok cp') as Herase.
  { rewrite (getitem2_get (0, 0, 0, 0) cp cw ch) by done. simpl.
    fold (pixel_at cp px py). rewrite Hsrc.
    unfold erased in Hset. by destruct (src px py) as [[[r g] b] a]. }
  unfold final, masked_pixel. fold (src px py).
  destruct (decide (kept full_mask cell_set tile x0 y0 px py)) as [[Hc Hm]|Hno].
  - rewrite bool_decide_false by (intros Hn; by apply Hn).
    rewrite Hrow, Hm. simpl. exists cp. split; [done|]. split; [done|].
    by apply Hsame.
  - destruct (decide (((x0 + px) `div` tile, (y0 + py) `div` tile) ∈ cell_set))
      as [Hin|Hout].
    + rewrite bool_decide_false by (intros Hn; by apply Hn).
      rewrite Hrow. destruct (cell full_mask (x0 + px) (y0 + py)) eqn:Hm.
      { destruct Hno. by split. }
      simpl. rewrite Herase. exists cp'. done.
    + rewrite bool_decide_true by done. simpl. rewrite Herase.
      exists cp'. done.
Qed.

(** One row of the masking loop. *)
Lemma mask_row_ok (py : Z) (cp : list (list RGBA)) :
  0 ≤ py < ch → is_grid cp cw ch →
  (∀ px' py', 0 ≤ px' < cw → 0 ≤ py' < ch →
     pixel_at cp px' py' = if decide (py' < py) then final px' py' else src px' py') →
  ∃ cp',
    (sy ← floordiv (y0 + py) tile;
     row_m ← getitem full_mask (y0 + py);
     for_ (range cw) (mask_pixel row_m cell_set tile x0 sy py) cp) = Ok cp' ∧
    is_grid cp' cw ch ∧
    ∀ px' py', 0 ≤ px' < cw → 0 ≤ py' < ch →
      pixel_at cp' px' py' =
        if decide (py' < py + 1) then final px' py' else src px' py'.
Proof.
  intros Hpy Hg Hcp. unfold floordiv.
  destruct (Z.eqb_spec tile 0); [done|]. simpl.
  destruct (mask_row_read py Hpy) as (row_m & -> & Hrow). simpl.
  destruct (for_range_invariant
    (λ j cp', is_grid cp' cw ch ∧
       ∀ px' py', 0 ≤ px' < cw → 0 ≤ py' < ch →
         pixel_at cp' px' py' =
           if decide (py' < py ∨ (py' = py ∧ px' < j))
           then final px' py' else src px' py')
    (mask_pixel row_m cell_set tile x0 ((y0 + py) `div` tile) py) cw cp)
    as (cp' & Hrun & Hg' & Hfin).
  - unfold cw. lia.
  - split; [done|]. intros px' py' Hx Hy. rewrite Hcp by done.
    repeat case_decide; done || lia.
  - intros j cp0 Hj [Hg0 Hcp0].
    destruct (mask_pixel_ok row_m py j cp0 Hpy Hj (Hrow j Hj) Hg0)
      as (cp1 & Hstep & Hg1 & Hcp1).
    { rewrite Hcp0 by done. rewrite decide_False; [done|lia]. }
    exists cp1. split; [done|]. split; [done|].
    intros px' py' Hx Hy. rewrite Hcp1. case_decide as Hd.
    + destruct Hd as [-> ->]. rewrite decide_True; [done|lia].
    + rewrite Hcp0 by done. repeat case_decide; done || lia.
  - exists cp'. split; [done|]. split; [done|].
    intros px' py' Hx Hy. rewrite Hfin by done.
    repeat case_decide; done || lia.
Qed.

(** [apply_component_mask] on a box inside the mask: it returns, and
    every pixel of the crop is the masked source pixel. *)
Lemma apply_component_mask_ok :
  ∃ out, apply_component_mask rgba full_mask cell_set tile (x0, y0, x1, y1)
           = Ok out ∧
    im_w out = cw ∧ im_h out = ch ∧ is_grid (im_rgba out) cw ch ∧
    ∀ px py, 0 ≤ px < cw → 0 ≤ py < ch →
      pixel_at (im_rgba out) px py = final px py.
Proof.
  unfold apply_component_mask, crop.
  destruct (Z.ltb_spec x1 x0); [lia|]. destruct (Z.ltb_spec y1 y0); [lia|].
  simpl. fold cw ch.
  destruct (for_range_invariant
    (λ k cp, is_grid cp cw ch ∧
       ∀ px' py', 0 ≤ px' < cw → 0 ≤ py' < ch →
         pixel_at cp px' py' =
           if decide (py' < k) then final px' py' else src px' py')
    (λ py cp,
       sy ← floordiv (y0 + py) tile;
       row_m ← getitem full_mask (y0 + py);
       for_ (range cw) (mask_pixel row_m cell_set tile x0 sy py) cp) ch
    ((λ py, (λ px, pixel_at (im_rgba rgba) (x0 + px) (y0 + py)) <$> range cw)
       <$> range ch))
    as (cp & Hrun & Hg & Hfin).
  - unfold ch. lia.
  - split; [apply is_grid_tabulate; unfold cw, ch; lia|].
    intros px' py' Hx Hy. rewrite decide_False by lia.
    unfold pixel_at at 1. by rewrite grid_get_tabulate.
  - intros py cp Hpy [Hg Hcp]. by apply mask_row_ok.
  - rewrite Hrun. simpl. eexists. split; [done|]. simpl.
    split; [done|]. split; [done|]. split; [done|].
    intros px py Hx Hy. rewrite Hfin by done. rewrite decide_True; [done|lia].
Qed.
End mask_facts.

(** ** The pipeline *)

(** Stages 1 to 5 on a well-formed image: they return, and every
    component handed to the cropper is non-empty, passes the size filter,
    and consists of coarse cells whose blocks start inside the image. *)
Lemma find_components_ok (img : Image) (tile : Z) (sort_mode : string)
    (min_cells : Z) (fuel : nat) :
  wf_image img → 1 ≤ tile → sort_mode ∈ sort_choices →
  im_w img * im_h img ≤ Z.of_nat fuel →
  ∃ m sw sh comps,
    find_components fuel img tile sort_mode min_cells = Ok (m, sw, sh, comps) ∧
    foreground_mask img = Ok m ∧
    is_grid m (im_w img) (im_h img) ∧
    ∀ K, K ∈ comps →
      K ≠ [] ∧ min_cells ≤ len K ∧
      ∀ c, c ∈ K →
        0 ≤ c.1 ∧ c.1 * tile < im_w img ∧ 0 ≤ c.2 ∧ c.2 * tile < im_h img.
Proof.
  intros Hwf Htile Hmode Hfuel. pose proof Hwf as (Hw & Hh & _).
  destruct (foreground_mask_ok img Hwf) as (m & bg & _ & Hm & Hg & _).
  set (w' := if im_h img =? 0 then 0 else im_w img).
  assert (is_grid m w' (im_h img)) as Hg'.
  { unfold w'. destruct (Z.eqb_spec (im_h img) 0) as [Hz|]; [|done].
    destruct Hg as [Hlen _]. rewrite Hz in *. destruct m; [|done].
    split; [done|]. apply Forall_nil_2. }
  assert (0 ≤ w' ≤ im_w img) as Hw'.
  { unfold w'. destruct (im_h img =? 0); lia. }
  destruct (downscale_any_ok m w' (im_h img) tile Hg') as
    (small & sw & sh & Hds & Hsw & Hsh & Hsmall & _); [|done|].
  { unfold w'. intros ->. done. }
  assert (sw * sh ≤ Z.of_nat fuel) as Hfuel'.
  { unfold is_ceil_div in *.
    assert (0 ≤ sw ≤ w') by nia. assert (0 ≤ sh ≤ im_h img) by nia. nia. }
  destruct (flood_components_8_ok small sw sh fuel Hsmall Hfuel')
    as (comps0 & Hflood & _ & Hcover & Hok & _).
  assert (∀ K, K ∈ comps0 →
            K ≠ [] ∧ ∀ c, c ∈ K →
              0 ≤ c.1 ∧ c.1 * tile < im_w img ∧ 0 ≤ c.2 ∧ c.2 * tile < im_h img)
    as Hcomps0.
  { intros K HK. split.
    - destruct (Hok K HK) as (_ & seed & rest & -> & _). done.
    - intros c Hc. assert (occupied small c) as Hoc.
      { apply Hcover, elem_of_concat. eauto. }
      apply (occupied_in_grid small sw sh) in Hoc; [|done].
      assert (im_h img ≠ 0) as Hnz by (unfold is_ceil_div in *; nia).
      assert (w' = im_w img) as Hweq.
      { unfold w'. by destruct (Z.eqb_spec (im_h img) 0). }
      rewrite Hweq in Hsw. unfold is_ceil_div in *. nia. }
  set (comps1 := filter (λ c, min_cells ≤ len c) comps0).
  destruct (sort_components_perm comps1 sort_mode) as (comps & Hsort & Hperm);
    [|done|].
  { apply Forall_forall. intros K HK.
    apply list_elem_of_filter in HK as [_ HK]. by apply Hcomps0. }
  exists m, sw, sh, comps. split.
  { unfold find_components. rewrite Hm. simpl. rewrite Hds. simpl.
    rewrite Hflood. simpl. fold comps1. by rewrite Hsort. }
  split; [done|]. split; [done|].
  intros K HK. rewrite Hperm in HK.
  apply list_elem_of_filter in HK as [Hlen HK].
  destruct (Hcomps0 K HK) as [Hne Hcells]. done.
Qed.

(** The crop box of a component whose cells start inside the image. *)
Lemma crop_box_ok (K : list Cell) (tile w h : Z) :
  1 ≤ tile → K ≠ [] →
  (∀ c, c ∈ K → 0 ≤ c.1 ∧ c.1 * tile < w ∧ 0 ≤ c.2 ∧ c.2 * tile < h) →
  ∃ bbox x0 y0 x1 y1,
    coarse_bbox K = Ok bbox ∧ crop_box_of bbox tile w h = (x0, y0, x1, y1) ∧
    0 ≤ x0 < x1 ∧ x1 ≤ w ∧ 0 ≤ y0 < y1 ∧ y1 ≤ h.
Proof.
  intros Htile HK Hcells. unfold coarse_bbox.
  assert (K.*1 ≠ []) as H1 by (by destruct K).
  assert (K.*2 ≠ []) as H2 by (by destruct K).
  destruct (min_spec _ H1) as (sx0 & -> & [Hsx0 Hminx]),
    (min_spec _ H2) as (sy0 & -> & [Hsy0 Hminy]),
    (max_spec _ H1) as (mx & -> & [Hmx Hmaxx]),
    (max_spec _ H2) as (my & -> & [Hmy Hmaxy]).
  simpl. eexists _, _, _, _, _. split; [done|]. split; [done|].
  pose proof (Hminx mx Hmx). pose proof (Hminy my Hmy).
  apply list_elem_of_fmap in Hsx0 as (c1 & -> & Hc1).
  apply list_elem_of_fmap in Hsy0 as (c2 & -> & Hc2).
  apply list_elem_of_fmap in Hmx as (c3 & -> & Hc3).
  apply list_elem_of_fmap in Hmy as (c4 & -> & Hc4).
  pose proof (Hcells c1 Hc1). pose proof (Hcells c2 Hc2).
  pose proof (Hcells c3 Hc3). pose proof (Hcells c4 Hc4). nia.
Qed.

(** Every sprite of the pipeline: its crop box lies inside the image, the
    masking returns, and each pixel of the result is the masked source
    pixel. *)
Lemma pipeline_sprites_ok (img : Image) (tile : Z) (sort_mode : string)
    (min_cells : Z) (fuel : nat) :
  wf_image img → 1 ≤ tile → sort_mode ∈ sort_choices →
  im_w img * im_h img ≤ Z.of_nat fuel →
  ∃ m sw sh comps,
    find_components fuel img tile sort_mode min_cells = Ok (m, sw, sh, comps) ∧
    foreground_mask img = Ok m ∧
    is_grid m (im_w img) (im_h img) ∧
    ∀ cells, cells ∈ comps →
      ∃ bbox x0 y0 x1 y1 out,
        coarse_bbox cells = Ok bbox ∧
        crop_box_of bbox tile (im_w img) (im_h img) = (x0, y0, x1, y1) ∧
        (0 ≤ x0 < x1 ∧ x1 ≤ im_w img ∧ 0 ≤ y0 < y1 ∧ y1 ≤ im_h img) ∧
        apply_component_mask (convert_RGBA img) m (list_to_set cells) tile
          (x0, y0, x1, y1) = Ok out ∧
        im_w out = x1 - x0 ∧ im_h out = y1 - y0 ∧
        is_grid (im_rgba out) (x1 - x0) (y1 - y0) ∧
        ∀ px py, 0 ≤ px < x1 - x0 → 0 ≤ py < y1 - y0 →
          pixel_at (im_rgba out) px py =
            masked_pixel (convert_RGBA img) m (list_to_set cells) tile x0 y0 px py.
Proof.
  intros Hwf Htile Hmode Hfuel.
  destruct (find_components_ok img tile sort_mode min_cells fuel)
    as (m & sw & sh & comps & Hrun & Hm & Hg & Hcomps); [done..|].
  exists m, sw, sh, comps. repeat (split; [done|]).
  intros cells Hcells. destruct (Hcomps cells Hcells) as (Hne & _ & Hin).
  destruct (crop_box_ok cells tile (im_w img) (im_h img) Htile Hne Hin)
    as (bbox & x0 & y0 & x1 & y1 & Hbbox & Hbox & Hx & Hx1 & Hy & Hy1).
  destruct (apply_component_mask_ok (convert_RGBA img) m (list_to_set cells)
              tile (im_w img) (im_h img) x0 y0 x1 y1 Hg)
    as (out & Hout & Hw & Hh & Hgo & Hpix); [lia..|].
  exists bbox, x0, y0, x1, y1, out. done.
Qed.

(** C10. For every component the pipeline hands to the cropper, the crop
    box satisfies [0 <= x0 < x1 <= w] and [0 <= y0 < y1 <= h]; hence
    every index of the masking step ([full_mask[gy]], [row_m[gx]] and the
    crop pixel [(px, py)]) is within bounds, and [apply_component_mask]
    returns an image of the size of the box. *)
Theorem crop_and_mask_in_bounds (img : Image) (tile : Z) (sort_mode : string)
    (min_cells : Z) (fuel : nat) :
  wf_image img → 1 ≤ tile → sort_mode ∈ sort_choices →
  im_w img * im_h img ≤ Z.of_nat fuel →
  ∃ m sw sh comps,
    find_components fuel img tile sort_mode min_cells = Ok (m, sw, sh, comps) ∧
    ∀ cells, cells ∈ comps →
      ∃ bbox x0 y0 x1 y1 out,
        coarse_bbox cells = Ok bbox ∧
        crop_box_of bbox tile (im_w img) (im_h img) = (x0, y0, x1, y1) ∧
        (0 ≤ x0 < x1 ∧ x1 ≤ im_w img) ∧ (0 ≤ y0 < y1 ∧ y1 ≤ im_h img) ∧
        (∀ px py, 0 ≤ px < x1 - x0 → 0 ≤ py < y1 - y0 →
           0 ≤ y0 + py < len m ∧
           ∃ row_m, getitem m (y0 + py) = Ok row_m ∧ 0 ≤ x0 + px < len row_m) ∧
        apply_component_mask (convert_RGBA img) m (list_to_set cells) tile
          (x0, y0, x1, y1) = Ok out ∧
        im_w out = x1 - x0 ∧ im_h out = y1 - y0 ∧
        is_grid (im_rgba out) (x1 - x0) (y1 - y0).
Proof.
  intros Hwf Htile Hmode Hfuel.
  destruct (pipeline_sprites_ok img tile sort_mode min_cells fuel)
    as (m & sw & sh & comps & Hrun & _ & Hg & Hsprites); [done..|].
  exists m, sw, sh, comps. split; [done|]. intros cells Hcells.
  destruct (Hsprites cells Hcells)
    as (bbox & x0 & y0 & x1 & y1 & out & Hbbox & Hbox & Hin & Hout & Hw & Hh & Hgo & _).
  exists bbox, x0, y0, x1, y1, out.
  split; [done|]. split; [done|]. split; [lia|]. split; [lia|].
  split; [|done]. intros px py Hpx Hpy.
  destruct (grid_row m _ _ (y0 + py) Hg) as (row_m & Hrow & Hlen); [lia|].
  destruct Hg as [Hlenm _]. split; [lia|].
  exists row_m. split; [apply getitem_ok; [lia|done]|lia].
Qed.

(** C1 (amended). In every sprite image of the pipeline, the pixel
    [(px, py)] of the crop, at global position
    [(gx, gy) = (x0 + px, y0 + py)], has non-zero alpha iff its coarse
    cell [(gx div tile, gy div tile)] is in the component, the mask is
    true at [(gx, gy)], and the source pixel's alpha is non-zero; an
    erased pixel is the source pixel with alpha 0 and the same RGB, and a
    kept pixel is the source pixel. *)
Theorem sprite_masking_law (img : Image) (tile : Z) (sort_mode : string)
    (min_cells : Z) (fuel : nat) :
  wf_image img → 1 ≤ tile → sort_mode ∈ sort_choices →
  im_w img * im_h img ≤ Z.of_nat fuel →
  ∃ m sw sh comps,
    find_components fuel img tile sort_mode min_cells = Ok (m, sw, sh, comps) ∧
    ∀ cells, cells ∈ comps →
      ∃ bbox x0 y0 x1 y1 out,
        coarse_bbox cells = Ok bbox ∧
        crop_box_of bbox tile (im_w img) (im_h img) = (x0, y0, x1, y1) ∧
        apply_component_mask (convert_RGBA img) m (list_to_set cells) tile
          (x0, y0, x1, y1) = Ok out ∧
        im_w out = x1 - x0 ∧ im_h out = y1 - y0 ∧
        ∀ px py, 0 ≤ px < im_w out → 0 ≤ py < im_h out →
          (alpha_of (pixel_at (im_rgba out) px py) ≠ 0 ↔
             kept m (list_to_set cells) tile x0 y0 px py ∧
             alpha_of (pixel_at (im_rgba img) (x0 + px) (y0 + py)) ≠ 0) ∧
          (¬ kept m (list_to_set cells) tile x0 y0 px py →
             pixel_at (im_rgba out) px py =
               erased (pixel_at (im_rgba img) (x0 + px) (y0 + py))) ∧
          (kept m (list_to_set cells) tile x0 y0 px py →
             pixel_at (im_rgba out) px py =
               pixel_at (im_rgba img) (x0 + px) (y0 + py)).
Proof.
  intros Hwf Htile Hmode Hfuel.
  destruct (pipeline_sprites_ok img tile sort_mode min_cells fuel)
    as (m & sw & sh & comps & Hrun & _ & Hg & Hsprites); [done..|].
  exists m, sw, sh, comps. split; [done|]. intros cells Hcells.
  destruct (Hsprites cells Hcells)
    as (bbox & x0 & y0 & x1 & y1 & out & Hbbox & Hbox & Hin & Hout & Hw & Hh & _ & Hpix).
  exists bbox, x0, y0, x1, y1, out. repeat (split; [done|]).
  intros px py Hpx Hpy. rewrite Hpix by lia. unfold masked_pixel. simpl.
  destruct (decide (kept m (list_to_set cells) tile x0 y0 px py)) as [Hk|Hk].
  - split; [tauto|]. split; [done|done].
  - split; [|split; [done|done]].
    destruct (pixel_at (im_rgba img) (x0 + px) (y0 + py)) as [[[r g] b] a].
    simpl. split; [done|tauto].
Qed.

(** The masking law as the specification words it ("alpha is non-zero
    iff the cell is in the component and the mask is true") fails on
    [palette_sheet]: its only sprite keeps the pixel at [(2, 0)], whose
    cell is in the component and whose mask bit is true, with alpha 0. *)
Lemma sprite_masking_law_counterexample :
  ∃ m out,
    find_components 3 palette_sheet 1 "topleft" 1 = Ok (m, 3, 1, [[(2, 0)]]) ∧
    coarse_bbox [(2, 0)] = Ok (2, 0, 3, 1) ∧
    crop_box_of (2, 0, 3, 1) 1 3 1 = (2, 0, 3, 1) ∧
    apply_component_mask (convert_RGBA palette_sheet) m (list_to_set [(2, 0)]) 1
      (2, 0, 3, 1) = Ok out ∧
    ¬ (alpha_of (pixel_at (im_rgba out) 0 0) ≠ 0 ↔
         kept m (list_to_set [(2, 0)]) 1 2 0 0 0).
Proof.
  eexists _, _. split; [vm_compute; reflexivity|].
  split; [reflexivity|]. split; [reflexivity|].
  split; [vm_compute; reflexivity|].
  intros [_ Hback]. apply Hback; [|reflexivity].
  split; [|reflexivity]. apply elem_of_list_to_set. left.
Qed.

(** On a sheet that has an alpha band and no negative alpha value, a
    pixel the mask marks as foreground has non-zero alpha, so a kept
    pixel of a sprite is never transparent. *)
Lemma kept_pixel_opaque_with_alpha_band (img : Image) (m : Mask)
    (cell_set : gset Cell) (tile x0 y0 px py : Z) :
  wf_image img → has_alpha_band img = true →
  foreground_mask img = Ok m →
  0 ≤ x0 + px < im_w img → 0 ≤ y0 + py < im_h img →
  kept m cell_set tile x0 y0 px py →
  alpha_of (pixel_at (im_rgba img) (x0 + px) (y0 + py)) ≠ 0.
Proof.
  intros Hwf Hband Hm Hx Hy [_ Hmask].
  destruct (foreground_mask_ok img Hwf) as (m' & bg & _ & Hm' & _ & Hcell).
  rewrite Hm in Hm'. simplify_eq.
  rewrite Hcell, Hband in Hmask by done. apply Z.ltb_lt in Hmask. lia.
Qed.

(** ** The entry point *)

Lemma io_bind_ok {A B} (m : IO A) (f : A → IO B) tr a tr' :
  m tr = (Ok a, tr') → (m ≫= f) tr = f a tr'.
Proof. intros Hm. unfold mbind, io_bind. by rewrite Hm. Qed.

Lemma io_bind_raise {A B} (m : IO A) (f : A → IO B) tr e tr' :
  m tr = (Raise e, tr') → (m ≫= f) tr = (Raise e, tr').
Proof. intros Hm. unfold mbind, io_bind. by rewrite Hm. Qed.

Lemma for_io_invariant {X St} (I : list X → St → list event → Prop)
    (body : X → St → IO St) (xs : list X) (s0 : St) (tr0 : list event) :
  I [] s0 tr0 →
  (∀ done x rest s tr, xs = done ++ x :: rest → I done s tr →
     ∃ s' tr', body x s tr = (Ok s', tr') ∧ I (done ++ [x]) s' tr') →
  ∃ s' tr', for_io xs body s0 tr0 = (Ok s', tr') ∧ I xs s' tr'.
Proof.
  intros H0 Hstep.
  cut (∀ rest done s tr, xs = done ++ rest → I done s tr →
         ∃ s' tr', for_io rest body s tr = (Ok s', tr') ∧ I xs s' tr').
  { intros Hc. apply (Hc xs [] s0 tr0); done. }
  induction rest as [|x rest IH]; intros done s tr Hxs HI; simpl.
  - exists s, tr. rewrite app_nil_r in Hxs. by subst.
  - destruct (Hstep done x rest s tr Hxs HI) as (s' & tr' & Hbody & HI').
    rewrite (io_bind_ok _ _ _ _ _ Hbody).
    apply (IH (done ++ [x])); [|done]. by rewrite <- app_assoc.
Qed.

Lemma elem_of_enumerate {A} (l : list A) (i : Z) (a : A) :
  (i, a) ∈ enumerate l → a ∈ l.
Proof. unfold enumerate. apply elem_of_zip_r. Qed.

(** [extract_sprites] in a cooperative environment: it returns after
    creating the directory, opening the sheet and saving the sprites. *)
Lemma extract_sprites_ok (env : Env) (fuel : nat) (in_path out_dir : string)
    (tile : Z) (sort_mode : string) (min_cells : Z) (label : bool)
    (img : Image) (tr0 : list event) :
  cooperative env in_path out_dir img →
  1 ≤ tile → sort_mode ∈ sort_choices →
  im_w img * im_h img ≤ Z.of_nat fuel →
  ∃ atlas sprites saves,
    extract_sprites env fuel in_path out_dir tile sort_mode min_cells label tr0
      = (Ok (atlas, sprites),
         tr0 ++ [EvMakedirs out_dir; EvOpenImage in_path] ++ saves) ∧
    Forall is_save saves ∧
    atlas_sprites atlas = sprites ∧
    meta_count (atlas_meta atlas) = len sprites.
Proof.
  intros (Hopen & Hwf & Hmk & Hwr) Htile Hmode Hfuel.
  destruct (pipeline_sprites_ok img tile sort_mode min_cells fuel)
    as (m & sw & sh & comps & Hrun & _ & Hg & Hsprites); [done..|].
  unfold extract_sprites.
  erewrite io_bind_ok;
    [|unfold os_makedirs, emit, mbind, io_bind; rewrite Hmk; reflexivity].
  erewrite io_bind_ok;
    [|unfold Image_open, emit, mbind, io_bind; rewrite Hopen; reflexivity].
  cbv zeta. change (im_w (convert_RGBA img)) with (im_w img).
  change (im_h (convert_RGBA img)) with (im_h img).
  erewrite io_bind_ok; [|unfold lift; rewrite Hrun; reflexivity].
  set (tr1 := (tr0 ++ [EvMakedirs out_dir]) ++ [EvOpenImage in_path]).
  destruct (for_io_invariant
    (λ _ (sprites : list SpriteRecord) tr,
       ∃ saves, tr = tr1 ++ saves ∧ Forall is_save saves)
    (extract_one env out_dir (convert_RGBA img) m tile (im_w img) (im_h img) label)
    (enumerate comps) [] tr1) as (sprites & tr2 & Hloop & saves & -> & Hsaves).
  - exists []. by rewrite app_nil_r.
  - intros done [sid cells] rest sprites tr Hsplit (saves & -> & Hsaves).
    assert (cells ∈ comps) as Hcells.
    { apply (elem_of_enumerate _ sid). rewrite Hsplit.
      apply elem_of_app. right. by left. }
    destruct (Hsprites cells Hcells)
      as (bbox & x0 & y0 & x1 & y1 & out & Hbbox & Hbox & _ & Hout & _).
    unfold extract_one.
    erewrite io_bind_ok; [|unfold lift; rewrite Hbbox; reflexivity].
    destruct bbox as [[[sx0 sy0] sx1] sy1]. rewrite Hbox.
    erewrite io_bind_ok; [|unfold lift; rewrite Hout; reflexivity].
    eexists _, _. split.
    { unfold Image_save, emit, mbind, io_bind, mret, io_ret.
      rewrite Hwr. reflexivity. }
    eexists. split; [by rewrite <- app_assoc|].
    apply Forall_app. split; [done|]. apply Forall_singleton.
    by eexists _, _.
  - erewrite io_bind_ok; [|exact Hloop]. unfold mret, io_ret.
    eexists _, _, saves. split.
    { f_equal. unfold tr1. by rewrite <- !app_assoc. }
    done.
Qed.

Lemma parse_args_ok (argv : Args) (tr : list event) :
  arg_sort argv ∈ sort_choices →
  parse_args build_argparser argv tr = (Ok argv, tr).
Proof. intros Hs. unfold parse_args. simpl. by rewrite bool_decide_true. Qed.

Lemma parse_args_reject (argv : Args) (tr : list event) :
  arg_sort argv ∉ sort_choices →
  parse_args build_argparser argv tr = (Raise (SystemExit 2), tr).
Proof. intros Hs. unfold parse_args. simpl. by rewrite bool_decide_false. Qed.

(** A run with a valid command line in a cooperative environment. *)
Lemma main_ok (env : Env) (fuel : nat) (argv : Args) (img : Image) :
  1 ≤ arg_tile argv → 1 ≤ arg_min_cells argv →
  arg_sort argv ∈ sort_choices →
  cooperative env (arg_input argv) (arg_out argv) img →
  im_w img * im_h img ≤ Z.of_nat fuel →
  ∃ atlas saves,
    main env fuel argv [] =
      (Ok 0,
       [EvMakedirs (arg_out argv); EvOpenImage (arg_input argv)] ++ saves ++
       [EvWriteJson (path_join env (arg_out argv) (arg_atlas argv)) atlas;
        EvPrint ("sprites: " +:+ str_of_int (len (atlas_sprites atlas)));
        EvPrint ("wrote:   " +:+ path_join env (arg_out argv) (arg_atlas argv))]) ∧
    Forall is_save saves.
Proof.
  intros Htile Hmin Hsort Hcoop Hfuel.
  destruct (extract_sprites_ok env fuel (arg_input argv) (arg_out argv)
              (arg_tile argv) (arg_sort argv) (arg_min_cells argv)
              (negb (arg_no_label argv)) img [] Hcoop Htile Hsort Hfuel)
    as (atlas & sprites & saves & Hrun & Hsaves & Hsprites & _).
  exists atlas, saves. split; [|done]. unfold main.
  erewrite io_bind_ok; [|by apply parse_args_ok].
  destruct (Z.leb_spec (arg_tile argv) 0); [lia|].
  destruct (Z.leb_spec (arg_min_cells argv) 0); [lia|].
  erewrite io_bind_ok; [|exact Hrun]. cbv zeta.
  destruct Hcoop as (_ & _ & _ & Hwr).
  unfold json_dump_to, print, emit, mbind, io_bind, mret, io_ret. rewrite Hwr.
  rewrite Hsprites. f_equal. simpl. by rewrite <- !app_assoc.
Qed.

(** C7 (amended). With a tile size or a minimum cell count below 1 the
    run ends with a non-zero exit status and an empty trace: no
    directory is created, no image is opened, no file is written. With
    a valid command line, and provided the sheet can be opened and every
    write succeeds, [main] returns 0 after creating the directory,
    opening the sheet, saving the sprites and writing the descriptor. *)
Theorem main_exit_status (env : Env) (fuel : nat) (argv : Args) :
  (arg_tile argv < 1 ∨ arg_min_cells argv < 1 →
   ∃ r, main env fuel argv [] = (r, []) ∧ exit_status r ≠ 0) ∧
  (1 ≤ arg_tile argv → 1 ≤ arg_min_cells argv →
   arg_sort argv ∈ sort_choices →
   ∀ img, cooperative env (arg_input argv) (arg_out argv) img →
     im_w img * im_h img ≤ Z.of_nat fuel →
     ∃ atlas saves,
       main env fuel argv [] =
         (Ok 0,
          [EvMakedirs (arg_out argv); EvOpenImage (arg_input argv)] ++ saves ++
          [EvWriteJson (path_join env (arg_out argv) (arg_atlas argv)) atlas;
           EvPrint ("sprites: " +:+ str_of_int (len (atlas_sprites atlas)));
           EvPrint ("wrote:   " +:+
                    path_join env (arg_out argv) (arg_atlas argv))]) ∧
       Forall is_save saves ∧ exit_status (Ok 0) = 0).
Proof.
  split.
  - intros Hbad. unfold main.
    destruct (decide (arg_sort argv ∈ sort_choices)) as [Hs|Hs].
    + erewrite io_bind_ok; [|by apply parse_args_ok].
      destruct (Z.leb_spec (arg_tile argv) 0).
      { by exists (Raise (SystemExit 1)). }
      destruct (Z.leb_spec (arg_min_cells argv) 0); [|lia].
      by exists (Raise (SystemExit 1)).
    + erewrite io_bind_raise; [|by apply parse_args_reject].
      by exists (Raise (SystemExit 2)).
  - intros Htile Hmin Hsort img Hcoop Hfuel.
    destruct (main_ok env fuel argv img Htile Hmin Hsort Hcoop Hfuel)
      as (atlas & saves & Hrun & Hsaves).
    by exists atlas, saves.
Qed.

(** The second half of C7 as the specification words it ("for every
    valid configuration the main entry returns exit status 0") fails
    when the input cannot be opened: the command line is valid, yet the
    run ends with status 1 and no descriptor. *)
Lemma main_exit_status_counterexample :
  1 ≤ arg_tile default_args ∧ 1 ≤ arg_min_cells default_args ∧
  arg_sort default_args ∈ sort_choices ∧
  main env_no_input 0 default_args [] =
    (Raise OSError, [EvMakedirs "out"; EvOpenImage "sheet.png"]) ∧
  exit_status (main env_no_input 0 default_args []).1 ≠ 0.
Proof.
  split; [done|]. split; [done|]. split; [by right; left|].
  split; [reflexivity|done].
Qed.

(** C8. An unknown sort mode is rejected by the argument parser: the
    run ends with a non-zero exit status and an empty trace, so before
    the output directory is created, the image opened, the mask built or
    the components found, and nothing is written. *)
Theorem unknown_sort_mode_rejected (env : Env) (fuel : nat) (argv : Args) :
  arg_sort argv ∉ sort_choices →
  main env fuel argv [] = (Raise (SystemExit 2), []) ∧
  exit_status (main env fuel argv []).1 ≠ 0.
Proof.
  intros Hs.
  assert (main env fuel argv [] = (Raise (SystemExit 2), [])) as Hrun.
  { unfold main. erewrite io_bind_raise; [done|by apply parse_args_reject]. }
  split; [done|]. by rewrite Hrun.
Qed.

(** Called directly, [extract_sprites] meets an unknown sort mode only in
    [sort_components]: the directory has been created and the sheet
    opened by then, but no sprite has been saved. *)
Lemma extract_sprites_unknown_sort_example :
  extract_sprites env_scenario_A 16 "sheet.png" "out" 2 "bogus" 1 true [] =
    (Raise ValueError, [EvMakedirs "out"; EvOpenImage "sheet.png"]).
Proof. vm_compute. reflexivity. Qed.

(** * Further properties of the code *)

(** ** ForegroundMaskBuilder: sheets with an alpha band, dominant colours *)

(** X1. For a sheet with an alpha band [foreground_mask] returns a mask of
    the size of the sheet in which a pixel is foreground iff its alpha is
    strictly positive; colours play no part. *)
Theorem foreground_mask_alpha_band (img : Image) :
  wf_image img → has_alpha_band img = true →
  ∃ mask, foreground_mask img = Ok mask ∧
    is_grid mask (im_w img) (im_h img) ∧
    ∀ x y, 0 ≤ x < im_w img → 0 ≤ y < im_h img →
      (getitem2 mask y x = Ok true ↔
         0 < alpha_of (pixel_at (im_rgba img) x y)) ∧
      (getitem2 mask y x = Ok false ↔
         alpha_of (pixel_at (im_rgba img) x y) ≤ 0).
Proof.
  intros Hwf Hband.
  destruct (foreground_mask_ok img Hwf) as (m & bg & _ & Hm & Hg & Hcell).
  exists m. split; [done|]. split; [done|]. intros x y Hx Hy.
  rewrite (getitem2_cell m _ _ x y Hg Hx Hy), Hcell, Hband by done.
  destruct (Z.ltb_spec 0 (alpha_of (pixel_at (im_rgba img) x y))).
  - split; split; (done || lia).
  - split; split; (done || lia).
Qed.

Lemma freq_two_colours (c c' : RGB) (l : list RGB) :
  c ≠ c' → freq c l + freq c' l ≤ len l.
Proof.
  intros Hne. unfold freq, len.
  induction l as [|x l IH]; simpl; [done|].
  rewrite !filter_cons. repeat case_decide; simplify_eq; simpl; lia.
Qed.

(** X2. A colour that makes up more than half of the samples is the
    reference colour [most_common_rgb] returns. *)
Theorem most_common_rgb_majority (img : Image) (c : RGB) :
  wf_image img →
  len (samples_of img) < 2 * freq c (samples_of img) →
  most_common_rgb img = Ok c.
Proof.
  intros Hwf Hmaj. rewrite (most_common_rgb_ok img Hwf).
  pose proof (most_common_samples (samples_of img)) as Hmc.
  destruct (most_common_1 (Counter (samples_of img))) as [|[bg n] ?].
  - rewrite Hmc in Hmaj. unfold freq, len in Hmaj. simpl in Hmaj. lia.
  - destruct Hmc as [Hmax _]. f_equal.
    destruct (decide (bg = c)) as [|Hne]; [done|].
    pose proof (freq_two_colours bg c (samples_of img) Hne).
    specialize (Hmax c). lia.
Qed.

(** ** Downscaler: tile 1, and tiles the entry point refuses *)

Lemma grid_ext (g1 g2 : Mask) (w h : Z) :
  is_grid g1 w h → is_grid g2 w h →
  (∀ x y, 0 ≤ x < w → 0 ≤ y < h → cell g1 x y = cell g2 x y) →
  g1 = g2.
Proof.
  intros Hg1 Hg2 Hcells. apply list_eq. intros i.
  destruct (decide (Z.of_nat i < h)) as [Hi|Hi].
  - destruct (grid_row g1 w h (Z.of_nat i) Hg1) as (r1 & Hr1 & Hl1); [lia|].
    destruct (grid_row g2 w h (Z.of_nat i) Hg2) as (r2 & Hr2 & Hl2); [lia|].
    rewrite Nat2Z.id in Hr1, Hr2. rewrite Hr1, Hr2. f_equal.
    apply list_eq. intros j. unfold len in *.
    destruct (decide (Z.of_nat j < w)) as [Hj|Hj].
    + destruct (lookup_lt_is_Some_2 r1 j) as [b1 Hb1]; [lia|].
      destruct (lookup_lt_is_Some_2 r2 j) as [b2 Hb2]; [lia|].
      specialize (Hcells (Z.of_nat j) (Z.of_nat i)).
      unfold cell, grid_get in Hcells.
      destruct (Z.leb_spec 0 (Z.of_nat j)); [|lia].
      destruct (Z.leb_spec 0 (Z.of_nat i)); [|lia].
      simpl in Hcells. rewrite !Nat2Z.id, Hr1, Hr2 in Hcells. simpl in Hcells.
      rewrite Hb1, Hb2 in Hcells. simpl in Hcells.
      rewrite Hb1, Hb2. f_equal. apply Hcells; lia.
    + rewrite !lookup_ge_None_2; [done|lia..].
  - destruct Hg1 as [Hl1 _], Hg2 as [Hl2 _]. unfold len in *.
    rewrite !lookup_ge_None_2; [done|lia..].
Qed.

(** X3. With [tile = 1] the coarse grid is the mask itself. *)
Theorem downscale_any_tile_1 (mask : Mask) (w h : Z) :
  is_grid mask w h → (h = 0 → w = 0) →
  downscale_any mask 1 = Ok (mask, w, h).
Proof.
  intros Hg Hw.
  destruct (downscale_any_ok mask w h 1 Hg Hw)
    as (small & sw & sh & Hrun & Hsw & Hsh & Hsmall & Hcells); [lia|].
  assert (sw = w) as -> by (unfold is_ceil_div in Hsw; lia).
  assert (sh = h) as -> by (unfold is_ceil_div in Hsh; lia).
  rewrite Hrun. do 2 f_equal. f_equal.
  apply (grid_ext _ _ w h); [done..|]. intros x y Hx Hy.
  specialize (Hcells x y Hx Hy).
  destruct (cell mask x y) eqn:Hm.
  - apply Hcells. exists x, y. split; [|done]. unfold in_block. lia.
  - apply not_true_is_false. intros Hs.
    apply Hcells in Hs as (x' & y' & [Hx' Hy'] & Hc).
    assert (x' = x) as -> by lia. assert (y' = y) as -> by lia. congruence.
Qed.

Lemma cell_blank_false (sw sh x y : Z) :
  cell ((λ _, repeat_list false sw) <$> range sh) x y = false.
Proof.
  unfold cell, grid_get. destruct ((0 <=? x) && (0 <=? y)); [|done].
  rewrite list_lookup_fmap. destruct (range sh !! Z.to_nat y); [|done].
  simpl. unfold repeat_list.
  destruct (replicate (Z.to_nat sw) false !! Z.to_nat x) as [b|] eqn:Hb; [|done].
  apply lookup_replicate in Hb as [-> _]. done.
Qed.

Lemma block_any_empty (mask : Mask) (y0 y1 x0 x1 : Z) :
  y1 ≤ y0 → block_any mask y0 y1 x0 x1 = Ok false.
Proof.
  intros Hy. unfold block_any, range2. by rewrite (seqZ_nil y0) by lia.
Qed.

(** X4. [downscale_any] does not check the tile size itself. A tile of 0
    raises [ZeroDivisionError]; with a negative tile every block is empty,
    no pixel of the mask is read, and the call returns a grid without
    any occupied cell, whatever the mask. *)
Theorem downscale_any_nonpositive_tile (mask : Mask) (tile : Z) :
  tile ≤ 0 →
  (tile = 0 ∧ downscale_any mask tile = Raise ZeroDivisionError) ∨
  (tile < 0 ∧
   ∃ small sw sh, downscale_any mask tile = Ok (small, sw, sh) ∧
     ∀ x y, cell small x y = false).
Proof.
  intros Htile. unfold downscale_any.
  assert (∃ w, (if len mask =? 0 then Ok 0
                else row0 ← getitem mask 0; Ok (len row0)) = Ok w)
    as [w ->].
  { destruct (Z.eqb_spec (len mask) 0); [by exists 0|].
    destruct mask as [|row0 mask]; [done|]. by exists (len row0). }
  simpl. unfold floordiv.
  destruct (Z.eqb_spec tile 0) as [->|Hnz]; [by left|]. right.
  split; [lia|]. simpl.
  set (sw := (w + tile - 1) `div` tile).
  set (sh := (len mask + tile - 1) `div` tile).
  set (blank := (λ _, repeat_list false sw) <$> range sh).
  assert (∀ s, (∀ x y, cell s x y = false) →
            (is_grid s sw sh ∨ sw ≤ 0) →
            ∀ sy, 0 ≤ sy < sh →
            ∃ s', downscale_row mask tile w (len mask) sw sy s = Ok s' ∧
              (∀ x y, cell s' x y = false) ∧ (is_grid s' sw sh ∨ sw ≤ 0))
    as Hrow.
  { intros s Hs Hshape sy Hsy. unfold downscale_row.
    destruct (decide (sw ≤ 0)) as [Hsw|Hsw].
    { unfold range. rewrite seqZ_nil by done. exists s. simpl. auto. }
    destruct Hshape as [Hgrid|?]; [|lia].
    apply (for_range_invariant
             (λ _ s', (∀ x y, cell s' x y = false) ∧ (is_grid s' sw sh ∨ sw ≤ 0)));
      [lia|auto|].
    intros sx s0 Hsx [Hs0 [Hg0|?]]; [|lia].
    rewrite block_any_empty by nia. simpl.
    destruct (setitem2_grid s0 sw sh sx sy false Hg0) as (s1 & -> & Hg1 & Hc1);
      [lia..|].
    exists s1. split; [done|]. split; [|by left].
    intros x y. rewrite Hc1. by case_decide. }
  destruct (decide (0 ≤ sh)) as [Hsh|Hsh].
  - destruct (for_range_invariant
      (λ _ s, (∀ x y, cell s x y = false) ∧ (is_grid s sw sh ∨ sw ≤ 0))
      (downscale_row mask tile w (len mask) sw) sh blank)
      as (small & -> & Hfalse & _); [done| |by intros; apply Hrow; tauto|].
    + split; [apply cell_blank_false|].
      destruct (decide (sw ≤ 0)); [by right|left].
      apply is_grid_blank; lia.
    + simpl. by exists small, sw, sh.
  - unfold blank, range. rewrite seqZ_nil by lia. simpl.
    exists [], sw, sh. split; [done|]. intros x y.
    unfold cell, grid_get. by destruct ((0 <=? x) && (0 <=? y)).
Qed.

(** ** ComponentFinder: components are the 8-connectivity classes *)

Lemma reachable_sym (small : Mask) (c c' : Cell) :
  occupied small c → reachable small c c' → reachable small c' c.
Proof.
  intros Hoc Hreach. induction Hreach as [|a b c' [Hadj Hb] _ IH]; [apply rtc_refl|].
  apply rtc_r with b; [by apply IH|]. split; [by apply adjacent_sym|done].
Qed.

Lemma closed_reachable (small : Mask) (K : list Cell) (c c' : Cell) :
  closed small K → c ∈ K → reachable small c c' → c' ∈ K.
Proof.
  intros Hclosed Hc Hreach. induction Hreach as [|a b c' [Hadj Hb] _ IH]; [done|].
  apply IH. by apply (Hclosed a b).
Qed.

(** X5. Two occupied cells lie in the same component exactly when a path of
    8-adjacent occupied cells joins them: the components are connected
    and maximal. *)
Theorem flood_components_8_connected (small : Mask) (sw sh : Z) (fuel : nat) :
  is_grid small sw sh → sw * sh ≤ Z.of_nat fuel →
  ∃ comps, flood_components_8 fuel small = Ok comps ∧
    ∀ c c', occupied small c → occupied small c' →
      ((∃ K, K ∈ comps ∧ c ∈ K ∧ c' ∈ K) ↔ reachable small c c').
Proof.
  intros Hg Hfuel.
  destruct (flood_components_8_ok small sw sh fuel Hg Hfuel)
    as (comps & Hrun & _ & Hcover & Hok & _).
  exists comps. split; [done|]. intros c c' Hoc Hoc'. split.
  - intros (K & HK & Hc & Hc').
    destruct (Hok K HK) as (_ & seed & rest & -> & _ & _ & Hreach).
    assert (occupied small seed) as Hseed.
    { apply Hcover, elem_of_concat. exists (seed :: rest). split; [by left|done]. }
    unfold reachable. eapply rtc_trans; [|by apply Hreach].
    apply reachable_sym; [done|]. by apply Hreach.
  - intros Hreach. apply Hcover, elem_of_concat in Hoc as (K & Hc & HK).
    exists K. split; [done|]. split; [done|].
    destruct (Hok K HK) as [Hclosed _]. by apply (closed_reachable small K c).
Qed.

(** X6. No component is empty, every cell of a component lies inside the
    grid, and the result is empty exactly when the grid has no occupied
    cell. *)
Theorem flood_components_8_nonempty (small : Mask) (sw sh : Z) (fuel : nat) :
  is_grid small sw sh → sw * sh ≤ Z.of_nat fuel →
  ∃ comps, flood_components_8 fuel small = Ok comps ∧
    (∀ K, K ∈ comps → K ≠ [] ∧ ∀ c, c ∈ K → 0 ≤ c.1 < sw ∧ 0 ≤ c.2 < sh) ∧
    (comps = [] ↔ ∀ c, ¬ occupied small c).
Proof.
  intros Hg Hfuel.
  destruct (flood_components_8_ok small sw sh fuel Hg Hfuel)
    as (comps & Hrun & _ & Hcover & Hok & _).
  exists comps. split; [done|]. split.
  - intros K HK. split.
    + destruct (Hok K HK) as (_ & seed & rest & -> & _). done.
    + intros c Hc. apply (occupied_in_grid small); [done|].
      apply Hcover, elem_of_concat. eauto.
  - split.
    + intros -> c Hoc. apply Hcover in Hoc. by apply elem_of_nil in Hoc.
    + intros Hnone. destruct comps as [|K comps]; [done|]. exfalso.
      destruct (Hok K) as (_ & seed & rest & -> & _); [by left|].
      apply (Hnone seed), Hcover, elem_of_concat.
      exists (seed :: rest). split; by left.
Qed.

(** ** ComponentSorter: failures *)

Lemma mapM_raise {A B} (f : A → res B) (e : exn) (l : list A) :
  (∀ a, a ∈ l → f a = Raise e ∨ ∃ b, f a = Ok b) →
  (∃ a, a ∈ l ∧ f a = Raise e) →
  mapM f l = Raise e.
Proof.
  induction l as [|a l IH]; intros Hall (a0 & Hin & Ha0).
  - by apply elem_of_nil in Hin.
  - simpl. destruct (Hall a) as [Ha|[b Hb]]; [by left|by rewrite Ha|].
    rewrite Hb. simpl. rewrite IH; [done| |].
    + intros a' Ha'. apply Hall. by right.
    + apply elem_of_cons in Hin as [->|Hin]; [congruence|]. eauto.
Qed.

Lemma sort_components_unknown_mode (comps : list (list Cell)) (mode : string) :
  mode ∉ sort_choices → sort_components comps mode = Raise ValueError.
Proof.
  intros Hmode. unfold sort_components, sort_choices in *.
  destruct (String.eqb_spec mode "none") as [->|_].
  { destruct Hmode. by left. }
  destruct (String.eqb_spec mode "topleft") as [->|_].
  { destruct Hmode. right. by left. }
  destruct (String.eqb_spec mode "size") as [->|_]; [|done].
  destruct Hmode. do 2 right. by left.
Qed.

(** X7. The bounding-box key of an empty component does not exist: mode
    [topleft] raises [ValueError] on a list that holds an empty
    component, while modes [none] and [size] still return. *)
Theorem sort_components_empty_component (comps : list (list Cell)) :
  [] ∈ comps →
  sort_components comps "topleft" = Raise ValueError ∧
  sort_components comps "none" = Ok comps ∧
  ∃ out, sort_components comps "size" = Ok out ∧ out ≡ₚ comps.
Proof.
  intros Hin. split; [|split; [done|]].
  - unfold sort_components. simpl. unfold sorted_.
    rewrite (mapM_raise bbox_key ValueError); [done| |by exists []].
    intros K _. destruct (decide (K = [])) as [->|HK]; [by left|right].
    destruct (bbox_key_spec K HK) as (? & ? & ? & ? & -> & _). eauto.
  - destruct (sort_size_ok comps) as (out & ? & ? & _). eauto.
Qed.

(** ** The pipeline: filter, sprites and foreground pixels *)

Lemma concat_Permutation {A} (l l' : list (list A)) :
  l ≡ₚ l' → concat l ≡ₚ concat l'.
Proof.
  induction 1 as [|x l l' _ IH|x y l|l l' l'' _ IH1 _ IH2]; simpl.
  - done.
  - by rewrite IH.
  - rewrite !app_assoc. f_equiv. apply Permutation_app_comm.
  - by rewrite IH1.
Qed.

Lemma NoDup_concat_filter {A} (P : list A → Prop) `{∀ x, Decision (P x)}
    (l : list (list A)) :
  NoDup (concat l) → NoDup (concat (filter P l)).
Proof.
  induction l as [|x l IH]; simpl; [done|]. intros Hnd.
  apply NoDup_app in Hnd as (Hx & Hdisj & Hl).
  rewrite filter_cons. case_decide; [|by apply IH]. simpl.
  apply NoDup_app. split; [done|]. split; [|by apply IH].
  intros a Ha Ha'. apply (Hdisj a Ha).
  apply elem_of_concat in Ha' as (k & Hak & Hk).
  apply list_elem_of_filter in Hk as [_ Hk]. apply elem_of_concat. eauto.
Qed.

(** The stages before the filter, one by one. *)
Lemma pipeline_stages (img : Image) (tile : Z) (fuel : nat) :
  wf_image img → 1 ≤ tile → im_w img * im_h img ≤ Z.of_nat fuel →
  ∃ m small sw sh comps0,
    foreground_mask img = Ok m ∧ is_grid m (im_w img) (im_h img) ∧
    downscale_any m tile = Ok (small, sw, sh) ∧ is_grid small sw sh ∧
    (∀ x y, 0 ≤ x < im_w img → 0 ≤ y < im_h img → cell m x y = true →
       occupied small (x `div` tile, y `div` tile)) ∧
    (∀ c, occupied small c →
       0 ≤ c.1 ∧ c.1 * tile < im_w img ∧ 0 ≤ c.2 ∧ c.2 * tile < im_h img) ∧
    (∀ c, occupied small c →
       ∃ x y, 0 ≤ x < im_w img ∧ 0 ≤ y < im_h img ∧
         x `div` tile = c.1 ∧ y `div` tile = c.2 ∧ cell m x y = true) ∧
    is_ceil_div sh (im_h img) tile ∧
    is_ceil_div sw (if im_h img =? 0 then 0 else im_w img) tile ∧
    sw * sh ≤ im_w img * im_h img ∧
    flood_components_8 fuel small = Ok comps0 ∧
    NoDup (concat comps0) ∧
    (∀ c, c ∈ concat comps0 ↔ occupied small c) ∧
    (∀ K, K ∈ comps0 → K ≠ []) ∧
    ∀ sort_mode min_cells,
      find_components fuel img tile sort_mode min_cells =
        (comps ← sort_components
                   (filter (λ c, min_cells ≤ len c) comps0) sort_mode;
         Ok (m, sw, sh, comps)).
Proof.
  intros Hwf Htile Hfuel. pose proof Hwf as (Hw & Hh & _).
  destruct (foreground_mask_ok img Hwf) as (m & bg & _ & Hm & Hg & _).
  set (w' := if im_h img =? 0 then 0 else im_w img).
  assert (is_grid m w' (im_h img)) as Hg'.
  { unfold w'. destruct (Z.eqb_spec (im_h img) 0) as [Hz|]; [|done].
    destruct Hg as [Hlen _]. rewrite Hz in *. destruct m; [|done].
    split; [done|]. apply Forall_nil_2. }
  assert (0 ≤ w' ≤ im_w img) as Hw'.
  { unfold w'. destruct (im_h img =? 0); lia. }
  assert (im_h img ≠ 0 → w' = im_w img) as Hweq.
  { intros Hnz. unfold w'. by destruct (Z.eqb_spec (im_h img) 0). }
  destruct (downscale_any_ok m w' (im_h img) tile Hg') as
    (small & sw & sh & Hds & Hsw & Hsh & Hsmall & Hcells); [|done|].
  { unfold w'. intros ->. done. }
  assert (0 ≤ sw ≤ w' ∧ 0 ≤ sh ≤ im_h img) as Hdims.
  { unfold is_ceil_div in *. split; nia. }
  assert (sw * sh ≤ im_w img * im_h img) as Hsize by nia.
  destruct (flood_components_8_ok small sw sh fuel Hsmall)
    as (comps0 & Hflood & Hnd & Hcover & Hok & _); [lia|].
  exists m, small, sw, sh, comps0. repeat (split; [done|]). split.
  { intros x y Hx Hy Hpix. rewrite Hweq in * by lia.
    pose proof (Z.div_mod x tile) as Hdx. pose proof (Z.mod_pos_bound x tile) as Hmx.
    pose proof (Z.div_mod y tile) as Hdy. pose proof (Z.mod_pos_bound y tile) as Hmy.
    unfold occupied, at_. simpl. apply Hcells.
    - unfold is_ceil_div in *. nia.
    - unfold is_ceil_div in *. nia.
    - exists x, y. split; [|done]. unfold in_block. nia. }
  split.
  { intros c Hoc. apply (occupied_in_grid small sw sh) in Hoc; [|done].
    rewrite Hweq in * by (unfold is_ceil_div in *; nia).
    unfold is_ceil_div in *. nia. }
  split.
  { intros [sx sy] Hoc.
    pose proof (occupied_in_grid small sw sh _ Hsmall Hoc) as [Hsx Hsy].
    simpl in Hsx, Hsy.
    rewrite Hweq in * by (unfold is_ceil_div in *; nia).
    apply Hcells in Hoc as (x & y & [Hbx Hby] & Hpix); [|done..].
    exists x, y. simpl in *.
    assert (x `div` tile = sx) as Hdx.
    { symmetry. apply (Z.div_unique x tile sx (x - sx * tile)); lia. }
    assert (y `div` tile = sy) as Hdy.
    { symmetry. apply (Z.div_unique y tile sy (y - sy * tile)); lia. }
    repeat split; try done; nia. }
  split; [done|]. split; [done|].
  split; [done|]. split; [done|]. split; [done|]. split; [done|]. split.
  { intros K HK. destruct (Hok K HK) as (_ & seed & rest & -> & _). done. }
  intros sort_mode min_cells. unfold find_components.
  rewrite Hm. simpl. rewrite Hds. simpl. by rewrite Hflood.
Qed.

(** X8. The size filter between the flood fill and the sorter: the sprites'
    components are exactly the flood fill's components of at least
    [min_cells] cells, each as often as the flood fill found it; mode
    [none] keeps them in discovery order, and a threshold of 1 or less
    drops nothing. *)
Theorem find_components_filter (img : Image) (tile : Z) (sort_mode : string)
    (min_cells : Z) (fuel : nat) :
  wf_image img → 1 ≤ tile → sort_mode ∈ sort_choices →
  im_w img * im_h img ≤ Z.of_nat fuel →
  ∃ m small sw sh comps0 comps,
    foreground_mask img = Ok m ∧
    downscale_any m tile = Ok (small, sw, sh) ∧
    flood_components_8 fuel small = Ok comps0 ∧
    find_components fuel img tile sort_mode min_cells = Ok (m, sw, sh, comps) ∧
    comps ≡ₚ filter (λ K, min_cells ≤ len K) comps0 ∧
    (∀ K, K ∈ comps ↔ K ∈ comps0 ∧ min_cells ≤ len K) ∧
    (sort_mode = "none"%string → comps = filter (λ K, min_cells ≤ len K) comps0) ∧
    (min_cells ≤ 1 → comps ≡ₚ comps0).
Proof.
  intros Hwf Htile Hmode Hfuel.
  destruct (pipeline_stages img tile fuel Hwf Htile Hfuel)
    as (m & small & sw & sh & comps0 & Hm & _ & Hds & _ & _ & _ & _ & _ & _
        & _ & Hflood & _ & _ & Hne & Hrun).
  destruct (sort_components_perm (filter (λ K, min_cells ≤ len K) comps0) sort_mode)
    as (comps & Hsort & Hperm); [|done|].
  { apply Forall_forall. intros K HK.
    apply list_elem_of_filter in HK as [_ HK]. by apply Hne. }
  exists m, small, sw, sh, comps0, comps. repeat (split; [done|]). split.
  { by rewrite Hrun, Hsort. }
  split; [done|]. split.
  { intros K. rewrite Hperm, list_elem_of_filter. tauto. }
  split.
  { intros ->. unfold sort_components in Hsort. simpl in Hsort.
    by injection Hsort as <-. }
  intros Hmin. rewrite Hperm.
  assert (Forall (λ K, min_cells ≤ len K) comps0) as Hall.
  { apply Forall_forall. intros K HK. specialize (Hne K HK).
    unfold len. destruct K; [done|]. simpl. lia. }
  clear -Hall. induction Hall as [|K l HK _ IH]; [done|].
  rewrite filter_cons_True by done. by rewrite IH.
Qed.

(** The crop box of a component contains the block of each of its cells,
    cut at the right and bottom edges of the image. *)
Lemma crop_box_covers (K : list Cell) (tile w h : Z) :
  1 ≤ tile → K ≠ [] →
  ∃ bbox x0 y0 x1 y1,
    coarse_bbox K = Ok bbox ∧ crop_box_of bbox tile w h = (x0, y0, x1, y1) ∧
    ∀ c, c ∈ K →
      x0 ≤ c.1 * tile ∧ Z.min ((c.1 + 1) * tile) w ≤ x1 ∧
      y0 ≤ c.2 * tile ∧ Z.min ((c.2 + 1) * tile) h ≤ y1.
Proof.
  intros Htile HK. unfold coarse_bbox.
  assert (K.*1 ≠ []) as H1 by (by destruct K).
  assert (K.*2 ≠ []) as H2 by (by destruct K).
  destruct (min_spec _ H1) as (sx0 & -> & [_ Hminx]),
    (min_spec _ H2) as (sy0 & -> & [_ Hminy]),
    (max_spec _ H1) as (mx & -> & [_ Hmaxx]),
    (max_spec _ H2) as (my & -> & [_ Hmaxy]).
  simpl. eexists _, _, _, _, _. split; [done|]. split; [done|].
  intros c Hc.
  assert (c.1 ∈ K.*1) as Hc1 by (apply list_elem_of_fmap; eauto).
  assert (c.2 ∈ K.*2) as Hc2 by (apply list_elem_of_fmap; eauto).
  pose proof (Hminx _ Hc1). pose proof (Hminy _ Hc2).
  pose proof (Hmaxx _ Hc1). pose proof (Hmaxy _ Hc2).
  assert ((c.1 + 1) * tile ≤ (mx + 1) * tile) by nia.
  assert ((c.2 + 1) * tile ≤ (my + 1) * tile) by nia.
  assert (sx0 * tile ≤ c.1 * tile) by nia.
  assert (sy0 * tile ≤ c.2 * tile) by nia. lia.
Qed.

(** X9. No pixel is kept by two sprites of a sheet, and with the default
    threshold ([min_cells <= 1]) every foreground pixel of the sheet
    lies in the crop box of a sprite that keeps it. *)
Theorem foreground_pixel_in_one_sprite (img : Image) (tile : Z)
    (sort_mode : string) (min_cells : Z) (fuel : nat) :
  wf_image img → 1 ≤ tile → sort_mode ∈ sort_choices →
  im_w img * im_h img ≤ Z.of_nat fuel →
  ∃ m sw sh comps,
    find_components fuel img tile sort_mode min_cells = Ok (m, sw, sh, comps) ∧
    (∀ (i j : nat) Ki Kj x0 y0 px py x0' y0' px' py',
       comps !! i = Some Ki → comps !! j = Some Kj →
       x0 + px = x0' + px' → y0 + py = y0' + py' →
       kept m (list_to_set Ki) tile x0 y0 px py →
       kept m (list_to_set Kj) tile x0' y0' px' py' → i = j) ∧
    (min_cells ≤ 1 →
     ∀ gx gy, 0 ≤ gx < im_w img → 0 ≤ gy < im_h img → cell m gx gy = true →
       ∃ (i : nat) K bbox x0 y0 x1 y1,
         comps !! i = Some K ∧ coarse_bbox K = Ok bbox ∧
         crop_box_of bbox tile (im_w img) (im_h img) = (x0, y0, x1, y1) ∧
         x0 ≤ gx < x1 ∧ y0 ≤ gy < y1 ∧
         kept m (list_to_set K) tile x0 y0 (gx - x0) (gy - y0)).
Proof.
  intros Hwf Htile Hmode Hfuel.
  destruct (pipeline_stages img tile fuel Hwf Htile Hfuel)
    as (m & small & sw & sh & comps0 & Hm & _ & Hds & _ & Hpix & _ & _ & _ & _
        & _ & Hflood & Hnd & Hcover & Hne & Hrun).
  destruct (sort_components_perm (filter (λ K, min_cells ≤ len K) comps0) sort_mode)
    as (comps & Hsort & Hperm); [|done|].
  { apply Forall_forall. intros K HK.
    apply list_elem_of_filter in HK as [_ HK]. by apply Hne. }
  exists m, sw, sh, comps. split; [by rewrite Hrun, Hsort|]. split.
  - assert (NoDup (concat comps)) as Hnd'.
    { rewrite (concat_Permutation _ _ Hperm). by apply NoDup_concat_filter. }
    destruct (NoDup_concat_inv comps Hnd') as [_ Huniq].
    intros i j Ki Kj x0 y0 px py x0' y0' px' py' Hi Hj Hx Hy [Hin _] [Hin' _].
    rewrite <- Hx, <- Hy in Hin'.
    apply elem_of_list_to_set in Hin, Hin'. by eapply Huniq.
  - intros Hmin gx gy Hx Hy Hfg.
    pose proof (Hpix gx gy Hx Hy Hfg) as Hoc.
    apply Hcover, elem_of_concat in Hoc as (K & HcK & HK).
    assert (K ∈ comps) as HK'.
    { rewrite Hperm. apply list_elem_of_filter. split; [|done].
      specialize (Hne K HK). unfold len. destruct K; [done|]. simpl. lia. }
    apply list_elem_of_lookup_1 in HK' as [i Hi].
    destruct (crop_box_covers K tile (im_w img) (im_h img) Htile (Hne K HK))
      as (bbox & x0 & y0 & x1 & y1 & Hbbox & Hbox & Hcov).
    exists i, K, bbox, x0, y0, x1, y1. repeat (split; [done|]).
    specialize (Hcov _ HcK). simpl in Hcov.
    pose proof (Z.div_mod gx tile) as Hdx. pose proof (Z.mod_pos_bound gx tile) as Hmx.
    pose proof (Z.div_mod gy tile) as Hdy. pose proof (Z.mod_pos_bound gy tile) as Hmy.
    split; [nia|]. split; [nia|].
    unfold kept. replace (x0 + (gx - x0)) with gx by lia.
    replace (y0 + (gy - y0)) with gy by lia.
    split; [by apply elem_of_list_to_set|done].
Qed.

(** X11. [extract_sprites] called with a sort mode that [sort_components]
    does not know: the mode is met only after the output directory has
    been created and the sheet opened and analysed; the call raises
    [ValueError] and no sprite is saved. *)
Theorem extract_sprites_unknown_sort (env : Env) (fuel : nat)
    (in_path out_dir : string) (tile : Z) (sort_mode : string)
    (min_cells : Z) (label : bool) (img : Image) (tr0 : list event) :
  cooperative env in_path out_dir img → 1 ≤ tile →
  im_w img * im_h img ≤ Z.of_nat fuel →
  sort_mode ∉ sort_choices →
  extract_sprites env fuel in_path out_dir tile sort_mode min_cells label tr0 =
    (Raise ValueError, tr0 ++ [EvMakedirs out_dir; EvOpenImage in_path]).
Proof.
  intros (Hopen & Hwf & Hmk & _) Htile Hfuel Hmode.
  destruct (pipeline_stages img tile fuel Hwf Htile Hfuel)
    as (m & small & sw & sh & comps0 & _ & _ & _ & _ & _ & _ & _ & _ & _ & _
        & _ & _ & _ & _ & Hrun).
  unfold extract_sprites.
  erewrite io_bind_ok;
    [|unfold os_makedirs, emit, mbind, io_bind; rewrite Hmk; reflexivity].
  erewrite io_bind_ok;
    [|unfold Image_open, emit, mbind, io_bind; rewrite Hopen; reflexivity].
  cbv zeta.
  erewrite io_bind_raise;
    [|unfold lift; rewrite Hrun, sort_components_unknown_mode by done;
      reflexivity].
  by rewrite <- app_assoc.
Qed.

(** ** The sprites and the descriptor *)

Lemma enumerate_lookup {A} (l : list A) (i : nat) (sid : Z) (a : A) :
  enumerate l !! i = Some (sid, a) ↔ sid = Z.of_nat i ∧ l !! i = Some a.
Proof.
  unfold enumerate, range. rewrite lookup_zip_with_Some. split.
  - intros (x & y & Heq & Hx & Hy). simplify_eq.
    apply lookup_seqZ in Hx as [-> _]. split; [lia|done].
  - intros [-> Ha]. exists (Z.of_nat i), a. split; [done|]. split; [|done].
    apply lookup_seqZ. split; [lia|].
    apply lookup_lt_Some in Ha. unfold len. lia.
Qed.

Lemma length_enumerate {A} (l : list A) : length (enumerate l) = length l.
Proof.
  unfold enumerate, range. rewrite length_zip_with, length_seqZ.
  unfold len. lia.
Qed.

(** A run of [extract_sprites] in a cooperative environment, in full:
    the trace, the descriptor, and for each component its record and
    its saved image. *)
Lemma extract_sprites_run (env : Env) (fuel : nat) (in_path out_dir : string)
    (tile : Z) (sort_mode : string) (min_cells : Z) (label : bool)
    (img : Image) (tr0 : list event) :
  cooperative env in_path out_dir img →
  1 ≤ tile → sort_mode ∈ sort_choices →
  im_w img * im_h img ≤ Z.of_nat fuel →
  ∃ m sw sh comps sprites saves,
    find_components fuel img tile sort_mode min_cells = Ok (m, sw, sh, comps) ∧
    extract_sprites env fuel in_path out_dir tile sort_mode min_cells label tr0
      = (Ok ({| atlas_meta := {|
                  meta_source := path_basename env in_path;
                  meta_image_w := im_w img; meta_image_h := im_h img;
                  meta_tile := tile; meta_mask_w := sw; meta_mask_h := sh;
                  meta_count := len sprites |};
                atlas_sprites := sprites |}, sprites),
         tr0 ++ [EvMakedirs out_dir; EvOpenImage in_path] ++ saves) ∧
    length sprites = length comps ∧ length saves = length comps ∧
    ∀ (i : nat) K, comps !! i = Some K →
      ∃ r saved, sprites !! i = Some r ∧ saves !! i = Some saved ∧
        sprite_entry env out_dir img m tile label i K r saved.
Proof.
  intros (Hopen & Hwf & Hmk & Hwr) Htile Hmode Hfuel.
  destruct (pipeline_sprites_ok img tile sort_mode min_cells fuel)
    as (m & sw & sh & comps & Hrun & _ & Hg & Hsprites); [done..|].
  exists m, sw, sh, comps. unfold extract_sprites.
  erewrite io_bind_ok;
    [|unfold os_makedirs, emit, mbind, io_bind; rewrite Hmk; reflexivity].
  erewrite io_bind_ok;
    [|unfold Image_open, emit, mbind, io_bind; rewrite Hopen; reflexivity].
  cbv zeta. change (im_w (convert_RGBA img)) with (im_w img).
  change (im_h (convert_RGBA img)) with (im_h img).
  erewrite io_bind_ok; [|unfold lift; rewrite Hrun; reflexivity].
  set (tr1 := (tr0 ++ [EvMakedirs out_dir]) ++ [EvOpenImage in_path]).
  destruct (for_io_invariant
    (λ done (sprites : list SpriteRecord) tr,
       ∃ saves, tr = tr1 ++ saves ∧
         length sprites = length done ∧ length saves = length done ∧
         ∀ (i : nat) K, (i < length done)%nat → comps !! i = Some K →
           ∃ r saved, sprites !! i = Some r ∧ saves !! i = Some saved ∧
             sprite_entry env out_dir img m tile label i K r saved)
    (extract_one env out_dir (convert_RGBA img) m tile (im_w img) (im_h img) label)
    (enumerate comps) [] tr1)
    as (sprites & tr2 & Hloop & saves & -> & Hlen1 & Hlen2 & Hall).
  - exists []. rewrite app_nil_r. repeat (split; [done|]).
    intros i K Hi. simpl in Hi. lia.
  - intros done [sid cells] rest sprites tr Hsplit
      (saves & -> & Hlen1 & Hlen2 & Hall).
    assert (enumerate comps !! length done = Some (sid, cells)) as Hat.
    { rewrite Hsplit. by apply list_lookup_middle. }
    apply enumerate_lookup in Hat as [-> Hcells].
    destruct (Hsprites cells (list_elem_of_lookup_2 _ _ _ Hcells))
      as (bbox & x0 & y0 & x1 & y1 & out & Hbbox & Hbox & Hin & Hout
          & Hwo & Hho & _).
    unfold extract_one.
    erewrite io_bind_ok; [|unfold lift; rewrite Hbbox; reflexivity].
    destruct bbox as [[[sx0 sy0] sx1] sy1]. rewrite Hbox.
    erewrite io_bind_ok; [|unfold lift; rewrite Hout; reflexivity].
    eexists _, _. split.
    { unfold Image_save, emit, mbind, io_bind, mret, io_ret.
      rewrite Hwr. reflexivity. }
    eexists. split; [by rewrite <- app_assoc|].
    rewrite !length_app. simpl. split; [lia|]. split; [lia|].
    intros i K Hi HK.
    destruct (decide (i < length done)%nat) as [Hlt|Hge].
    + destruct (Hall i K Hlt HK) as (r & saved & Hr & Hs & Hentry).
      exists r, saved. rewrite !lookup_app_l by lia. done.
    + assert (i = length done) as -> by lia. rewrite Hcells in HK.
      injection HK as <-. eexists _, _.
      split; [by apply list_lookup_middle|].
      split; [by apply list_lookup_middle|].
      unfold crop_box_of in Hbox. injection Hbox as <- <- Hx1 Hy1.
      unfold sprite_entry. simpl.
      replace (sx0 + (sx1 - sx0)) with sx1 by lia.
      replace (sy0 + (sy1 - sy0)) with sy1 by lia.
      replace (sx0 * tile + (x1 - sx0 * tile)) with x1 by lia.
      replace (sy0 * tile + (y1 - sy0 * tile)) with y1 by lia.
      repeat (split; [done || lia|]).
      exists out. repeat (split; [done|]). done.
  - erewrite io_bind_ok; [|exact Hloop]. unfold mret, io_ret.
    rewrite length_enumerate in Hlen1, Hlen2.
    exists sprites, saves. split; [done|]. split.
    { f_equal. unfold tr1. by rewrite <- !app_assoc. }
    split; [done|]. split; [done|].
    intros i K HK. apply Hall; [|done].
    rewrite length_enumerate. by apply lookup_lt_Some in HK.
Qed.

(** X12. The descriptor agrees with the files: the sprite records and the
    saved images correspond one to one, in order, to the sorted
    components; record [i] has identifier [i], names the file of the
    [i]-th save, gives the coarse bounding box of the component and the
    pixel box obtained from it, which is non-empty and inside the sheet,
    and the saved image is the masked crop of exactly that box. *)
Theorem extract_sprites_records (env : Env) (fuel : nat)
    (in_path out_dir : string) (tile : Z) (sort_mode : string)
    (min_cells : Z) (label : bool) (img : Image) (tr0 : list event) :
  cooperative env in_path out_dir img →
  1 ≤ tile → sort_mode ∈ sort_choices →
  im_w img * im_h img ≤ Z.of_nat fuel →
  ∃ m sw sh comps atlas sprites saves,
    find_components fuel img tile sort_mode min_cells = Ok (m, sw, sh, comps) ∧
    extract_sprites env fuel in_path out_dir tile sort_mode min_cells label tr0
      = (Ok (atlas, sprites),
         tr0 ++ [EvMakedirs out_dir; EvOpenImage in_path] ++ saves) ∧
    atlas_sprites atlas = sprites ∧
    length sprites = length comps ∧ length saves = length comps ∧
    ∀ (i : nat) K, comps !! i = Some K →
      ∃ r saved, sprites !! i = Some r ∧ saves !! i = Some saved ∧
        sprite_entry env out_dir img m tile label i K r saved.
Proof.
  intros Hcoop Htile Hmode Hfuel.
  destruct (extract_sprites_run env fuel in_path out_dir tile sort_mode
              min_cells label img tr0 Hcoop Htile Hmode Hfuel)
    as (m & sw & sh & comps & sprites & saves & Hfind & Hrun & Hl1 & Hl2 & Hall).
  eexists m, sw, sh, comps, _, sprites, saves.
  split; [done|]. split; [exact Hrun|]. done.
Qed.

(** X13. The [meta] block of the descriptor: the size of the sheet, the tile
    size, the size of the coarse grid (the ceilings of [h / tile] and,
    for a sheet with at least one row, [w / tile]) and the number of
    sprites, which is the number of components that passed the filter. *)
Theorem extract_sprites_meta (env : Env) (fuel : nat)
    (in_path out_dir : string) (tile : Z) (sort_mode : string)
    (min_cells : Z) (label : bool) (img : Image) (tr0 : list event) :
  cooperative env in_path out_dir img →
  1 ≤ tile → sort_mode ∈ sort_choices →
  im_w img * im_h img ≤ Z.of_nat fuel →
  ∃ m sw sh comps atlas sprites tr,
    find_components fuel img tile sort_mode min_cells = Ok (m, sw, sh, comps) ∧
    extract_sprites env fuel in_path out_dir tile sort_mode min_cells label tr0
      = (Ok (atlas, sprites), tr) ∧
    meta_source (atlas_meta atlas) = path_basename env in_path ∧
    meta_image_w (atlas_meta atlas) = im_w img ∧
    meta_image_h (atlas_meta atlas) = im_h img ∧
    meta_tile (atlas_meta atlas) = tile ∧
    is_ceil_div (meta_mask_h (atlas_meta atlas)) (im_h img) tile ∧
    (im_h img ≠ 0 →
       is_ceil_div (meta_mask_w (atlas_meta atlas)) (im_w img) tile) ∧
    (im_h img = 0 → meta_mask_w (atlas_meta atlas) = 0) ∧
    meta_count (atlas_meta atlas) = len comps ∧
    meta_count (atlas_meta atlas) = len (atlas_sprites atlas).
Proof.
  intros Hcoop Htile Hmode Hfuel.
  destruct (extract_sprites_run env fuel in_path out_dir tile sort_mode
              min_cells label img tr0 Hcoop Htile Hmode Hfuel)
    as (m & sw & sh & comps & sprites & saves & Hfind & Hrun & Hl1 & Hl2 & _).
  destruct Hcoop as (_ & Hwf & _).
  destruct (pipeline_stages img tile fuel Hwf Htile Hfuel)
    as (m' & small & sw' & sh' & comps0 & _ & _ & _ & Hsmall & _ & _ & _ & Hsh
        & Hsw & _ & _ & _ & _ & _ & Hrun').
  pose proof Hfind as Heq. rewrite Hrun' in Heq.
  destruct (sort_components _ sort_mode) as [comps'|]; [|done].
  simpl in Heq. injection Heq as -> -> -> ->.
  eexists m, sw, sh, comps, _, sprites, _.
  split; [done|]. split; [exact Hrun|]. simpl.
  repeat (split; [done|]). split.
  { intros Hnz. by destruct (Z.eqb_spec (im_h img) 0). }
  split.
  { intros Hz. destruct (Z.eqb_spec (im_h img) 0); [|done].
    unfold is_ceil_div in Hsw. nia. }
  unfold len. split; [by rewrite Hl1|done].
Qed.


(** ** Runs of [main] *)

(** X16. A sheet without foreground, or a threshold above the number of
    pixels: no component survives, and [main] still succeeds; it saves
    no sprite and writes a descriptor with an empty sprite list and
    count 0. *)
Theorem main_no_sprites (env : Env) (fuel : nat) (argv : Args) (img : Image) :
  1 ≤ arg_tile argv → 1 ≤ arg_min_cells argv →
  arg_sort argv ∈ sort_choices →
  cooperative env (arg_input argv) (arg_out argv) img →
  im_w img * im_h img ≤ Z.of_nat fuel →
  (∃ m, foreground_mask img = Ok m ∧
     ∀ x y, 0 ≤ x < im_w img → 0 ≤ y < im_h img → cell m x y = false) ∨
  im_w img * im_h img < arg_min_cells argv →
  ∃ atlas,
    main env fuel argv [] =
      (Ok 0,
       [EvMakedirs (arg_out argv); EvOpenImage (arg_input argv);
        EvWriteJson (path_join env (arg_out argv) (arg_atlas argv)) atlas;
        EvPrint ("sprites: " +:+ str_of_int 0);
        EvPrint ("wrote:   " +:+ path_join env (arg_out argv) (arg_atlas argv))]) ∧
    atlas_sprites atlas = [] ∧ meta_count (atlas_meta atlas) = 0.
Proof.
  intros Htile Hmin Hsort Hcoop Hfuel Hnone.
  destruct (extract_sprites_run env fuel (arg_input argv) (arg_out argv)
              (arg_tile argv) (arg_sort argv) (arg_min_cells argv)
              (negb (arg_no_label argv)) img [] Hcoop Htile Hsort Hfuel)
    as (m & sw & sh & comps & sprites & saves & Hfind & Hrun & Hl1 & Hl2 & _).
  pose proof Hcoop as (_ & Hwf & _ & Hwr).
  destruct (pipeline_stages img (arg_tile argv) fuel Hwf Htile Hfuel)
    as (m' & small & sw' & sh' & comps0 & Hm & _ & _ & Hsmall & _ & _ & Hhas & _
        & _ & Hsize & _ & Hnd & Hcover & Hne & Hrun').
  assert (comps = []) as ->.
  { rewrite Hrun' in Hfind.
    destruct (sort_components_perm
                (filter (λ K, arg_min_cells argv ≤ len K) comps0) (arg_sort argv))
      as (comps' & Hsort' & Hperm); [|done|].
    { apply Forall_forall. intros K HK.
      apply list_elem_of_filter in HK as [_ HK]. by apply Hne. }
    rewrite Hsort' in Hfind. simpl in Hfind. injection Hfind as _ _ _ <-.
    apply Permutation_nil_r. rewrite Hperm.
    cut (filter (λ K, arg_min_cells argv ≤ len K) comps0 = []);
      [by intros ->|].
    apply elem_of_nil_inv. intros K HKf.
    apply list_elem_of_filter in HKf as [Hlen HK].
    assert (∀ c, c ∈ K → occupied small c) as Hoc.
    { intros c Hc. apply Hcover, elem_of_concat. eauto. }
    destruct Hnone as [(m0 & Hm0 & Hblank)|Hbig].
    - rewrite Hm in Hm0. injection Hm0 as <-.
      specialize (Hne K HK). destruct K as [|c K]; [done|].
      destruct (Hhas c (Hoc c ltac:(left))) as (x & y & Hx & Hy & _ & _ & Hpix).
      rewrite Hblank in Hpix by done. done.
    - destruct (NoDup_concat_inv comps0 Hnd) as [HndK _].
      pose proof (grid_cells_bound small sw' sh' Hsmall K (HndK K HK)) as Hb.
      assert (len K ≤ sw' * sh'); [|lia].
      apply Hb. intros c Hc. by apply (occupied_in_grid small), Hoc. }
  destruct sprites; [|done]. destruct saves; [|done].
  eexists. split.
  - unfold main.
    erewrite io_bind_ok; [|by apply parse_args_ok].
    destruct (Z.leb_spec (arg_tile argv) 0); [lia|].
    destruct (Z.leb_spec (arg_min_cells argv) 0); [lia|].
    erewrite io_bind_ok; [|exact Hrun]. cbv zeta.
    unfold json_dump_to, print, emit, mbind, io_bind, mret, io_ret.
    rewrite Hwr. reflexivity.
  - split; reflexivity.
Qed.





Lemma StronglySorted_lookup_lt {A} (R : relation A) (l : list A)
    (i j : nat) (x y : A) :
  StronglySorted R l → l !! i = Some x → l !! j = Some y → (i < j)%nat →
  R x y.
Proof.
  intros Hs. revert i j. induction Hs as [|a l Hs IH Hall]; intros i j Hi Hj Hij.
  - done.
  - destruct j as [|j]; [lia|]. simpl in Hj. destruct i as [|i]; simpl in Hi.
    + injection Hi as <-. rewrite Forall_forall in Hall.
      apply Hall. by eapply list_elem_of_lookup_2.
    + apply (IH i j); [done..|lia].
Qed.

(** X14. With [--sort topleft] the records of the descriptor are ordered by
    the top row of their coarse box, then its left column, then its
    bottom row, then its right column. *)
Theorem extract_sprites_topleft_order (env : Env) (fuel : nat)
    (in_path out_dir : string) (tile : Z) (min_cells : Z) (label : bool)
    (img : Image) (tr0 : list event) :
  cooperative env in_path out_dir img → 1 ≤ tile →
  im_w img * im_h img ≤ Z.of_nat fuel →
  ∃ atlas sprites tr,
    extract_sprites env fuel in_path out_dir tile "topleft" min_cells label tr0
      = (Ok (atlas, sprites), tr) ∧
    ∀ (i j : nat) r r', (i < j)%nat →
      sprites !! i = Some r → sprites !! j = Some r' →
      tuple4_le
        (sr_mask_y r, sr_mask_x r,
         sr_mask_y r + sr_mask_h r - 1, sr_mask_x r + sr_mask_w r - 1)
        (sr_mask_y r', sr_mask_x r',
         sr_mask_y r' + sr_mask_h r' - 1, sr_mask_x r' + sr_mask_w r' - 1).
Proof.
  intros Hcoop Htile Hfuel.
  assert ("topleft"%string ∈ sort_choices) as Hmode by (right; left).
  destruct (extract_sprites_run env fuel in_path out_dir tile "topleft"
              min_cells label img tr0 Hcoop Htile Hmode Hfuel)
    as (m & sw & sh & comps & sprites & saves & Hfind & Hrun & Hl1 & _ & Hall).
  destruct Hcoop as (_ & Hwf & _).
  destruct (pipeline_stages img tile fuel Hwf Htile Hfuel)
    as (m' & small & sw' & sh' & comps0 & _ & _ & _ & _ & _ & _ & _ & _
        & _ & _ & _ & _ & _ & Hne & Hrun').
  destruct (sort_topleft_ok (filter (λ K, min_cells ≤ len K) comps0))
    as (out & Hsort & _ & Hsorted & _).
  { apply Forall_forall. intros K HK.
    apply list_elem_of_filter in HK as [_ HK]. by apply Hne. }
  rewrite Hrun', Hsort in Hfind. simpl in Hfind. injection Hfind as _ _ _ <-.
  eexists _, sprites, _. split; [exact Hrun|].
  intros i j r r' Hij Hi Hj.
  destruct (lookup_lt_is_Some_2 out i) as [K HK].
  { rewrite <- Hl1. by apply lookup_lt_Some in Hi. }
  destruct (lookup_lt_is_Some_2 out j) as [K' HK'].
  { rewrite <- Hl1. by apply lookup_lt_Some in Hj. }
  destruct (Hall i K HK) as (r1 & s1 & Hr1 & _ & _ & _ & _ & Hbox & _).
  destruct (Hall j K' HK') as (r2 & s2 & Hr2 & _ & _ & _ & _ & Hbox' & _).
  rewrite Hi in Hr1. injection Hr1 as <-.
  rewrite Hj in Hr2. injection Hr2 as <-.
  destruct (StronglySorted_lookup_lt _ _ i j K K' Hsorted HK HK' Hij)
    as (k & k' & Hk & Hk' & Hle).
  unfold bbox_key in Hk, Hk'. unfold coarse_bbox in Hbox, Hbox'.
  destruct (min_ K.*2), (min_ K.*1), (max_ K.*2), (max_ K.*1); try done.
  destruct (min_ K'.*2), (min_ K'.*1), (max_ K'.*2), (max_ K'.*1); try done.
  simpl in *. simplify_eq. unfold tuple4_le in Hle. lia.
Qed.

(** ** File names of the sprites *)

Lemma str_app_cons (c : ascii) (s t : string) :
  (String c s +:+ t = String c (s +:+ t))%string.
Proof. reflexivity. Qed.

Lemma str_length_app (s t : string) :
  String.length (s +:+ t) = (String.length s + String.length t)%nat.
Proof.
  induction s as [|c s IH]; [done|]. rewrite str_app_cons. simpl. by rewrite IH.
Qed.

Lemma str_app_assoc (s t u : string) :
  (s +:+ (t +:+ u) = (s +:+ t) +:+ u)%string.
Proof.
  induction s as [|c s IH]; [done|]. rewrite !str_app_cons. by rewrite IH.
Qed.

Lemma str_app_inj_r (s1 s2 t : string) :
  (s1 +:+ t = s2 +:+ t)%string → s1 = s2.
Proof.
  revert s2. induction s1 as [|c s1 IH]; intros [|c' s2] Heq.
  - done.
  - apply (f_equal String.length) in Heq.
    rewrite str_app_cons in Heq. simpl in Heq.
    rewrite !str_length_app in Heq. simpl in Heq. lia.
  - apply (f_equal String.length) in Heq.
    rewrite str_app_cons in Heq. simpl in Heq.
    rewrite !str_length_app in Heq. simpl in Heq. lia.
  - rewrite !str_app_cons in Heq. injection Heq as -> Heq.
    f_equal. by apply IH.
Qed.

Lemma lstrip0_pad (k : nat) (d : string) :
  d ≠ ""%string →
  lstrip0 (String.concat "" (replicate k "0"%string) +:+ d) = lstrip0 d.
Proof.
  intros Hd. induction k as [|k IH]; [done|].
  assert (String.concat "" (replicate (S k) "0"%string)
          = String "0" (String.concat "" (replicate k "0"%string))) as ->.
  { destruct k; reflexivity. }
  rewrite str_app_cons. rewrite <- IH.
  destruct (String.concat "" (replicate k "0"%string) +:+ d)%string eqn:Hrest;
    [|done].
  apply (f_equal String.length) in Hrest. rewrite str_length_app in Hrest.
  destruct d; [done|]. simpl in Hrest. lia.
Qed.

Lemma pretty_N_char_nonzero (x : N) :
  x ≠ 0%N → pretty_N_char x ≠ "0"%char.
Proof. intros Hx. unfold pretty_N_char. by repeat case_match. Qed.

(** The decimal digits of a positive number do not start with a zero. *)
Lemma pretty_N_go_head (x : N) (s : string) :
  (0 < x)%N → ∃ c t, pretty_N_go x s = String c t ∧ c ≠ "0"%char.
Proof.
  revert s. induction (N.lt_wf_0 x) as [x _ IH]. intros s Hx.
  rewrite pretty_N_go_step by done.
  destruct (decide (x `div` 10 = 0)%N) as [Hz|Hnz].
  - rewrite Hz, pretty_N_go_0. eexists _, _. split; [done|].
    apply N.div_small_iff in Hz; [|done]. rewrite N.mod_small by done.
    apply pretty_N_char_nonzero. lia.
  - apply IH; [apply N.div_lt; lia|by apply N.neq_0_lt_0].
Qed.

Lemma lstrip0_digits (sid : Z) :
  0 ≤ sid → pretty sid ≠ ""%string ∧ lstrip0 (pretty sid) = pretty sid.
Proof.
  intros Hsid. destruct sid as [|p|p]; [done| |lia].
  unfold pretty, pretty_Z, pretty, pretty_positive, pretty, pretty_N.
  rewrite decide_False by done.
  destruct (pretty_N_go_head (N.pos p) "") as (c & t & -> & Hc); [lia|].
  split; [done|]. simpl. destruct (Ascii.eqb_spec c "0"); done.
Qed.

(** Distinct sprite identifiers get distinct file names, also beyond
    9999, where the zero padding ends. *)
Lemma sprite_filename_inj (a b : Z) :
  0 ≤ a → 0 ≤ b → sprite_filename a = sprite_filename b → a = b.
Proof.
  intros Ha Hb. unfold sprite_filename, str_of_int. cbv zeta. intros Heq.
  apply (inj (String.append "sprite_")) in Heq.
  rewrite !str_app_assoc in Heq. apply str_app_inj_r in Heq.
  apply (f_equal lstrip0) in Heq.
  destruct (lstrip0_digits a Ha) as [Hna Hsa].
  destruct (lstrip0_digits b Hb) as [Hnb Hsb].
  rewrite !lstrip0_pad, Hsa, Hsb in Heq by done.
  by apply (inj pretty).
Qed.

(** X15. No sprite file is written twice in a run: when [os.path.join] maps
    distinct file names of the output directory to distinct paths, the
    saves of a run go to pairwise distinct paths, whatever the number of
    sprites. *)
Theorem saved_files_distinct (env : Env) (fuel : nat)
    (in_path out_dir : string) (tile : Z) (sort_mode : string)
    (min_cells : Z) (label : bool) (img : Image) (tr0 : list event) :
  cooperative env in_path out_dir img →
  1 ≤ tile → sort_mode ∈ sort_choices →
  im_w img * im_h img ≤ Z.of_nat fuel →
  (∀ a b, path_join env out_dir a = path_join env out_dir b → a = b) →
  ∃ atlas sprites saves,
    extract_sprites env fuel in_path out_dir tile sort_mode min_cells label tr0
      = (Ok (atlas, sprites),
         tr0 ++ [EvMakedirs out_dir; EvOpenImage in_path] ++ saves) ∧
    (∀ (i j : nat) p q im im',
       saves !! i = Some (EvSaveImage p im) →
       saves !! j = Some (EvSaveImage q im') → p = q → i = j) ∧
    (∀ (i j : nat) r r',
       sprites !! i = Some r → sprites !! j = Some r' →
       sr_image r = sr_image r' → i = j).
Proof.
  intros Hcoop Htile Hmode Hfuel Hjoin.
  destruct (extract_sprites_run env fuel in_path out_dir tile sort_mode
              min_cells label img tr0 Hcoop Htile Hmode Hfuel)
    as (m & sw & sh & comps & sprites & saves & Hfind & Hrun & Hl1 & Hl2 & Hall).
  eexists _, sprites, saves. split; [exact Hrun|]. split.
  - intros i j p q im im' Hi Hj Hpq.
    destruct (lookup_lt_is_Some_2 comps i) as [K HK].
    { rewrite <- Hl2. by apply lookup_lt_Some in Hi. }
    destruct (lookup_lt_is_Some_2 comps j) as [K' HK'].
    { rewrite <- Hl2. by apply lookup_lt_Some in Hj. }
    destruct (Hall i K HK) as (r1 & s1 & _ & Hs1 & Hentry1).
    destruct (Hall j K' HK') as (r2 & s2 & _ & Hs2 & Hentry2).
    rewrite Hi in Hs1. injection Hs1 as <-.
    rewrite Hj in Hs2. injection Hs2 as <-.
    unfold sprite_entry in Hentry1, Hentry2. cbv zeta in Hentry1, Hentry2.
    destruct Hentry1 as (_ & _ & _ & _ & _ & _ & _ & _ & _ & _ & o1 & Ho1 & _).
    destruct Hentry2 as (_ & _ & _ & _ & _ & _ & _ & _ & _ & _ & o2 & Ho2 & _).
    injection Ho1 as -> _. injection Ho2 as -> _.
    apply Hjoin, sprite_filename_inj in Hpq; lia.
  - intros i j r r' Hi Hj Himg.
    destruct (lookup_lt_is_Some_2 comps i) as [K HK].
    { rewrite <- Hl1. by apply lookup_lt_Some in Hi. }
    destruct (lookup_lt_is_Some_2 comps j) as [K' HK'].
    { rewrite <- Hl1. by apply lookup_lt_Some in Hj. }
    destruct (Hall i K HK) as (r1 & s1 & Hr1 & _ & _ & Himg1 & _).
    destruct (Hall j K' HK') as (r2 & s2 & Hr2 & _ & _ & Himg2 & _).
    rewrite Hi in Hr1. injection Hr1 as <-.
    rewrite Hj in Hr2. injection Hr2 as <-.
    cbv zeta in Himg1, Himg2. rewrite Himg1, Himg2 in Himg.
    apply sprite_filename_inj in Himg; lia.
Qed.

(** ** Instances of the theorems on concrete inputs *)

(** The masking law on the Scenario A sheet, tile 2. *)
Lemma sprite_masking_law_witness :
  wf_image scenario_A_sheet ∧
  1 ≤ 2 ∧
  "topleft" ∈ sort_choices ∧
  im_w scenario_A_sheet * im_h scenario_A_sheet ≤ Z.of_nat 16%nat ∧
  (∃ m sw sh comps,
     find_components 16%nat scenario_A_sheet 2 "topleft" 1 = Ok (m, sw, sh, comps) ∧
     ∀ cells, cells ∈ comps →
       ∃ bbox x0 y0 x1 y1 out,
         coarse_bbox cells = Ok bbox ∧
         crop_box_of bbox 2 (im_w scenario_A_sheet) (im_h scenario_A_sheet) = (x0, y0, x1, y1) ∧
         apply_component_mask (convert_RGBA scenario_A_sheet) m (list_to_set cells) 2
           (x0, y0, x1, y1) = Ok out ∧
         im_w out = x1 - x0 ∧ im_h out = y1 - y0 ∧
         ∀ px py, 0 ≤ px < im_w out → 0 ≤ py < im_h out →
           (alpha_of (pixel_at (im_rgba out) px py) ≠ 0 ↔
              kept m (list_to_set cells) 2 x0 y0 px py ∧
              alpha_of (pixel_at (im_rgba scenario_A_sheet) (x0 + px) (y0 + py)) ≠ 0) ∧
           (¬ kept m (list_to_set cells) 2 x0 y0 px py →
              pixel_at (im_rgba out) px py =
                erased (pixel_at (im_rgba scenario_A_sheet) (x0 + px) (y0 + py))) ∧
           (kept m (list_to_set cells) 2 x0 y0 px py →
              pixel_at (im_rgba out) px py =
                pixel_at (im_rgba scenario_A_sheet) (x0 + px) (y0 + py))).
Proof.
  split; [concrete_image|]. split; [lia|]. split; [by right; left|].
  split; [by vm_compute|].
  apply (sprite_masking_law scenario_A_sheet 2 "topleft" 1 16%nat); [concrete_image|lia|by right; left|by vm_compute].
Defined.

(** The partition property on the coarse grid of Scenario A. *)
Lemma flood_components_8_partition_witness :
  is_grid scenario_A_grid 2 2 ∧
  2 * 2 ≤ Z.of_nat 4%nat ∧
  (∃ comps, flood_components_8 4%nat scenario_A_grid = Ok comps ∧
     (∀ c, occupied scenario_A_grid c →
        ∃ (i : nat) K, comps !! i = Some K ∧ c ∈ K ∧
          ∀ (j : nat) K', comps !! j = Some K' → c ∈ K' → j = i) ∧
     (∀ c, c ∈ concat comps ↔ occupied scenario_A_grid c) ∧
     (∀ K c, K ∈ comps → c ∈ K → occupied scenario_A_grid c) ∧
     (∀ K, K ∈ comps → NoDup K)).
Proof.
  split; [concrete_grid|]. split; [by vm_compute|].
  apply (flood_components_8_partition scenario_A_grid 2 2 4%nat); [concrete_grid|by vm_compute].
Defined.

(** Adjacent cells share a component on the coarse grid of Scenario A. *)
Lemma flood_components_8_adjacent_witness :
  is_grid scenario_A_grid 2 2 ∧
  2 * 2 ≤ Z.of_nat 4%nat ∧
  ((∃ comps, flood_components_8 4%nat scenario_A_grid = Ok comps ∧
      ∀ c c', occupied scenario_A_grid c → occupied scenario_A_grid c' → adjacent c c' →
        ∃ K, K ∈ comps ∧ c ∈ K ∧ c' ∈ K) ∧
   (downscale_any scenario_A_mask 2 = Ok (scenario_A_grid, 2, 2) ∧
    (∀ c, occupied scenario_A_grid c ↔ c = (0, 0) ∨ c = (1, 1)) ∧
    ∀ fuel' : nat, (4 ≤ fuel')%nat →
      flood_components_8 fuel' scenario_A_grid = Ok [[(0, 0); (1, 1)]])).
Proof.
  split; [concrete_grid|]. split; [by vm_compute|].
  apply (flood_components_8_adjacent scenario_A_grid 2 2 4%nat); [concrete_grid|by vm_compute].
Defined.

(** The downscaler on the mask of Scenario A, tile 2. *)
Lemma downscale_any_spec_witness :
  is_grid scenario_A_mask 4 4 ∧
  (4 = 0 → 4 = 0) ∧
  1 ≤ 2 ∧
  (∃ small sw sh,
     downscale_any scenario_A_mask 2 = Ok (small, sw, sh) ∧
     is_ceil_div sw 4 2 ∧ is_ceil_div sh 4 2 ∧
     is_grid small sw sh ∧
     ∀ sx sy, 0 ≤ sx < sw → 0 ≤ sy < sh →
       (getitem2 small sy sx = Ok true ↔
          ∃ x y, in_block 2 4 4 sx sy x y ∧ getitem2 scenario_A_mask y x = Ok true) ∧
       (getitem2 small sy sx = Ok false ↔
          ∀ x y, in_block 2 4 4 sx sy x y → getitem2 scenario_A_mask y x = Ok false)).
Proof.
  split; [concrete_grid|]. split; [lia|]. split; [lia|].
  apply (downscale_any_spec scenario_A_mask 4 4 2); [concrete_grid|lia|lia].
Defined.

(** The sorter on four components, two of them of equal size. *)
Lemma sort_components_spec_witness :
  Forall (λ K, K ≠ []) sorter_input ∧
  (sort_components sorter_input "none" = Ok sorter_input ∧
   (∃ out, sort_components sorter_input "topleft" = Ok out ∧ out ≡ₚ sorter_input ∧
      StronglySorted (λ K K', ∃ k k',
        bbox_key K = Ok k ∧ bbox_key K' = Ok k' ∧ tuple4_le k k') out ∧
      ∀ K, K ∈ out → ∃ miny minx maxy maxx,
        bbox_key K = Ok (miny, minx, maxy, maxx) ∧
        is_min miny K.*2 ∧ is_min minx K.*1 ∧
        is_max maxy K.*2 ∧ is_max maxx K.*1) ∧
   (∃ out, sort_components sorter_input "size" = Ok out ∧ out ≡ₚ sorter_input ∧
      StronglySorted (λ K K', len K' ≤ len K) out ∧
      ∀ n, filter (λ K, len K = n) out = filter (λ K, len K = n) sorter_input)).
Proof.
  split; [by repeat constructor|].
  apply (sort_components_spec sorter_input); by repeat constructor.
Defined.

(** The discovery order on the coarse grid of Scenario A. *)
Lemma flood_components_8_discovery_order_witness :
  is_grid scenario_A_grid 2 2 ∧
  2 * 2 ≤ Z.of_nat 4%nat ∧
  (∃ comps, flood_components_8 4%nat scenario_A_grid = Ok comps ∧
     (∀ K, K ∈ comps → ∃ s, head K = Some s ∧ is_seed K s) ∧
     (∀ (i j : nat) Ki Kj si sj,
        comps !! i = Some Ki → comps !! j = Some Kj →
        is_seed Ki si → is_seed Kj sj →
        ((i < j)%nat ↔ rm_lt si sj)) ∧
     (∀ c, occupied scenario_A_grid c →
        (∀ c', adjacent c c' → ¬ occupied scenario_A_grid c') → [c] ∈ comps)).
Proof.
  split; [concrete_grid|]. split; [by vm_compute|].
  apply (flood_components_8_discovery_order scenario_A_grid 2 2 4%nat); [concrete_grid|by vm_compute].
Defined.

(** A run with [--sort bogus]. *)
Lemma unknown_sort_mode_rejected_witness :
  arg_sort bogus_sort_args ∉ sort_choices ∧
  (main env_scenario_A 16%nat bogus_sort_args [] = (Raise (SystemExit 2), []) ∧
   exit_status (main env_scenario_A 16%nat bogus_sort_args []).1 ≠ 0).
Proof.
  assert (arg_sort bogus_sort_args ∉ sort_choices) as Hbogus.
  { intros Hin. repeat (apply elem_of_cons in Hin as [Hin|Hin]; [done|]).
    by apply elem_of_nil in Hin. }
  split; [exact Hbogus|].
  exact ((unknown_sort_mode_rejected env_scenario_A 16%nat bogus_sort_args)
           Hbogus).
Defined.

(** The mask builder on a sheet without alpha band. *)
Lemma foreground_mask_no_alpha_witness :
  wf_image palette_sheet ∧
  has_alpha_band palette_sheet = false ∧
  ((∀ x y, (x, y) ∈ sample_coords (im_w palette_sheet) (im_h palette_sheet) ↔
      0 ≤ x < im_w palette_sheet ∧ 0 ≤ y < im_h palette_sheet ∧
      (im_w palette_sheet * im_h palette_sheet ≤ 2000000 ∨ (x `mod` 2 = 0 ∧ y `mod` 2 = 0))) ∧
   StronglySorted rm_lt (sample_coords (im_w palette_sheet) (im_h palette_sheet)) ∧
   ∃ bg mask,
     most_common_rgb palette_sheet = Ok bg ∧
     (samples_of palette_sheet = [] → bg = (0, 0, 0)) ∧
     (∀ c, freq c (samples_of palette_sheet) ≤ freq bg (samples_of palette_sheet)) ∧
     (samples_of palette_sheet ≠ [] →
        ∃ pre post, samples_of palette_sheet = pre ++ bg :: post ∧ bg ∉ pre ∧
          ∀ c, c ∈ pre → freq c (samples_of palette_sheet) < freq bg (samples_of palette_sheet)) ∧
     foreground_mask palette_sheet = Ok mask ∧
     is_grid mask (im_w palette_sheet) (im_h palette_sheet) ∧
     ∀ x y, 0 ≤ x < im_w palette_sheet → 0 ≤ y < im_h palette_sheet →
       getitem2 mask y x = Ok (bool_decide (rgb_at palette_sheet x y ≠ bg))).
Proof.
  split; [concrete_image|]. split; [reflexivity|].
  apply (foreground_mask_no_alpha palette_sheet); [concrete_image|reflexivity].
Defined.

(** Crop boxes and masking on the Scenario A sheet, tile 2. *)
Lemma crop_and_mask_in_bounds_witness :
  wf_image scenario_A_sheet ∧
  1 ≤ 2 ∧
  "topleft" ∈ sort_choices ∧
  im_w scenario_A_sheet * im_h scenario_A_sheet ≤ Z.of_nat 16%nat ∧
  (∃ m sw sh comps,
     find_components 16%nat scenario_A_sheet 2 "topleft" 1 = Ok (m, sw, sh, comps) ∧
     ∀ cells, cells ∈ comps →
       ∃ bbox x0 y0 x1 y1 out,
         coarse_bbox cells = Ok bbox ∧
         crop_box_of bbox 2 (im_w scenario_A_sheet) (im_h scenario_A_sheet) = (x0, y0, x1, y1) ∧
         (0 ≤ x0 < x1 ∧ x1 ≤ im_w scenario_A_sheet) ∧ (0 ≤ y0 < y1 ∧ y1 ≤ im_h scenario_A_sheet) ∧
         (∀ px py, 0 ≤ px < x1 - x0 → 0 ≤ py < y1 - y0 →
            0 ≤ y0 + py < len m ∧
            ∃ row_m, getitem m (y0 + py) = Ok row_m ∧ 0 ≤ x0 + px < len row_m) ∧
         apply_component_mask (convert_RGBA scenario_A_sheet) m (list_to_set cells) 2
           (x0, y0, x1, y1) = Ok out ∧
         im_w out = x1 - x0 ∧ im_h out = y1 - y0 ∧
         is_grid (im_rgba out) (x1 - x0) (y1 - y0)).
Proof.
  split; [concrete_image|]. split; [lia|]. split; [by right; left|].
  split; [by vm_compute|].
  apply (crop_and_mask_in_bounds scenario_A_sheet 2 "topleft" 1 16%nat); [concrete_image|lia|by right; left|by vm_compute].
Defined.

(** Both halves of the exit-status theorem: a run with [--tile 0], and a
    run with the default options on the Scenario A sheet. *)
Lemma main_exit_status_witness :
  (arg_tile zero_tile_args < 1 ∨ arg_min_cells zero_tile_args < 1) ∧
  (∃ r, main env_scenario_A 16 zero_tile_args [] = (r, []) ∧
        exit_status r ≠ 0) ∧
  cooperative env_scenario_A (arg_input default_args) (arg_out default_args)
    scenario_A_sheet ∧
  (∃ atlas saves,
     main env_scenario_A 16 default_args [] =
       (Ok 0,
        [EvMakedirs (arg_out default_args);
         EvOpenImage (arg_input default_args)] ++ saves ++
        [EvWriteJson (path_join env_scenario_A (arg_out default_args)
                        (arg_atlas default_args)) atlas;
         EvPrint ("sprites: " +:+ str_of_int (len (atlas_sprites atlas)));
         EvPrint ("wrote:   " +:+
                  path_join env_scenario_A (arg_out default_args)
                    (arg_atlas default_args))]) ∧
     Forall is_save saves ∧ exit_status (Ok 0) = 0).
Proof.
  assert (cooperative env_scenario_A (arg_input default_args)
            (arg_out default_args) scenario_A_sheet) as Hcoop.
  { split; [reflexivity|]. split; [concrete_image|]. by split. }
  split; [left; by vm_compute|]. split.
  { apply (proj1 (main_exit_status env_scenario_A 16 zero_tile_args)).
    left. by vm_compute. }
  split; [exact Hcoop|].
  refine (proj2 (main_exit_status env_scenario_A 16 default_args)
            _ _ _ scenario_A_sheet Hcoop _);
    [by vm_compute|by vm_compute|by right; left|by vm_compute].
Defined.

(** ** Instances of the further properties *)

(** The mask of the Scenario A sheet, which has an alpha band. *)
Lemma foreground_mask_alpha_band_witness :
  (wf_image scenario_A_sheet) ∧
  (has_alpha_band scenario_A_sheet = true) ∧
  (∃ mask, foreground_mask scenario_A_sheet = Ok mask ∧
     is_grid mask (im_w scenario_A_sheet) (im_h scenario_A_sheet) ∧
     ∀ x y, 0 ≤ x < im_w scenario_A_sheet → 0 ≤ y < im_h scenario_A_sheet →
       (getitem2 mask y x = Ok true ↔
          0 < alpha_of (pixel_at (im_rgba scenario_A_sheet) x y)) ∧
       (getitem2 mask y x = Ok false ↔
          alpha_of (pixel_at (im_rgba scenario_A_sheet) x y) ≤ 0)).
Proof.
  split; [concrete_image|].
  split; [reflexivity|].
  apply (foreground_mask_alpha_band scenario_A_sheet); [concrete_image|reflexivity].
Defined.

(** White fills two of the three pixels of the palette sheet. *)
Lemma most_common_rgb_majority_witness :
  (wf_image palette_sheet) ∧
  (len (samples_of palette_sheet) < 2 * freq (255, 255, 255) (samples_of palette_sheet)) ∧
  (most_common_rgb palette_sheet = Ok (255, 255, 255)).
Proof.
  split; [concrete_image|].
  split; [by vm_compute|].
  apply (most_common_rgb_majority palette_sheet (255, 255, 255)); [concrete_image|by vm_compute].
Defined.

(** The mask of Scenario A with tile 1. *)
Lemma downscale_any_tile_1_witness :
  (is_grid scenario_A_mask 4 4) ∧
  ((4 = 0 → 4 = 0)) ∧
  (downscale_any scenario_A_mask 1 = Ok (scenario_A_mask, 4, 4)).
Proof.
  split; [concrete_grid|].
  split; [lia|].
  apply (downscale_any_tile_1 scenario_A_mask 4 4); [concrete_grid|lia].
Defined.

(** The mask of Scenario A with tile -1. *)
Lemma downscale_any_nonpositive_tile_witness :
  ((-1) ≤ 0) ∧
  (((-1) = 0 ∧ downscale_any scenario_A_mask (-1) = Raise ZeroDivisionError) ∨
   ((-1) < 0 ∧
    ∃ small sw sh, downscale_any scenario_A_mask (-1) = Ok (small, sw, sh) ∧
      ∀ x y, cell small x y = false)).
Proof.
  split; [lia|].
  apply (downscale_any_nonpositive_tile scenario_A_mask (-1)); [lia].
Defined.

(** Connectivity on the coarse grid of Scenario A. *)
Lemma flood_components_8_connected_witness :
  (is_grid scenario_A_grid 2 2) ∧
  (2 * 2 ≤ Z.of_nat 4%nat) ∧
  (∃ comps, flood_components_8 4%nat scenario_A_grid = Ok comps ∧
     ∀ c c', occupied scenario_A_grid c → occupied scenario_A_grid c' →
       ((∃ K, K ∈ comps ∧ c ∈ K ∧ c' ∈ K) ↔ reachable scenario_A_grid c c')).
Proof.
  split; [concrete_grid|].
  split; [by vm_compute|].
  apply (flood_components_8_connected scenario_A_grid 2 2 4%nat); [concrete_grid|by vm_compute].
Defined.

(** The components of the coarse grid of Scenario A. *)
Lemma flood_components_8_nonempty_witness :
  (is_grid scenario_A_grid 2 2) ∧
  (2 * 2 ≤ Z.of_nat 4%nat) ∧
  (∃ comps, flood_components_8 4%nat scenario_A_grid = Ok comps ∧
     (∀ K, K ∈ comps → K ≠ [] ∧ ∀ c, c ∈ K → 0 ≤ c.1 < 2 ∧ 0 ≤ c.2 < 2) ∧
     (comps = [] ↔ ∀ c, ¬ occupied scenario_A_grid c)).
Proof.
  split; [concrete_grid|].
  split; [by vm_compute|].
  apply (flood_components_8_nonempty scenario_A_grid 2 2 4%nat); [concrete_grid|by vm_compute].
Defined.

(** The sorter on a list with an empty component. *)
Lemma sort_components_empty_component_witness :
  ([] ∈ [[(0, 0)]; []]) ∧
  (sort_components [[(0, 0)]; []] "topleft" = Raise ValueError ∧
   sort_components [[(0, 0)]; []] "none" = Ok [[(0, 0)]; []] ∧
   ∃ out, sort_components [[(0, 0)]; []] "size" = Ok out ∧ out ≡ₚ [[(0, 0)]; []]).
Proof.
  split; [by right; left|].
  apply (sort_components_empty_component [[(0, 0)]; []]); [by right; left].
Defined.

(** The filter on the Scenario A sheet, tile 1: two components of one cell. *)
Lemma find_components_filter_witness :
  (wf_image scenario_A_sheet) ∧
  (1 ≤ 1) ∧
  ("topleft" ∈ sort_choices) ∧
  (im_w scenario_A_sheet * im_h scenario_A_sheet ≤ Z.of_nat 16%nat) ∧
  (∃ m small sw sh comps0 comps,
     foreground_mask scenario_A_sheet = Ok m ∧
     downscale_any m 1 = Ok (small, sw, sh) ∧
     flood_components_8 16%nat small = Ok comps0 ∧
     find_components 16%nat scenario_A_sheet 1 "topleft" 1 = Ok (m, sw, sh, comps) ∧
     comps ≡ₚ filter (λ K, 1 ≤ len K) comps0 ∧
     (∀ K, K ∈ comps ↔ K ∈ comps0 ∧ 1 ≤ len K) ∧
     ("topleft" = "none"%string → comps = filter (λ K, 1 ≤ len K) comps0) ∧
     (1 ≤ 1 → comps ≡ₚ comps0)).
Proof.
  split; [concrete_image|].
  split; [lia|].
  split; [by right; left|].
  split; [by vm_compute|].
  apply (find_components_filter scenario_A_sheet 1 "topleft" 1 16%nat); [concrete_image|lia|by right; left|by vm_compute].
Defined.

(** The two foreground pixels of the Scenario A sheet, tile 1. *)
Lemma foreground_pixel_in_one_sprite_witness :
  (wf_image scenario_A_sheet) ∧
  (1 ≤ 1) ∧
  ("topleft" ∈ sort_choices) ∧
  (im_w scenario_A_sheet * im_h scenario_A_sheet ≤ Z.of_nat 16%nat) ∧
  (∃ m sw sh comps,
     find_components 16%nat scenario_A_sheet 1 "topleft" 1 = Ok (m, sw, sh, comps) ∧
     (∀ (i j : nat) Ki Kj x0 y0 px py x0' y0' px' py',
        comps !! i = Some Ki → comps !! j = Some Kj →
        x0 + px = x0' + px' → y0 + py = y0' + py' →
        kept m (list_to_set Ki) 1 x0 y0 px py →
        kept m (list_to_set Kj) 1 x0' y0' px' py' → i = j) ∧
     (1 ≤ 1 →
      ∀ gx gy, 0 ≤ gx < im_w scenario_A_sheet → 0 ≤ gy < im_h scenario_A_sheet → cell m gx gy = true →
        ∃ (i : nat) K bbox x0 y0 x1 y1,
          comps !! i = Some K ∧ coarse_bbox K = Ok bbox ∧
          crop_box_of bbox 1 (im_w scenario_A_sheet) (im_h scenario_A_sheet) = (x0, y0, x1, y1) ∧
          x0 ≤ gx < x1 ∧ y0 ≤ gy < y1 ∧
          kept m (list_to_set K) 1 x0 y0 (gx - x0) (gy - y0))).
Proof.
  split; [concrete_image|].
  split; [lia|].
  split; [by right; left|].
  split; [by vm_compute|].
  apply (foreground_pixel_in_one_sprite scenario_A_sheet 1 "topleft" 1 16%nat); [concrete_image|lia|by right; left|by vm_compute].
Defined.


(** A direct call with the sort mode [bogus] on the Scenario A sheet. *)
Lemma extract_sprites_unknown_sort_witness :
  (cooperative env_scenario_A "sheet.png" "out" scenario_A_sheet) ∧
  (1 ≤ 1) ∧
  (im_w scenario_A_sheet * im_h scenario_A_sheet ≤ Z.of_nat 16%nat) ∧
  ("bogus" ∉ sort_choices) ∧
  (extract_sprites env_scenario_A 16%nat "sheet.png" "out" 1 "bogus" 1 true [] =
     (Raise ValueError, [] ++ [EvMakedirs "out"; EvOpenImage "sheet.png"])).
Proof.
  split; [concrete_cooperative|].
  split; [lia|].
  split; [by vm_compute|].
  split; [intros Hin; repeat (apply elem_of_cons in Hin as [Hin|Hin]; [done|]); by apply elem_of_nil in Hin|].
  apply (extract_sprites_unknown_sort env_scenario_A 16%nat "sheet.png" "out" 1 "bogus" 1 true scenario_A_sheet []); [concrete_cooperative|lia|by vm_compute|intros Hin; repeat (apply elem_of_cons in Hin as [Hin|Hin]; [done|]); by apply elem_of_nil in Hin].
Defined.

(** The records and files of the Scenario A sheet, tile 1. *)
Lemma extract_sprites_records_witness :
  (cooperative env_scenario_A "sheet.png" "out" scenario_A_sheet) ∧
  (1 ≤ 1) ∧
  ("topleft" ∈ sort_choices) ∧
  (im_w scenario_A_sheet * im_h scenario_A_sheet ≤ Z.of_nat 16%nat) ∧
  (∃ m sw sh comps atlas sprites saves,
     find_components 16%nat scenario_A_sheet 1 "topleft" 1 = Ok (m, sw, sh, comps) ∧
     extract_sprites env_scenario_A 16%nat "sheet.png" "out" 1 "topleft" 1 true []
       = (Ok (atlas, sprites),
          [] ++ [EvMakedirs "out"; EvOpenImage "sheet.png"] ++ saves) ∧
     atlas_sprites atlas = sprites ∧
     length sprites = length comps ∧ length saves = length comps ∧
     ∀ (i : nat) K, comps !! i = Some K →
       ∃ r saved, sprites !! i = Some r ∧ saves !! i = Some saved ∧
         sprite_entry env_scenario_A "out" scenario_A_sheet m 1 true i K r saved).
Proof.
  split; [concrete_cooperative|].
  split; [lia|].
  split; [by right; left|].
  split; [by vm_compute|].
  apply (extract_sprites_records env_scenario_A 16%nat "sheet.png" "out" 1 "topleft" 1 true scenario_A_sheet []); [concrete_cooperative|lia|by right; left|by vm_compute].
Defined.

(** The [meta] block for the Scenario A sheet, tile 1. *)
Lemma extract_sprites_meta_witness :
  (cooperative env_scenario_A "sheet.png" "out" scenario_A_sheet) ∧
  (1 ≤ 1) ∧
  ("topleft" ∈ sort_choices) ∧
  (im_w scenario_A_sheet * im_h scenario_A_sheet ≤ Z.of_nat 16%nat) ∧
  (∃ m sw sh comps atlas sprites tr,
     find_components 16%nat scenario_A_sheet 1 "topleft" 1 = Ok (m, sw, sh, comps) ∧
     extract_sprites env_scenario_A 16%nat "sheet.png" "out" 1 "topleft" 1 true []
       = (Ok (atlas, sprites), tr) ∧
     meta_source (atlas_meta atlas) = path_basename env_scenario_A "sheet.png" ∧
     meta_image_w (atlas_meta atlas) = im_w scenario_A_sheet ∧
     meta_image_h (atlas_meta atlas) = im_h scenario_A_sheet ∧
     meta_tile (atlas_meta atlas) = 1 ∧
     is_ceil_div (meta_mask_h (atlas_meta atlas)) (im_h scenario_A_sheet) 1 ∧
     (im_h scenario_A_sheet ≠ 0 →
        is_ceil_div (meta_mask_w (atlas_meta atlas)) (im_w scenario_A_sheet) 1) ∧
     (im_h scenario_A_sheet = 0 → meta_mask_w (atlas_meta atlas) = 0) ∧
     meta_count (atlas_meta atlas) = len comps ∧
     meta_count (atlas_meta atlas) = len (atlas_sprites atlas)).
Proof.
  split; [concrete_cooperative|].
  split; [lia|].
  split; [by right; left|].
  split; [by vm_compute|].
  apply (extract_sprites_meta env_scenario_A 16%nat "sheet.png" "out" 1 "topleft" 1 true scenario_A_sheet []); [concrete_cooperative|lia|by right; left|by vm_compute].
Defined.

(** The order of the two records of the Scenario A sheet, tile 1. *)
Lemma extract_sprites_topleft_order_witness :
  (cooperative env_scenario_A "sheet.png" "out" scenario_A_sheet) ∧
  (1 ≤ 1) ∧
  (im_w scenario_A_sheet * im_h scenario_A_sheet ≤ Z.of_nat 16%nat) ∧
  (∃ atlas sprites tr,
     extract_sprites env_scenario_A 16%nat "sheet.png" "out" 1 "topleft" 1 true []
       = (Ok (atlas, sprites), tr) ∧
     ∀ (i j : nat) r r', (i < j)%nat →
       sprites !! i = Some r → sprites !! j = Some r' →
       tuple4_le
         (sr_mask_y r, sr_mask_x r,
          sr_mask_y r + sr_mask_h r - 1, sr_mask_x r + sr_mask_w r - 1)
         (sr_mask_y r', sr_mask_x r',
          sr_mask_y r' + sr_mask_h r' - 1, sr_mask_x r' + sr_mask_w r' - 1)).
Proof.
  split; [concrete_cooperative|].
  split; [lia|].
  split; [by vm_compute|].
  apply (extract_sprites_topleft_order env_scenario_A 16%nat "sheet.png" "out" 1 1 true scenario_A_sheet []); [concrete_cooperative|lia|by vm_compute].
Defined.

(** The two sprite files of the Scenario A sheet, tile 1. *)
Lemma saved_files_distinct_witness :
  (cooperative env_scenario_A "sheet.png" "out" scenario_A_sheet) ∧
  (1 ≤ 1) ∧
  ("topleft" ∈ sort_choices) ∧
  (im_w scenario_A_sheet * im_h scenario_A_sheet ≤ Z.of_nat 16%nat) ∧
  ((∀ a b, path_join env_scenario_A "out" a = path_join env_scenario_A "out" b → a = b)) ∧
  (∃ atlas sprites saves,
     extract_sprites env_scenario_A 16%nat "sheet.png" "out" 1 "topleft" 1 true []
       = (Ok (atlas, sprites),
          [] ++ [EvMakedirs "out"; EvOpenImage "sheet.png"] ++ saves) ∧
     (∀ (i j : nat) p q im im',
        saves !! i = Some (EvSaveImage p im) →
        saves !! j = Some (EvSaveImage q im') → p = q → i = j) ∧
     (∀ (i j : nat) r r',
        sprites !! i = Some r → sprites !! j = Some r' →
        sr_image r = sr_image r' → i = j)).
Proof.
  split; [concrete_cooperative|].
  split; [lia|].
  split; [by right; left|].
  split; [by vm_compute|].
  split; [intros a b Hab; apply (inj (String.append "out")) in Hab; by apply (inj (String.append "/")) in Hab|].
  apply (saved_files_distinct env_scenario_A 16%nat "sheet.png" "out" 1 "topleft" 1 true scenario_A_sheet []); [concrete_cooperative|lia|by right; left|by vm_compute|intros a b Hab; apply (inj (String.append "out")) in Hab; by apply (inj (String.append "/")) in Hab].
Defined.

(** A run on the Scenario A sheet with [--min-cells 17]. *)
Lemma main_no_sprites_witness :
  (1 ≤ arg_tile high_threshold_args) ∧
  (1 ≤ arg_min_cells high_threshold_args) ∧
  (arg_sort high_threshold_args ∈ sort_choices) ∧
  (cooperative env_scenario_A (arg_input high_threshold_args) (arg_out high_threshold_args) scenario_A_sheet) ∧
  (im_w scenario_A_sheet * im_h scenario_A_sheet ≤ Z.of_nat 16%nat) ∧
  ((∃ m, foreground_mask scenario_A_sheet = Ok m ∧ ∀ x y, 0 ≤ x < im_w scenario_A_sheet → 0 ≤ y < im_h scenario_A_sheet → cell m x y = false) ∨ im_w scenario_A_sheet * im_h scenario_A_sheet < arg_min_cells high_threshold_args) ∧
  (∃ atlas,
     main env_scenario_A 16%nat high_threshold_args [] =
       (Ok 0,
        [EvMakedirs (arg_out high_threshold_args); EvOpenImage (arg_input high_threshold_args);
         EvWriteJson (path_join env_scenario_A (arg_out high_threshold_args) (arg_atlas high_threshold_args)) atlas;
         EvPrint ("sprites: " +:+ str_of_int 0);
         EvPrint ("wrote:   " +:+ path_join env_scenario_A (arg_out high_threshold_args) (arg_atlas high_threshold_args))]) ∧
     atlas_sprites atlas = [] ∧ meta_count (atlas_meta atlas) = 0).
Proof.
  split; [by vm_compute|].
  split; [by vm_compute|].
  split; [by right; left|].
  split; [concrete_cooperative|].
  split; [by vm_compute|].
  split; [right; by vm_compute|].
  apply (main_no_sprites env_scenario_A 16%nat high_threshold_args scenario_A_sheet); [by vm_compute|by vm_compute|by right; left|concrete_cooperative|by vm_compute|right; by vm_compute].
Defined.
